(** * Shallow embedding of the XLIFF translation core of app.py

    Python [str] values are modelled as [list ascii], each [ascii] read as
    a code point of U+0000..U+00FF (Latin-1), so that the character
    predicates of Python ([str.isspace], [str.isalnum], and the [\s], [\w],
    [\d], [\b] classes of [re] on [str] patterns) can be written out as
    tables.  XML elements are lxml elements seen as values. *)

From Stdlib Require Import List Ascii String Arith Lia Bool.
Import ListNotations.
Open Scope list_scope.

Abbreviation str := (list ascii).

(** String literals of the source, as [str]. *)
Definition lit (s : string) : str := list_ascii_of_string s.

(** ** Character classes (Python semantics on U+0000..U+00FF) *)

Definition code (c : ascii) : nat := nat_of_ascii c.
Definition between (lo hi : nat) (c : ascii) : bool :=
  (lo <=? code c) && (code c <=? hi).
Definition is_chr (n : nat) (c : ascii) : bool := code c =? n.

(** [str.isspace()], also the [\s] class of [re]. *)
Definition is_space (c : ascii) : bool :=
  between 9 13 c || between 28 32 c || is_chr 133 c || is_chr 160 c.

(** [\d] of [re]: Unicode decimal digits, only 0-9 in this range. *)
Definition is_dec (c : ascii) : bool := between 48 57 c.

Definition is_alpha (c : ascii) : bool :=
  between 65 90 c || between 97 122 c || is_chr 170 c || is_chr 181 c
  || is_chr 186 c || between 192 214 c || between 216 246 c
  || between 248 255 c.

(** [str.isalnum()]: alphabetic, or digit (0-9, superscripts) or numeric
    (vulgar fractions). *)
Definition is_alnum (c : ascii) : bool :=
  is_alpha c || is_dec c || is_chr 178 c || is_chr 179 c || is_chr 185 c
  || between 188 190 c.

(** [\w] of [re]: alphanumeric or underscore. *)
Definition is_word (c : ascii) : bool := is_alnum c || is_chr 95 c.

Definition is_word_opt (c : option ascii) : bool :=
  match c with Some c => is_word c | None => false end.

Definition is_hex (c : ascii) : bool :=
  is_dec c || between 65 70 c || between 97 102 c.

Definition is_az (c : ascii) : bool := between 65 90 c || between 97 122 c.

Definition chr_eqb (a b : ascii) : bool := Ascii.eqb a b.

Definition in_chars (cs : string) (c : ascii) : bool :=
  existsb (chr_eqb c) (lit cs).

(** ** String helpers *)

Fixpoint strip_prefix (p s : str) : option str :=
  match p, s with
  | [], _ => Some s
  | a :: p', b :: s' => if chr_eqb a b then strip_prefix p' s' else None
  | _ :: _, [] => None
  end.

Definition starts_with (p s : str) : bool :=
  match strip_prefix p s with Some _ => true | None => false end.

(** Length of the longest prefix of [s] made of [p]-characters. *)
Fixpoint run (p : ascii -> bool) (s : str) : nat :=
  match s with
  | c :: s' => if p c then S (run p s') else 0
  | [] => 0
  end.

Definition char_at (s : str) (n : nat) : option ascii := nth_error s n.

Definition opt_chr_eqb (c : option ascii) (d : ascii) : bool :=
  match c with Some c => chr_eqb c d | None => false end.

(** [text.strip()] is empty. *)
Definition is_blank (s : str) : bool := forallb is_space s.

(** Python truthiness of an optional [str] ([None] and [""] are false). *)
Definition truthy (s : option str) : bool :=
  match s with Some (_ :: _) => true | _ => false end.

(** [safe_str] on an optional [str] ([None] becomes [""]). *)
Definition safe_str (s : option str) : str :=
  match s with Some s => s | None => [] end.

(** Decimal rendering of a [nat], as [f"{idx}"]. *)
Fixpoint dec_aux (fuel n : nat) (acc : str) : str :=
  match fuel with
  | 0 => acc
  | S f =>
      let acc' := ascii_of_nat (48 + n mod 10) :: acc in
      if n <? 10 then acc' else dec_aux f (n / 10) acc'
  end.
Definition dec (n : nat) : str := dec_aux (S n) n [].

(** [f"__TK{idx}__"] *)
Definition placeholder (idx : nat) : str := lit "__TK" ++ dec idx ++ lit "__".

(** ** The patterns of [NONTRANS_PATTERNS]

    A matcher gets the character before the current position (for [\b])
    and the rest of the string, and returns the length of the match that
    Python's backtracking engine finds at this position, if any.  None of
    the six patterns matches the empty string. *)

Definition matcher := option ascii -> str -> option nat.

Definition nonempty_run (k n : nat) : option nat :=
  if n =? 0 then None else Some (k + n).

Definition is_nonspace (c : ascii) : bool := negb (is_space c).

(** [r"https?://\S+"]: the optional [s] is tried first; [\S+] is greedy
    and ends the pattern, so it takes the maximal run. *)
Definition m_url : matcher := fun _ s =>
  match strip_prefix (lit "https://") s with
  | Some r =>
      match nonempty_run 8 (run is_nonspace r) with
      | Some n => Some n
      | None =>
          match strip_prefix (lit "http://") s with
          | Some r' => nonempty_run 7 (run is_nonspace r')
          | None => None
          end
      end
  | None =>
      match strip_prefix (lit "http://") s with
      | Some r' => nonempty_run 7 (run is_nonspace r')
      | None => None
      end
  end.

(** [r"www\.\S+"] *)
Definition m_www : matcher := fun _ s =>
  match strip_prefix (lit "www.") s with
  | Some r => nonempty_run 4 (run is_nonspace r)
  | None => None
  end.

(** The class [[\w\.-]]. *)
Definition is_mailc (c : ascii) : bool :=
  is_word c || chr_eqb c "."%char || chr_eqb c "-"%char.

(** [r"[\w\.-]+\.\w+"] at the start of [r]: the greedy class run is
    shortened until it is followed by a dot and a word character; [\w+]
    then takes its maximal run. *)
Fixpoint email_down (r : str) (k : nat) : option nat :=
  match k with
  | 0 => None
  | S k' =>
      if opt_chr_eqb (char_at r k) "."%char && is_word_opt (char_at r (S k))
      then Some (S k + run is_word (skipn (S k) r))
      else email_down r k'
  end.

Definition email_tail (r : str) : option nat := email_down r (run is_mailc r - 1).

(** [r"[\w\.-]+@[\w\.-]+\.\w+"]: the first class run is maximal, since
    ['@'] is not in the class. *)
Definition m_email : matcher := fun _ s =>
  let n1 := run is_mailc s in
  if n1 =? 0 then None
  else if opt_chr_eqb (char_at s n1) "@"%char then
    match email_tail (skipn (S n1) s) with
    | Some k => Some (S n1 + k)
    | None => None
    end
  else None.

Definition not_pct_nl (c : ascii) : bool :=
  negb (chr_eqb c "%"%char || is_chr 10 c || is_chr 13 c).

(** [r"%[^%\n\r]+%"] (Storyline variables) *)
Definition m_pct : matcher := fun _ s =>
  match s with
  | c :: r =>
      if chr_eqb c "%"%char then
        let n := run not_pct_nl r in
        if (n =? 0) then None
        else if opt_chr_eqb (char_at r n) "%"%char then Some (S (S n))
        else None
      else None
  | [] => None
  end.

(** [r"&[#xX]?[0-9A-Fa-f]+;|&[A-Za-z]+;"]: the optional [[#xX]] is tried
    taken first, then left out; then the second alternative. *)
Definition ent_hex (r : str) (o : nat) : option nat :=
  let h := run is_hex (skipn o r) in
  if (0 <? h) && opt_chr_eqb (char_at r (o + h)) ";"%char
  then Some (S (o + h + 1)) else None.

Definition ent_name (r : str) : option nat :=
  let h := run is_az r in
  if (0 <? h) && opt_chr_eqb (char_at r h) ";"%char
  then Some (S (h + 1)) else None.

Definition m_ent : matcher := fun _ s =>
  match s with
  | c :: r =>
      if chr_eqb c "&"%char then
        let a1 :=
          match r with
          | d :: _ =>
              if in_chars "#xX" d then
                match ent_hex r 1 with Some n => Some n | None => ent_hex r 0 end
              else ent_hex r 0
          | [] => ent_hex r 0
          end in
        match a1 with
        | Some n => Some n
        | None => ent_name r
        end
      else None
  | [] => None
  end.

Definition is_numc (c : ascii) : bool := is_dec c || in_chars ".,/:_-" c.

(** [r"\b\d[\d\.,/:_-]*\b"]: a boundary before the digit, then the longest
    prefix of the class run that ends at a word boundary. *)
Definition num_boundary (c : ascii) (r : str) (e : nat) : bool :=
  let last := match e with 0 => Some c | S e' => char_at r e' end in
  xorb (is_word_opt last) (is_word_opt (char_at r e)).

Fixpoint num_down (c : ascii) (r : str) (e : nat) : option nat :=
  if num_boundary c r e then Some (S e)
  else match e with 0 => None | S e' => num_down c r e' end.

Definition m_num : matcher := fun prev s =>
  match s with
  | c :: r =>
      if negb (is_word_opt prev) && is_dec c then num_down c r (run is_numc r)
      else None
  | [] => None
  end.

Definition NONTRANS_PATTERNS : list matcher :=
  [m_url; m_www; m_email; m_pct; m_ent; m_num].

(** ** [re.sub(pat, repl, text)] with the [repl] of
    [protect_nontranslatable]: matches are searched left to right in the
    text of this pass; each one is replaced by [__TK{len(tokens)}__] and
    appended to [tokens].  [fuel] bounds the number of steps (the length
    of the text suffices). *)
Fixpoint sub_scan (m : matcher) (fuel : nat) (prev : option ascii)
    (s : str) (idx : nat) : str * list str :=
  match fuel with
  | 0 => (s, [])
  | S f =>
      match s with
      | [] => ([], [])
      | c :: r =>
          match m prev s with
          | Some (S k) =>
              let tok := firstn (S k) s in
              let '(out, ts) := sub_scan m f (char_at s k) (skipn (S k) s) (S idx) in
              (placeholder idx ++ out, tok :: ts)
          | _ =>
              let '(out, ts) := sub_scan m f (Some c) r idx in
              (c :: out, ts)
          end
      end
  end.

Definition sub_pass (acc : str * list str) (m : matcher) : str * list str :=
  let '(text, tokens) := acc in
  let '(text', fresh) := sub_scan m (List.length text) None text (List.length tokens) in
  (text', tokens ++ fresh).

(** [protect_nontranslatable] *)
Definition protect_nontranslatable (text : str) : str * list str :=
  match text with
  | [] => ([], [])
  | _ => fold_left sub_pass NONTRANS_PATTERNS (text, [])
  end.

(** [str.replace(old, new)] for a non-empty [old]: leftmost,
    non-overlapping occurrences. *)
Fixpoint replace_go (fuel : nat) (old new s : str) : str :=
  match fuel with
  | 0 => s
  | S f =>
      match s with
      | [] => []
      | c :: r =>
          match strip_prefix old s with
          | Some rest => new ++ replace_go f old new rest
          | None => c :: replace_go f old new r
          end
      end
  end.
Definition str_replace (old new s : str) : str := replace_go (List.length s) old new s.

(** The loop [for i in range(len(tokens)-1, -1, -1)]. *)
Fixpoint restore_from (i : nat) (tokens : list str) (text : str) : str :=
  match i with
  | 0 => text
  | S i' => restore_from i' tokens (str_replace (placeholder i') (nth i' tokens []) text)
  end.

(** [restore_nontranslatable] *)
Definition restore_nontranslatable (text : str) (tokens : list str) : str :=
  match tokens with
  | [] => text
  | _ => restore_from (List.length tokens) tokens text
  end.

(** ** Translation core *)

(** The external call [GoogleTranslator(source="auto", target=lang)
    .translate(t)]: a result, or [None] when it raises. *)
Definition translator := str -> str -> option str.

(** [translate_text_unit] *)
Definition translate_text_unit (tr : translator) (text lang : str) : str :=
  if is_blank text then text
  else
    let '(t, toks) := protect_nontranslatable text in
    let out := match tr lang t with Some o => o | None => t end in
    restore_nontranslatable out toks.

(** ** lxml elements

    An element has a qualified tag (namespace URI, local name), its
    attributes in document order, the namespace declarations made on it
    (prefix [None] is the default namespace), [.text], its children and
    [.tail]. *)

#[local] Set Warnings "-register-all".

Record qname := QName { q_ns : option str; q_local : str }.

Inductive element : Type :=
  Elem (tag : qname) (attrib : list (str * str))
       (nsdecl : list (option str * str)) (text : option str)
       (children : list element) (tail : option str).

Definition el_tag (e : element) : qname := let 'Elem t _ _ _ _ _ := e in t.
Definition el_attrib (e : element) := let 'Elem _ a _ _ _ _ := e in a.
Definition el_nsdecl (e : element) := let 'Elem _ _ n _ _ _ := e in n.
Definition el_text (e : element) : option str := let 'Elem _ _ _ x _ _ := e in x.
Definition el_children (e : element) : list element :=
  let 'Elem _ _ _ _ c _ := e in c.
Definition el_tail (e : element) : option str := let 'Elem _ _ _ _ _ t := e in t.

Definition set_text (x : option str) (e : element) : element :=
  let 'Elem t a n _ c tl := e in Elem t a n x c tl.
Definition set_tail (x : option str) (e : element) : element :=
  let 'Elem t a n tx c _ := e in Elem t a n tx c x.
Definition set_children (c : list element) (e : element) : element :=
  let 'Elem t a n tx _ tl := e in Elem t a n tx c tl.
Definition set_attrib (a : list (str * str)) (e : element) : element :=
  let 'Elem t _ n tx c tl := e in Elem t a n tx c tl.

(** [elem.clear()]: lxml drops the children, all attributes, [.text] and
    [.tail]; the tag and the namespace declarations stay. *)
Definition el_clear (e : element) : element :=
  let 'Elem t _ n _ _ _ := e in Elem t [] n None [] None.

(** Update of the [j]-th item of a Python list ([lst[j] = v]); the store
    is not changed out of range. *)
Fixpoint list_set {A} (j : nat) (v : A) (l : list A) : list A :=
  match l, j with
  | [], _ => []
  | _ :: l', 0 => v :: l'
  | x :: l', S j' => x :: list_set j' v l'
  end.

(** ** [translate_node_texts] *)
Definition translate_opt (tr : translator) (lang : str) (x : option str) : option str :=
  match x with
  | Some t => if is_blank t then x else Some (translate_text_unit tr t lang)
  | None => None
  end.

Fixpoint translate_node_texts (tr : translator) (lang : str) (e : element) : element :=
  match e with
  | Elem tg a n tx ch tl =>
      Elem tg a n (translate_opt tr lang tx)
        ((fix go (l : list element) : list element :=
            match l with
            | [] => []
            | c :: l' =>
                let c' := translate_node_texts tr lang c in
                set_tail (translate_opt tr lang (el_tail c')) c' :: go l'
            end) ch)
        tl
  end.

(** ** Namespaces and [ensure_target_for_source] *)

(** In-scope namespaces of an element ([elem.nsmap]), innermost first. *)
Abbreviation nsmap := (list (option str * str)).

Definition opt_str_eqb (a b : option str) : bool :=
  match a, b with
  | None, None => true
  | Some x, Some y => if list_eq_dec ascii_dec x y then true else false
  | _, _ => false
  end.

Fixpoint ns_lookup (k : option str) (m : nsmap) : option str :=
  match m with
  | [] => None
  | (k', v) :: m' => if opt_str_eqb k k' then Some v else ns_lookup k m'
  end.

Definition XLIFF12 : str := lit "urn:oasis:names:tc:xliff:document:1.2".

(** [xmlSearchNsByHref] from the parent, as lxml calls it when the new
    target is appended: some in-scope binding (the innermost one of its
    prefix) has the namespace [uri].  [seen] holds the prefixes already
    passed. *)
Fixpoint href_in_scope_go (seen : list (option str)) (uri : str) (m : nsmap) : bool :=
  match m with
  | [] => false
  | (k, v) :: m' =>
      if existsb (opt_str_eqb k) seen then href_in_scope_go seen uri m'
      else (if list_eq_dec ascii_dec v uri then true else false)
           || href_in_scope_go (k :: seen) uri m'
  end.

Definition href_in_scope (uri : str) (m : nsmap) : bool := href_in_scope_go [] uri m.

(** [ensure_target_for_source(src, tgt)], seen from [parent =
    src.getparent()] and its in-scope namespaces [pmap]; an existing
    target is a child of [parent], given by its index.  Returns the
    updated parent and the target's index.  [ET.Element("{uri}target")]
    declares [xmlns:ns0=uri] on the new element; [parent.append] drops
    that declaration when [uri] is already bound in the parent's scope. *)
Definition ensure_target_for_source (pmap : nsmap) (parent : element)
    (tgt : option nat) : element * nat :=
  match tgt with
  | Some j => (parent, j)
  | None =>
      let uri := match ns_lookup None pmap with
                 | Some ((_ :: _) as u) => u
                 | _ => XLIFF12
                 end in
      let decl := if href_in_scope uri pmap then [] else [(Some (lit "ns0"), uri)] in
      let t := Elem (QName (Some uri) (lit "target")) [] decl None [] None in
      (set_children (el_children parent ++ [t]) parent,
       List.length (el_children parent))
  end.

(** One iteration of the segment loop of [process], on the parent of
    [src] (its [k]-th child):
    [tmp = deepcopy(src); translate_node_texts(tmp, lang_code);
     tgt = ensure_target_for_source(src, tgt); tgt.clear();
     for ch in list(tmp): tgt.append(ch); tgt.text = safe_str(tmp.text);
     if len(tmp): tgt[-1].tail = safe_str(tmp[-1].tail)].
    The children move with their tails; the moves leave [tmp] without
    children, so the last statement never runs. *)
Definition fill_target (tmp tgt : element) : element :=
  set_text (Some (safe_str (el_text tmp))) (set_children (el_children tmp) (el_clear tgt)).

Definition default_elem : element := Elem (QName None []) [] [] None [] None.

Definition process_segment (tr : translator) (lang : str) (pmap : nsmap)
    (parent : element) (k : nat) (tgt : option nat) : element :=
  let tmp := translate_node_texts tr lang (nth k (el_children parent) default_elem) in
  let '(parent1, j) := ensure_target_for_source pmap parent tgt in
  let t := nth j (el_children parent1) default_elem in
  set_children (list_set j (fill_target tmp t) (el_children parent1)) parent1.

(** ** The document as a tree addressed by child-index paths *)

Fixpoint get_at (p : list nat) (e : element) : option element :=
  match p with
  | [] => Some e
  | k :: p' => match nth_error (el_children e) k with
               | Some c => get_at p' c
               | None => None
               end
  end.

Fixpoint upd_at (p : list nat) (f : element -> element) (e : element) : element :=
  match p with
  | [] => f e
  | k :: p' =>
      match nth_error (el_children e) k with
      | Some c => set_children (list_set k (upd_at p' f c) (el_children e)) e
      | None => e
      end
  end.

(** [elem.nsmap] of the element at path [p]: the declarations on the path,
    innermost first. *)
Fixpoint nsmap_at (p : list nat) (e : element) : nsmap :=
  match p with
  | [] => el_nsdecl e
  | k :: p' => match nth_error (el_children e) k with
               | Some c => nsmap_at p' c ++ el_nsdecl e
               | None => el_nsdecl e
               end
  end.

(** A pair of [iter_source_target_pairs]: the path of [src.getparent()],
    the index of [src] in it, and the index of the existing target. *)
Record pair_loc := PairLoc { pl_parent : list nat; pl_src : nat; pl_tgt : option nat }.

(** ** [translate_all_notes]: [root.findall(".//{*}note")], the
    descendants of [root] (not [root] itself) named [note]. *)
Definition translate_note (tr : translator) (lang : str) (e : element) : element :=
  if list_eq_dec ascii_dec (q_local (el_tag e)) (lit "note") then
    match el_text e with
    | Some t => if truthy (Some t) && negb (is_blank t)
                then set_text (Some (translate_text_unit tr t lang)) e else e
    | None => e
    end
  else e.

Fixpoint notes_below (tr : translator) (lang : str) (e : element) : element :=
  match e with
  | Elem tg a n tx ch tl =>
      Elem tg a n tx
        ((fix go (l : list element) : list element :=
            match l with
            | [] => []
            | c :: l' => translate_note tr lang (notes_below tr lang c) :: go l'
            end) ch) tl
  end.

Definition translate_all_notes (tr : translator) (root : element) (lang : str) : element :=
  notes_below tr lang root.

(** ** [translate_accessibility_attrs] *)
Definition A11Y_ATTRS : list str :=
  [lit "title"; lit "alt"; lit "aria-label"; lit "aria-placeholder";
   lit "aria-roledescription"; lit "data-title"; lit "data-alt"].

Fixpoint attr_get (k : str) (a : list (str * str)) : option str :=
  match a with
  | [] => None
  | (k', v) :: a' => if list_eq_dec ascii_dec k k' then Some v else attr_get k a'
  end.

(** [el.attrib[k] = v] on an existing key: the value changes in place. *)
Fixpoint attr_set (k v : str) (a : list (str * str)) : list (str * str) :=
  match a with
  | [] => [(k, v)]
  | (k', v') :: a' => if list_eq_dec ascii_dec k k' then (k', v) :: a'
                      else (k', v') :: attr_set k v a'
  end.

Definition a11y_one (tr : translator) (lang : str) (a : list (str * str)) (name : str)
    : list (str * str) :=
  match attr_get name a with
  | Some v => if negb (is_blank v) then attr_set name (translate_text_unit tr v lang) a else a
  | None => a
  end.

Fixpoint translate_accessibility_attrs (tr : translator) (e : element) (lang : str) : element :=
  match e with
  | Elem tg a n tx ch tl =>
      Elem tg (fold_left (a11y_one tr lang) A11Y_ATTRS a) n tx
        ((fix go (l : list element) : list element :=
            match l with
            | [] => []
            | c :: l' => translate_accessibility_attrs tr c lang :: go l'
            end) ch) tl
  end.

(** ** Spacing fix *)

(** [re.sub(r"\s{2,}", " ", s)]: [pend] is the current run of whitespace. *)
Definition flush_ws (pend : str) : str :=
  match pend with
  | [] => []
  | [c] => [c]
  | _ => [" "%char]
  end.

Fixpoint collapse_go (pend s : str) : str :=
  match s with
  | [] => flush_ws pend
  | c :: r => if is_space c then collapse_go (pend ++ [c]) r
              else flush_ws pend ++ c :: collapse_go [] r
  end.

Definition collapse_ws (s : str) : str := collapse_go [] s.

Definition last_chr (s : str) : ascii := List.last s " "%char.

(** [_needs_space] *)
Definition needs_space (a b : str) : bool :=
  match a, b with
  | [], _ => false
  | _, [] => false
  | _, b0 :: _ =>
      (is_alnum (last_chr a) && is_alnum b0)
      || (in_chars ",.;:!?" (last_chr a) && is_alnum b0)
  end.

(** [s.startswith((" ", "\n", "\t"))] *)
Definition starts_ws (s : str) : bool :=
  match s with
  | c :: _ => is_chr 32 c || is_chr 10 c || is_chr 9 c
  | [] => false
  end.

(** The [if prev is not None] block of the loop body. *)
Definition spacing_prev (prev cur : element) : element * element :=
  let pt := el_tail prev in
  let ct := el_text cur in
  if truthy pt && truthy ct then
    let t := safe_str pt in
    let t := if needs_space t (safe_str ct) then t ++ [" "%char] else t in
    (set_tail (Some (collapse_ws t)) prev, cur)
  else if truthy pt && negb (truthy ct) then
    (set_tail (Some (collapse_ws (safe_str pt))) prev, cur)
  else if negb (truthy pt) && truthy ct then
    if needs_space (safe_str (el_text prev)) (safe_str ct)
    then (prev, set_text (Some (" "%char :: safe_str ct)) cur)
    else (prev, cur)
  else (prev, cur).

(** The [if nxt is not None] block of the loop body. *)
Definition spacing_next (cur nxt : element) : element :=
  if truthy (el_text cur) && truthy (el_text nxt) then
    if needs_space (safe_str (el_text cur)) (safe_str (el_text nxt)) then
      let t := safe_str (el_tail cur) in
      let t := match t with
               | [] => [" "%char]
               | _ => if starts_ws t then t else " "%char :: t
               end in
      set_tail (Some (collapse_ws t)) cur
    else cur
  else
    let t := safe_str (el_tail cur) in
    match t with
    | [] => set_tail (Some []) cur
    | _ =>
        let t := if needs_space (safe_str (el_text cur)) (safe_str (el_text nxt))
                    && negb (starts_ws t)
                 then " "%char :: t else t in
        set_tail (Some (collapse_ws t)) cur
    end.

(** The loop [for i, cur in enumerate(kids)] of one element.  When [cur]
    is reached, [kids[i-1]] (here [prev]) carries every update it will
    get, and [kids[i+1]] none yet; [prev] is emitted once final. *)
Fixpoint spacing_kids (prev : option element) (ks : list element) : list element :=
  match ks with
  | [] => match prev with Some p => [p] | None => [] end
  | cur :: rest =>
      let '(prev', cur1) :=
        match prev with
        | Some p => let '(p', c') := spacing_prev p cur in (Some p', c')
        | None => (None, cur)
        end in
      let cur2 := match rest with n :: _ => spacing_next cur1 n | [] => cur1 end in
      match prev' with Some p => [p] | None => [] end ++ spacing_kids (Some cur2) rest
  end.

(** [fix_spacing_around_tags(root)].  The pass of an element writes only
    the [.text] and [.tail] of its children and reads nothing else, so the
    preorder of [root.iter()] gives the same result as fixing each child's
    subtree before its parent's row of children. *)
Fixpoint fix_spacing_around_tags (e : element) : element :=
  match e with
  | Elem tg a n tx ch tl =>
      Elem tg a n tx
        (spacing_kids None
           ((fix go (l : list element) : list element :=
               match l with
               | [] => []
               | c :: l' => fix_spacing_around_tags c :: go l'
               end) ch)) tl
  end.

(** ** [process] (the Rise flavour)

    [pairs] is [iter_source_target_pairs(root)], computed before the loop.
    The calls [prog.progress] and [status.text] are recorded as events. *)
Inductive progress_event : Type :=
| Started
| Reported (i total : nat)
| Finished.

Definition segment_at (tr : translator) (lang : str) (root : element)
    (pl : pair_loc) : element :=
  upd_at (pl_parent pl)
    (fun parent => process_segment tr lang (nsmap_at (pl_parent pl) root)
                     parent (pl_src pl) (pl_tgt pl)) root.

Definition reports (i total : nat) : bool :=
  (i =? 1) || (i mod 10 =? 0) || (i =? total).

Fixpoint process_loop (tr : translator) (lang : str) (total i : nat)
    (pairs : list pair_loc) (root : element) : element * list progress_event :=
  match pairs with
  | [] => (root, [])
  | pl :: ps =>
      let root' := segment_at tr lang root pl in
      let ev := if reports i total then [Reported i total] else [] in
      let '(r, evs) := process_loop tr lang total (S i) ps root' in
      (r, ev ++ evs)
  end.

Definition process (tr : translator) (lang : str) (root : element)
    (pairs : list pair_loc) : element * list progress_event :=
  let total := Nat.max (List.length pairs) 1 in
  let '(r, evs) := process_loop tr lang total 1 pairs root in
  let r := translate_all_notes tr r lang in
  let r := translate_accessibility_attrs tr r lang in
  let r := fix_spacing_around_tags r in
  (r, Started :: evs ++ [Finished]).

(** ** Structure of an element: everything but [.text] and [.tail] *)
Inductive skeleton : Type :=
  Skel (tag : qname) (attrib : list (str * str)) (nsdecl : nsmap) (kids : list skeleton).

Fixpoint shape (e : element) : skeleton :=
  match e with
  | Elem t a n _ ch _ => Skel t a n (map shape ch)
  end.

(** ** Auxiliary definitions of the proofs and the scenarios *)

Definition opt_list {A} (o : option A) : list A :=
  match o with Some x => [x] | None => [] end.

(** *** Paths *)

Definition is_prefix (p q : list nat) : Prop := exists r, q = p ++ r.
Definition disjoint_paths (p q : list nat) : Prop := ~ is_prefix p q /\ ~ is_prefix q p.

(** *** Tags and attributes of the children of an element *)
Definition kid_view (e : element) : list (qname * list (str * str)) :=
  map (fun c => (el_tag c, el_attrib c)) (el_children e).

Definition skel_kids (s : skeleton) : list (qname * list (str * str)) :=
  match s with
  | Skel _ _ _ ks => map (fun k => match k with Skel t a _ _ => (t, a) end) ks
  end.

(** The scenario of the spec:
    [<source>Click <g id="1">here</g> to continue.</source>] in a
    [trans-unit] without a target. *)
Definition xq (s : string) : qname := QName (Some XLIFF12) (lit s).

Definition click_source : element :=
  Elem (xq "source") [] [] (Some (lit "Click "))
    [Elem (xq "g") [(lit "id", lit "1")] [] (Some (lit "here")) []
          (Some (lit " to continue."))] None.

Definition click_unit : element :=
  Elem (xq "trans-unit") [] [(None, XLIFF12)] None [click_source] None.

Definition click_pairs : list pair_loc := [PairLoc [] 0 None].

(** A unit whose target already exists and carries [state="translated"]. *)
Definition state_unit : element :=
  Elem (xq "trans-unit") [] [(None, XLIFF12)] None
    [Elem (xq "source") [] [] (Some (lit "Hello")) [] None;
     Elem (xq "target") [(lit "state", lit "translated")] [] (Some (lit "Ola")) [] None]
    None.

Definition state_pairs : list pair_loc := [PairLoc [] 0 (Some 1)].

(** A translator that returns its input. *)
Definition echo_tr : translator := fun _ t => Some t.

(** A [trans-unit] whose source is followed by a note, and a 2.0 segment
    whose elements use the prefix [x] (no default namespace in scope). *)
Definition XLIFF20 : str := lit "urn:oasis:names:tc:xliff:document:2.0".

Definition unit_with_note : element :=
  Elem (xq "trans-unit") [] [(None, XLIFF12)] None
    [Elem (xq "source") [] [] (Some (lit "Hello")) [] None;
     Elem (xq "note") [] [] (Some (lit "greeting")) [] None]
    None.

(** A 1.2 unit without any namespace. *)
Definition plain_unit : element :=
  Elem (QName None (lit "trans-unit")) [] [] None
    [Elem (QName None (lit "source")) [] [] (Some (lit "Hello")) [] None] None.

Definition q20 (s : string) : qname := QName (Some XLIFF20) (lit s).

Definition segment20 : element :=
  Elem (q20 "segment") [] [] None
    [Elem (q20 "source") [] [] (Some (lit "Hello")) [] None] None.

Definition nsmap20 : nsmap := [(Some (lit "x"), XLIFF20)].

(** *** A text cut into the matches of one [re.sub] pass and the gaps
    between them: [(token, gap)] pairs after a leading gap. *)
Fixpoint woven (ps : list (str * str)) : str :=
  match ps with
  | [] => []
  | (t, g) :: ps' => t ++ g ++ woven ps'
  end.

(** The same text with the [n]-th token replaced by
    [placeholder (idx + n)]. *)
Fixpoint woven_ph (idx : nat) (ps : list (str * str)) : str :=
  match ps with
  | [] => []
  | (_, g) :: ps' => placeholder idx ++ g ++ woven_ph (S idx) ps'
  end.

(** Where a match may end: not between two word characters. *)
Definition match_ends_well (m : matcher) : Prop :=
  forall prev s k, m prev s = Some (S k) ->
    S k <= List.length s /\
    (is_word_opt (char_at s k) && is_word_opt (char_at s (S k)))%bool = false.


(** ** Texts during [protect_nontranslatable], seen as items

    Between two passes the text is a sequence of original characters and
    placeholders [__TK{i}__] written by earlier passes. *)
Inductive item := Ch (c : ascii) | Ph (i : nat).

Definition item_str (x : item) : str :=
  match x with Ch c => [c] | Ph i => placeholder i end.

Definition flat (xs : list item) : str := flat_map item_str xs.

(** Token/gap pairs of items, and the same with the [n]-th token
    replaced by [Ph (idx + n)]. *)
Fixpoint iwoven (ps : list (list item * list item)) : list item :=
  match ps with
  | [] => []
  | (t, g) :: ps' => t ++ g ++ iwoven ps'
  end.

Fixpoint iwoven_ph (idx : nat) (ps : list (list item * list item)) : list item :=
  match ps with
  | [] => []
  | (_, g) :: ps' => Ph idx :: g ++ iwoven_ph (S idx) ps'
  end.

(** No original ["T"] directly followed by an original ["K"]. *)
Definition good (xs : list item) : Prop :=
  forall l r, xs <> l ++ Ch "T"%char :: Ch "K"%char :: r.

Definition ph_below (n : nat) (xs : list item) : Prop :=
  forall i, In (Ph i) xs -> i < n.

(** [str.replace(f"__TK{j}__", t)] seen on items. *)
Definition flat_sub (j : nat) (t : str) (xs : list item) : str :=
  flat_map (fun x => match x with
                     | Ph i => if i =? j then t else placeholder i
                     | Ch c => [c] end) xs.

(** A matcher never matches from inside a placeholder, once it does not
    match at its first character. *)
Definition no_match_inside (m : matcher) : Prop :=
  forall i Y prev0 prev k,
    (forall n, m prev0 (placeholder i ++ Y) <> Some (S n)) ->
    1 <= k < List.length (placeholder i) -> is_word_opt prev = true ->
    forall n, m prev (skipn k (placeholder i) ++ Y) <> Some (S n).

(** The characters of a placeholder. *)
Definition is_phc (c : ascii) : bool :=
  chr_eqb c "_"%char || chr_eqb c "T"%char || chr_eqb c "K"%char || is_dec c.

(** The decimal value of a digit string. *)
Fixpoint dec_val_acc (v : nat) (s : str) : nat :=
  match s with
  | [] => v
  | c :: s' => dec_val_acc (v * 10 + (nat_of_ascii c - 48)) s'
  end.
Definition dec_val (s : str) : nat := dec_val_acc 0 s.

(** The text contains ["TK"]. *)
Fixpoint has_TK (s : str) : bool :=
  match s with
  | [] => false
  | c :: r =>
      (chr_eqb c "T"%char && match r with d :: _ => chr_eqb d "K"%char | [] => false end)
      || has_TK r
  end.

(** The text starts with one or more digits followed by ["__"]. *)
Fixpoint digits_then_close (s : str) : bool :=
  match s with
  | [] => false
  | d :: r => is_dec d && (starts_with (lit "__") r || digits_then_close r)
  end.

(** The text contains a literal [__TK<digits>__]. *)
Fixpoint has_ph_literal (s : str) : bool :=
  match s with
  | [] => false
  | _ :: r =>
      match strip_prefix (lit "__TK") s with
      | Some rest => digits_then_close rest
      | None => false
      end || has_ph_literal r
  end.

(** [restore_nontranslatable] after [protect_nontranslatable]. *)
Definition round_trip (text : str) : str :=
  let '(t, toks) := protect_nontranslatable text in restore_nontranslatable t toks.

(** The steps of [restore_from] for the indices [a + b - 1] down to [a]. *)
Fixpoint rdown (a b : nat) (tokens : list str) (text : str) : str :=
  match b with
  | 0 => text
  | S b' => rdown a b' tokens (str_replace (placeholder (a + b')) (nth (a + b') tokens []) text)
  end.

(** What holds between two passes of [protect_nontranslatable] on [text0]:
    the text is made of items, no original ["TK"] occurs, every
    placeholder has the index of an existing token, and restoring gives
    [text0] back. *)
Definition restore_inv (text0 : str) (acc : str * list str) : Prop :=
  let '(t, toks) := acc in
  exists xs, t = flat xs /\ good xs /\ ph_below (List.length toks) xs /\
    restore_from (List.length toks) toks t = text0.

(** ** The spacing fix, row by row

    [next_tail a b t] is the tail a child gets from the [nxt] block, where
    [a] is its text, [b] the text of the next child and [t] its tail;
    [prev_tail u b] is what the [prev] block then makes of this tail [u]. *)
Definition next_tail (a b t : option str) : option str :=
  if truthy a && truthy b then
    if needs_space (safe_str a) (safe_str b) then
      Some (collapse_ws (match safe_str t with
                         | [] => [" "%char]
                         | t' => if starts_ws t' then t' else " "%char :: t'
                         end))
    else t
  else
    match safe_str t with
    | [] => Some []
    | t' => Some (collapse_ws (if needs_space (safe_str a) (safe_str b) && negb (starts_ws t')
                              then " "%char :: t' else t'))
    end.

Definition prev_tail (u b : option str) : option str :=
  if truthy u && truthy b then
    let t := safe_str u in
    Some (collapse_ws (if needs_space t (safe_str b) then t ++ [" "%char] else t))
  else if truthy u && negb (truthy b) then Some (collapse_ws (safe_str u))
  else u.

(** A child once the [nxt] block (with its next sibling [n]) and then the
    [prev] block (when [n] is current) have run. *)
Definition row_fix (k n : element) : element :=
  fst (spacing_prev (spacing_next k n) n).

(** The row of children after the loop. *)
Fixpoint fixup (ks : list element) : list element :=
  match ks with
  | k :: ((n :: _) as rest) => row_fix k n :: fixup rest
  | _ => ks
  end.

(** No two adjacent whitespace characters. *)
Fixpoint nrm (s : str) : bool :=
  match s with
  | c :: ((d :: _) as r) => negb (is_space c && is_space d) && nrm r
  | _ => true
  end.

(** ** Translation stubs and the placeholder example *)

(** A stub that upper-cases a-z and leaves every other character, so the
    characters of a placeholder [__TK<digits>__] unchanged. *)
Definition upper_chr (c : ascii) : ascii :=
  if between 97 122 c then ascii_of_nat (code c - 32) else c.
Definition upper_stub : translator := fun _ t => Some (map upper_chr t).

(** A translator whose call always raises. *)
Definition raising : translator := fun _ _ => None.

(** [p in s] *)
Fixpoint contains (p s : str) : bool :=
  starts_with p s || match s with [] => false | _ :: r => contains p r end.

Definition hello_example := lit "Hello {name}, you scored %d%%".

(** ** Texts and tails after the spacing fix *)

(** The [.text] of every element of a tree, in document order. *)
Fixpoint all_texts (e : element) : list (option str) :=
  el_text e :: flat_map all_texts (el_children e).

(** A tail is [None], or holds no two adjacent whitespace characters. *)
Definition tail_ok (t : option str) : bool :=
  match t with None => true | Some s => nrm s end.

Fixpoint row_ok (ks : list element) : bool :=
  match ks with
  | k :: ((_ :: _) as rest) => tail_ok (el_tail k) && row_ok rest
  | _ => true
  end.

(** In every element, the tails of all the children but the last are
    [tail_ok]. *)
Fixpoint tails_ok (e : element) : bool :=
  row_ok (el_children e) && forallb tails_ok (el_children e).

Definition words_example : element :=
  Elem (QName None (lit "p")) [] [] None
    [Elem (QName None (lit "b")) [] [] (Some (lit "Hello")) [] None;
     Elem (QName None (lit "i")) [] [] (Some (lit "world")) [] None] None.

(** ** Storyline utilities *)

Definition str_eqb (a b : str) : bool := if list_eq_dec ascii_dec a b then true else false.

(** The tag test of [{*}name]: the local name, in any namespace or none. *)
Definition is_named (l : str) (e : element) : bool := str_eqb (q_local (el_tag e)) l.

(** The descendants of an element (not the element itself) in document
    order, with their paths: [e.iter()] without [e]. *)
Fixpoint desc_go (d : element -> list (list nat * element)) (i : nat) (l : list element)
    : list (list nat * element) :=
  match l with
  | [] => []
  | c :: l' => (([i], c) :: map (fun qx => (i :: fst qx, snd qx)) (d c)) ++ desc_go d (S i) l'
  end.

Fixpoint descendants (e : element) : list (list nat * element) :=
  match e with Elem _ _ _ _ ch _ => desc_go descendants 0 ch end.

(** [e.find(".//{*}name")]: the path of the first descendant so named. *)
Definition find_desc (P : element -> bool) (e : element) : option (list nat) :=
  option_map fst (List.find (fun qx => P (snd qx)) (descendants e)).

(** [set_storyline_target_state]: [root.findall(".//{*}target")], then
    [if "state" not in tgt.attrib: tgt.set("state", state_value)]. *)
Definition mark_state (v : str) (e : element) : element :=
  if is_named (lit "target") e then
    match attr_get (lit "state") (el_attrib e) with
    | None => set_attrib (attr_set (lit "state") v (el_attrib e)) e
    | Some _ => e
    end
  else e.

Fixpoint states_below (v : str) (e : element) : element :=
  match e with
  | Elem tg a n tx ch tl =>
      Elem tg a n tx
        ((fix go (l : list element) : list element :=
            match l with
            | [] => []
            | c :: l' => mark_state v (states_below v c) :: go l'
            end) ch) tl
  end.

Definition set_storyline_target_state (root : element) (state_value : str) : element :=
  states_below state_value root.

(** [detect_version]: [root.nsmap] of the root is its own declarations. *)
Definition detect_version (root : element) : str :=
  let d := match ns_lookup None (el_nsdecl root) with Some d => d | None => [] end in
  if contains XLIFF20 d
     || str_eqb (match attr_get (lit "version") (el_attrib root) with
                 | Some v => v | None => [] end) (lit "2.0")
  then lit "2.0" else lit "1.2".

(** The [MAP] of [set_target_language]. *)
Definition LANG_MAP : list (str * str) :=
  [(lit "pt", lit "pt-BR"); (lit "en", lit "en-US"); (lit "es", lit "es-ES");
   (lit "fr", lit "fr-FR"); (lit "de", lit "de-DE"); (lit "it", lit "it-IT")].

(** [s.split("-", 1)[1]] of a string containing ["-"]. *)
Fixpoint after_dash (s : str) : str :=
  match s with
  | [] => []
  | c :: r => if chr_eqb c "-"%char then r else after_dash r
  end.

Definition file_lang_path (root : element) : option (list nat) :=
  find_desc (is_named (lit "file")) root.

(** [set_target_language] *)
Definition set_target_language (root : element) (lang_code : str) : element :=
  let v := detect_version root in
  let source_lang :=
    if str_eqb v (lit "1.2") then
      match file_lang_path root with
      | Some p => match get_at p root with
                  | Some f => attr_get (lit "source-language") (el_attrib f)
                  | None => None
                  end
      | None => None
      end
    else attr_get (lit "srcLang") (el_attrib root) in
  let target := match attr_get lang_code LANG_MAP with Some t => t | None => lang_code end in
  let target :=
    if truthy source_lang && contains (lit "-") (safe_str source_lang)
       && negb (contains (lit "-") target)
    then lang_code ++ lit "-" ++ after_dash (safe_str source_lang)
    else target in
  if str_eqb v (lit "1.2") then
    match file_lang_path root with
    | Some p => upd_at p (fun f => set_attrib (attr_set (lit "target-language") target (el_attrib f)) f) root
    | None => root
    end
  else set_attrib (attr_set (lit "trgLang") target (el_attrib root)) root.

Definition tag_view (l : list (list nat * element)) : list (list nat * qname) :=
  map (fun qx => (fst qx, el_tag (snd qx))) l.

Definition state_target : element := Elem (xq "target") [] [] (Some (lit "Oi")) [] None.
Definition state_example : element :=
  Elem (xq "xliff") [] [] None
    [Elem (xq "trans-unit") [] [] None
       [Elem (xq "target") [(lit "state", lit "final")] [] (Some (lit "A")) [] None;
        state_target] None] None.

Definition lang_file : element :=
  Elem (xq "file") [(lit "source-language", lit "en-GB")] [] None [] None.
Definition lang_example : element :=
  Elem (xq "xliff") [(lit "version", lit "1.2")] [] None
    [lang_file; Elem (xq "file") [(lit "source-language", lit "de")] [] None [] None] None.

(** ** The Storyline text functions *)

(** The [patterns] list of [protect_nontranslatable_storyline]: the same
    six regular expressions as [NONTRANS_PATTERNS]. *)
Definition storyline_patterns : list matcher :=
  [m_url; m_www; m_email; m_pct; m_ent; m_num].

(** [protect_nontranslatable_storyline] *)
Definition protect_nontranslatable_storyline (text : str) : str * list str :=
  match text with
  | [] => ([], [])
  | _ => fold_left sub_pass storyline_patterns (text, [])
  end.

(** [restore_nontranslatable_storyline]: no early return on empty [tokens]. *)
Definition restore_nontranslatable_storyline (text : str) (tokens : list str) : str :=
  restore_from (List.length tokens) tokens text.

(** [translate_text_unit_storyline] *)
Definition translate_text_unit_storyline (tr : translator) (text lang : str) : str :=
  if is_blank text then text
  else
    let '(t, toks) := protect_nontranslatable_storyline text in
    let out := match tr lang t with Some o => o | None => t end in
    restore_nontranslatable_storyline out toks.

(** One position of [re.search(r'(?:<[^>]+>|&lt;[^&]+&gt;)', s)]. *)
Definition pseudo_at (s : str) : bool :=
  match s with
  | c :: d :: r => chr_eqb c "<"%char && negb (chr_eqb d ">"%char)
                   && existsb (fun x => chr_eqb x ">"%char) r
  | _ => false
  end
  || match strip_prefix (lit "&lt;") s with
     | Some r =>
         let n := run (fun x => negb (chr_eqb x "&"%char)) r in
         negb (n =? 0) && starts_with (lit "&gt;") (skipn n r)
     | None => false
     end.

Fixpoint search_pseudo (s : str) : bool :=
  pseudo_at s || match s with [] => false | _ :: r => search_pseudo r end.

(** [_looks_like_pseudo_xml] *)
Definition looks_like_pseudo_xml (s : str) : bool :=
  match s with [] => false | _ => search_pseudo s end.

(** The double quote character. *)
Definition dquote : ascii := Ascii false true false false false true false false.

(** A match of [rf'({attr}\s*=\s*{q})([^{q}]*?)({q})'] at the start of
    [s]: its length and its group 2.  The lazy [*?] stops at the first
    [q], as a greedy [[^q]*] would. *)
Definition attr_value_at (attr : str) (q : ascii) (s : str) : option (nat * str) :=
  match strip_prefix attr s with
  | None => None
  | Some r1 =>
      let n1 := run is_space r1 in
      match skipn n1 r1 with
      | e :: r2 =>
          if chr_eqb e "="%char then
            let n2 := run is_space r2 in
            match skipn n2 r2 with
            | o :: r3 =>
                if chr_eqb o q then
                  let n3 := run (fun x => negb (chr_eqb x q)) r3 in
                  match skipn n3 r3 with
                  | c :: _ =>
                      if chr_eqb c q
                      then Some (List.length attr + n1 + 1 + n2 + 1 + n3 + 1, firstn n3 r3)
                      else None
                  | [] => None
                  end
                else None
            | [] => None
            end
          else None
      | [] => None
      end
  end.

(** [re.sub(pat, fn, s)] for a pattern that never matches the empty
    string: [m] gives the length of the match at a position and the text
    handed to [fn]. *)
Fixpoint resub (m : str -> option (nat * str)) (rep : str -> str) (fuel : nat) (s : str) : str :=
  match fuel with
  | 0 => s
  | S f =>
      match s with
      | [] => []
      | c :: r =>
          match m s with
          | Some (S k, v) => rep v ++ resub m rep f (skipn (S k) s)
          | _ => c :: resub m rep f r
          end
      end
  end.

(** [s = re.sub(pat, lambda m: f'{attr}={q}{_tx(m.group(2))}{q}', s)] *)
Definition attr_sub (tx : str -> str) (attr : str) (q : ascii) (s : str) : str :=
  resub (attr_value_at attr q) (fun v => attr ++ "="%char :: q :: tx v ++ [q]) (List.length s) s.

Definition PSEUDO_ATTRS : list str :=
  [lit "Text"; lit "Label"; lit "Alt"; lit "Title"; lit "Tooltip"; lit "Value"].

(** [_translate_attr_values_in_pseudo_xml] *)
Definition translate_attr_values_in_pseudo_xml (tr : translator) (s lang : str) : str :=
  match s with
  | [] => s
  | _ =>
      let tx := fun t => translate_text_unit_storyline tr t lang in
      fold_left (fun s attr => attr_sub tx attr "'"%char (attr_sub tx attr dquote s))
        PSEUDO_ATTRS s
  end.

(** The text or tail update of [translate_node_texts_storyline]. *)
Definition story_opt (tr : translator) (lang : str) (x : option str) : option str :=
  match x with
  | Some t =>
      if is_blank t then x
      else Some (if looks_like_pseudo_xml t
                 then translate_attr_values_in_pseudo_xml tr t lang
                 else translate_text_unit_storyline tr t lang)
  | None => None
  end.

(** [translate_node_texts_storyline] *)
Fixpoint translate_node_texts_storyline (tr : translator) (lang : str) (e : element) : element :=
  match e with
  | Elem tg a n tx ch tl =>
      Elem tg a n (story_opt tr lang tx)
        ((fix go (l : list element) : list element :=
            match l with
            | [] => []
            | c :: l' =>
                let c' := translate_node_texts_storyline tr lang c in
                set_tail (story_opt tr lang (el_tail c')) c' :: go l'
            end) ch)
        tl
  end.

(** No whitespace character right before or after an ["="]. *)
Fixpoint ws_eq_free (s : str) : bool :=
  match s with
  | c :: ((d :: _) as r) =>
      negb ((is_space c && chr_eqb d "="%char) || (chr_eqb c "="%char && is_space d))
      && ws_eq_free r
  | _ => true
  end.

(** No text or tail in the subtree (the element's own tail apart) looks
    like pseudo-XML. *)
Definition plain_opt (x : option str) : bool :=
  match x with Some t => negb (looks_like_pseudo_xml t) | None => true end.

Fixpoint no_pseudo (e : element) : bool :=
  plain_opt (el_text e)
  && forallb (fun c => no_pseudo c && plain_opt (el_tail c)) (el_children e).

Definition pseudo_example : str := lit "<Button Text='Save' Alt='Icon'>".
Definition plain_example : element :=
  Elem (QName None (lit "p")) [] [] (Some (lit "Hello 42"))
    [Elem (QName None (lit "b")) [] [] (Some (lit "world")) [] (Some (lit " again"))] None.

(** ** [process_storyline] *)

(** [if "state" not in tgt.attrib: tgt.set("state", "translated")] *)
Definition mark_translated (t : element) : element :=
  match attr_get (lit "state") (el_attrib t) with
  | Some _ => t
  | None => set_attrib (attr_set (lit "state") (lit "translated") (el_attrib t)) t
  end.

(** One iteration of the segment loop of [process_storyline]. *)
Definition process_segment_storyline (tr : translator) (lang : str) (pmap : nsmap)
    (parent : element) (k : nat) (tgt : option nat) : element :=
  let tmp := translate_node_texts_storyline tr lang (nth k (el_children parent) default_elem) in
  let '(parent1, j) := ensure_target_for_source pmap parent tgt in
  let t := nth j (el_children parent1) default_elem in
  set_children (list_set j (mark_translated (fill_target tmp t)) (el_children parent1)) parent1.

Definition segment_at_storyline (tr : translator) (lang : str) (root : element)
    (pl : pair_loc) : element :=
  upd_at (pl_parent pl)
    (fun parent => process_segment_storyline tr lang (nsmap_at (pl_parent pl) root)
                     parent (pl_src pl) (pl_tgt pl)) root.

Fixpoint process_loop_storyline (tr : translator) (lang : str) (total i : nat)
    (pairs : list pair_loc) (root : element) : element * list progress_event :=
  match pairs with
  | [] => (root, [])
  | pl :: ps =>
      let root' := segment_at_storyline tr lang root pl in
      let ev := if reports i total then [Reported i total] else [] in
      let '(r, evs) := process_loop_storyline tr lang total (S i) ps root' in
      (r, ev ++ evs)
  end.

(** [process_storyline] *)
Definition process_storyline (tr : translator) (lang : str) (root : element)
    (pairs : list pair_loc) : element * list progress_event :=
  let total := Nat.max (List.length pairs) 1 in
  let '(r, evs) := process_loop_storyline tr lang total 1 pairs root in
  let r := translate_all_notes tr r lang in
  let r := translate_accessibility_attrs tr r lang in
  let r := set_target_language r lang in
  let r := fix_spacing_around_tags r in
  (r, Started :: evs ++ [Finished]).

(** The [state] attribute of the element at path [q], if any. *)
Definition state_at (q : list nat) (root : element) : option str :=
  match get_at q root with
  | Some t => attr_get (lit "state") (el_attrib t)
  | None => None
  end.

Definition final_unit : element :=
  Elem (xq "trans-unit") [] [(None, XLIFF12)] None
    [Elem (xq "source") [] [] (Some (lit "Hello")) [] None;
     Elem (xq "target") [(lit "state", lit "final")] [] (Some (lit "Ola")) [] None]
    None.

(** Expansion of placeholders back to their original substrings. *)

(** The original substring behind the placeholder [__TK{i}__]: token [i]
    with the placeholders of earlier passes inside it restored. *)
Definition orig (toks : list str) (i : nat) : str := restore_from i toks (nth i toks []).

(** A text seen as items, with every placeholder replaced by its
    original substring. *)
Definition expand (toks : list str) (ys : list item) : str :=
  flat_map (fun y => match y with Ch c => [c] | Ph i => orig toks i end) ys.

(** Token [i] is made of items whose placeholders are those of earlier
    passes, and its expansion has no ["TK"]. *)
Definition toks_ok (toks : list str) (n : nat) : Prop :=
  forall i, i < n -> exists T, nth i toks [] = flat T /\ ph_below i T /\
                        has_TK (expand toks T) = false.

(** [str.replace] of one placeholder seen on items: [Ph j] is replaced
    by the items [T]. *)
Definition subst_ph (j : nat) (T : list item) (ys : list item) : list item :=
  flat_map (fun y => match y with
                     | Ph i => if i =? j then T else [Ph i]
                     | Ch c => [Ch c] end) ys.

(** What holds between two passes of [protect_nontranslatable] on a text
    [text0] without ["TK"]. *)
Definition shield_inv (text0 : str) (acc : str * list str) : Prop :=
  let '(t, toks) := acc in
  exists xs, t = flat xs /\ ph_below (List.length toks) xs /\
             expand toks xs = text0 /\ toks_ok toks (List.length toks).

(* ================================================================== *)
(** * Proofs *)

Section ElementInduction.
Variable P : element -> Prop.
Hypothesis HElem : forall t a n tx ch tl, Forall P ch -> P (Elem t a n tx ch tl).

Fixpoint element_ind' (e : element) : P e :=
  match e with
  | Elem t a n tx ch tl =>
      HElem t a n tx ch tl
        ((fix go (l : list element) : Forall P l :=
            match l with
            | [] => Forall_nil P
            | c :: l' => Forall_cons c (element_ind' c) (go l')
            end) ch)
  end.
End ElementInduction.

(** Equations of the tree walks, with [map] in place of the inner loops. *)
Lemma translate_node_texts_eq tr lang t a n tx ch tl :
  translate_node_texts tr lang (Elem t a n tx ch tl)
  = Elem t a n (translate_opt tr lang tx)
      (map (fun c => let c' := translate_node_texts tr lang c in
                     set_tail (translate_opt tr lang (el_tail c')) c') ch) tl.
Proof. simpl; f_equal; try (induction ch as [|c ch IH]; simpl; congruence). Qed.

Lemma notes_below_eq tr lang t a n tx ch tl :
  notes_below tr lang (Elem t a n tx ch tl)
  = Elem t a n tx (map (fun c => translate_note tr lang (notes_below tr lang c)) ch) tl.
Proof. simpl; f_equal; try (induction ch as [|c ch IH]; simpl; congruence). Qed.

Lemma a11y_eq tr lang t a n tx ch tl :
  translate_accessibility_attrs tr (Elem t a n tx ch tl) lang
  = Elem t (fold_left (a11y_one tr lang) A11Y_ATTRS a) n tx
      (map (fun c => translate_accessibility_attrs tr c lang) ch) tl.
Proof. simpl; f_equal; try (induction ch as [|c ch IH]; simpl; congruence). Qed.

Lemma fix_spacing_eq t a n tx ch tl :
  fix_spacing_around_tags (Elem t a n tx ch tl)
  = Elem t a n tx (spacing_kids None (map fix_spacing_around_tags ch)) tl.
Proof. simpl; do 2 f_equal; try (induction ch as [|c ch IH]; simpl; congruence). Qed.

Lemma shape_set_tail x e : shape (set_tail x e) = shape e.
Proof. destruct e; reflexivity. Qed.

Lemma shape_set_text x e : shape (set_text x e) = shape e.
Proof. destruct e; reflexivity. Qed.

Lemma shape_translate_node_texts tr lang e :
  shape (translate_node_texts tr lang e) = shape e.
Proof.
  induction e as [t a n tx ch tl IH] using element_ind'.
  rewrite translate_node_texts_eq; simpl; f_equal.
  rewrite map_map. apply map_ext_Forall.
  eapply Forall_impl; [|exact IH]. intros c Hc; simpl.
  rewrite shape_set_tail; exact Hc.
Qed.

(** *** The spacing fix and the note pass keep the structure *)

Lemma spacing_prev_shape p c p' c' :
  spacing_prev p c = (p', c') -> shape p' = shape p /\ shape c' = shape c.
Proof.
  unfold spacing_prev.
  destruct (truthy (el_tail p)), (truthy (el_text c)); simpl;
    try destruct (needs_space _ _); intro H; inversion H; subst;
    rewrite ?shape_set_tail, ?shape_set_text; auto.
Qed.

Lemma spacing_next_shape c n : shape (spacing_next c n) = shape c.
Proof.
  unfold spacing_next.
  destruct (truthy (el_text c) && truthy (el_text n)).
  - destruct (needs_space _ _); [apply shape_set_tail | reflexivity].
  - destruct (safe_str (el_tail c)); apply shape_set_tail.
Qed.

Lemma spacing_kids_shape ks : forall prev,
  map shape (spacing_kids prev ks) = map shape (opt_list prev ++ ks).
Proof.
  induction ks as [|cur rest IH]; intro prev.
  - destruct prev; reflexivity.
  - simpl.
    destruct prev as [p|].
    + destruct (spacing_prev p cur) as [p' c'] eqn:E.
      apply spacing_prev_shape in E as [E1 E2].
      simpl. rewrite IH. simpl. rewrite E1. f_equal. f_equal.
      destruct rest as [|n rest]; simpl;
        [ | rewrite spacing_next_shape]; exact E2.
    + simpl. rewrite IH. simpl. f_equal.
      destruct rest as [|n rest]; simpl; [ | rewrite spacing_next_shape]; reflexivity.
Qed.

Lemma shape_fix_spacing e : shape (fix_spacing_around_tags e) = shape e.
Proof.
  induction e as [t a n tx ch tl IH] using element_ind'.
  rewrite fix_spacing_eq; simpl; f_equal.
  rewrite spacing_kids_shape; simpl. rewrite map_map.
  apply map_ext_Forall. exact IH.
Qed.

Lemma shape_translate_note tr lang e : shape (translate_note tr lang e) = shape e.
Proof.
  unfold translate_note.
  destruct (list_eq_dec _ _ _); [|reflexivity].
  destruct (el_text e); [|reflexivity].
  destruct (truthy _ && _); [apply shape_set_text | reflexivity].
Qed.

Lemma shape_notes_below tr lang e : shape (notes_below tr lang e) = shape e.
Proof.
  induction e as [t a n tx ch tl IH] using element_ind'.
  rewrite notes_below_eq; simpl; f_equal.
  rewrite map_map. apply map_ext_Forall.
  eapply Forall_impl; [|exact IH]. intros c Hc. simpl.
  rewrite shape_translate_note. exact Hc.
Qed.


Lemma children_set_children c e : el_children (set_children c e) = c.
Proof. destruct e; reflexivity. Qed.

Lemma list_set_length {A} j (v : A) l : List.length (list_set j v l) = List.length l.
Proof.
  revert j; induction l as [|x l IH]; intros [|j]; simpl; auto.
Qed.

Lemma nth_error_list_set_same {A} j (v : A) l :
  j < List.length l -> nth_error (list_set j v l) j = Some v.
Proof.
  revert j; induction l as [|x l IH]; intros [|j] H; simpl in *; try lia; auto.
  apply IH; lia.
Qed.

Lemma nth_error_list_set_other {A} j i (v : A) l :
  i <> j -> nth_error (list_set j v l) i = nth_error l i.
Proof.
  revert i j; induction l as [|x l IH]; intros [|i] [|j] H; simpl; auto; try lia.
Qed.

Lemma get_at_upd_same p f : forall e,
  get_at p (upd_at p f e) = option_map f (get_at p e).
Proof.
  induction p as [|k p IH]; intro e; simpl; auto.
  destruct (nth_error (el_children e) k) as [c|] eqn:E; simpl.
  - rewrite children_set_children, nth_error_list_set_same; [apply IH|].
    apply nth_error_Some; congruence.
  - rewrite E; reflexivity.
Qed.

Lemma get_at_upd_disjoint p f : forall q e,
  disjoint_paths p q -> get_at q (upd_at p f e) = get_at q e.
Proof.
  induction p as [|k p IH]; intros q e [H1 H2].
  - exfalso; apply H1; exists q; reflexivity.
  - destruct q as [|k' q].
    + exfalso; apply H2; exists (k :: p); reflexivity.
    + simpl. destruct (nth_error (el_children e) k) as [c|] eqn:E; [|reflexivity].
      simpl. rewrite children_set_children.
      destruct (Nat.eq_dec k' k) as [->|Hne].
      * rewrite nth_error_list_set_same by (apply nth_error_Some; congruence).
        rewrite E. apply IH. split.
        -- intros [r Hr]; apply H1; exists r; simpl; congruence.
        -- intros [r Hr]; apply H2; exists r; simpl; congruence.
      * rewrite nth_error_list_set_other by exact Hne. reflexivity.
Qed.

Lemma get_at_app p r : forall e,
  get_at (p ++ r) e = match get_at p e with Some x => get_at r x | None => None end.
Proof.
  induction p as [|k p IH]; intro e; simpl; auto.
  destruct (nth_error (el_children e) k); auto.
Qed.

Lemma disjoint_paths_snoc p q j :
  disjoint_paths p q -> disjoint_paths p (q ++ [j]).
Proof.
  intros [H1 H2]; split.
  - intros [r Hr].
    destruct (list_eq_dec Nat.eq_dec p (q ++ [j])) as [->|Hne].
    + apply H2; exists [j]; reflexivity.
    + destruct r as [|x r] using rev_ind.
      * rewrite app_nil_r in Hr; subst; congruence.
      * rewrite app_assoc in Hr. apply app_inj_tail in Hr as [Hr _].
        apply H1; exists r; exact Hr.
  - intros [r Hr]; apply H2; exists ([j] ++ r). rewrite Hr, app_assoc; reflexivity.
Qed.

Lemma get_at_shape p : forall a b,
  shape a = shape b -> option_map shape (get_at p a) = option_map shape (get_at p b).
Proof.
  induction p as [|k p IH]; intros a b H; simpl; [congruence|].
  destruct a as [ta aa na xa cha la], b as [tb ab nb xb chb lb]; simpl in *.
  injection H as _ _ _ Hk.
  assert (E : nth_error (map shape cha) k = nth_error (map shape chb) k) by congruence.
  rewrite !nth_error_map in E.
  destruct (nth_error cha k), (nth_error chb k); simpl in E; try discriminate; auto.
  apply IH; congruence.
Qed.

Lemma attrib_from_shape a b : shape a = shape b -> el_attrib a = el_attrib b.
Proof. destruct a, b; simpl; congruence. Qed.

Lemma get_at_a11y tr lang p : forall e,
  get_at p (translate_accessibility_attrs tr e lang)
  = option_map (fun x => translate_accessibility_attrs tr x lang) (get_at p e).
Proof.
  induction p as [|k p IH]; intro e; simpl; auto.
  destruct e as [t a n tx ch tl]. rewrite a11y_eq; simpl.
  rewrite nth_error_map. destruct (nth_error ch k); simpl; auto.
Qed.

(** *** The segment loop *)

Lemma fst_process_loop_cons tr lang total i pl ps root :
  fst (process_loop tr lang total i (pl :: ps) root)
  = fst (process_loop tr lang total (S i) ps (segment_at tr lang root pl)).
Proof. simpl. destruct (process_loop _ _ _ _ _ _); reflexivity. Qed.

Lemma process_loop_app tr lang total l1 : forall i l2 root,
  fst (process_loop tr lang total i (l1 ++ l2) root)
  = fst (process_loop tr lang total (i + List.length l1) l2
           (fst (process_loop tr lang total i l1 root))).
Proof.
  induction l1 as [|pl l1 IH]; intros i l2 root.
  - simpl. rewrite Nat.add_0_r. reflexivity.
  - rewrite <- app_comm_cons, !fst_process_loop_cons, IH. simpl.
    rewrite Nat.add_succ_r. reflexivity.
Qed.

Lemma process_loop_frame tr lang total q pairs : forall i root,
  Forall (fun pl => disjoint_paths (pl_parent pl) q) pairs ->
  get_at q (fst (process_loop tr lang total i pairs root)) = get_at q root.
Proof.
  induction pairs as [|pl ps IH]; intros i root H; [reflexivity|].
  inversion H as [|? ? Hpl Hps]; subst.
  rewrite fst_process_loop_cons, IH by exact Hps.
  unfold segment_at. apply get_at_upd_disjoint. exact Hpl.
Qed.

Lemma fst_process tr lang root pairs :
  fst (process tr lang root pairs)
  = fix_spacing_around_tags
      (translate_accessibility_attrs tr
         (translate_all_notes tr
            (fst (process_loop tr lang (Nat.max (List.length pairs) 1) 1 pairs root)) lang)
         lang).
Proof. unfold process. destruct (process_loop _ _ _ _ _ _); reflexivity. Qed.

Lemma attrib_fill_target tmp t : el_attrib (fill_target tmp t) = [].
Proof. destruct t; reflexivity. Qed.

Lemma process_segment_existing_target tr lang pmap parent k j :
  j < List.length (el_children parent) ->
  option_map el_attrib (nth_error (el_children (process_segment tr lang pmap parent k (Some j))) j)
  = Some [].
Proof.
  intro Hj. unfold process_segment; simpl.
  rewrite children_set_children, nth_error_list_set_same by exact Hj.
  simpl. rewrite attrib_fill_target. reflexivity.
Qed.

Lemma forall_other_pairs (pairs : list pair_loc) k pl (P : pair_loc -> Prop) l1 l2 :
  pairs = l1 ++ pl :: l2 -> List.length l1 = k ->
  (forall k' pl', k' <> k -> nth_error pairs k' = Some pl' -> P pl') ->
  Forall P l1 /\ Forall P l2.
Proof.
  intros -> Hk H. split; apply Forall_forall; intros x Hx;
    apply In_nth_error in Hx as [i Hi].
  - assert (i < List.length l1) by (apply nth_error_Some; congruence).
    apply (H i); [lia|]. rewrite nth_error_app1 by lia. exact Hi.
  - apply (H (S (k + i))); [lia|].
    rewrite nth_error_app2 by lia.
    replace (S (k + i) - List.length l1) with (S i) by lia. exact Hi.
Qed.

Lemma attrib_at_shape p a b :
  shape a = shape b ->
  option_map el_attrib (get_at p a) = option_map el_attrib (get_at p b).
Proof.
  intro H. pose proof (get_at_shape p a b H) as E.
  destruct (get_at p a), (get_at p b); simpl in *; try discriminate; auto.
  f_equal. apply attrib_from_shape. congruence.
Qed.

Lemma attrib_a11y tr lang e :
  el_attrib (translate_accessibility_attrs tr e lang)
  = fold_left (a11y_one tr lang) A11Y_ATTRS (el_attrib e).
Proof. destruct e. rewrite a11y_eq. reflexivity. Qed.

(** C10: in the Rise [process], a segment whose target element already
    exists loses every attribute of that target: [tgt.clear()] removes
    them and nothing later adds one back, so the target at the same place
    in the output has no attribute at all.  The other segments of the
    document are in other units (their parent paths are disjoint from
    this one). *)
Theorem process_clears_existing_target_attributes tr lang root pairs k pl parent j :
  nth_error pairs k = Some pl ->
  pl_tgt pl = Some j ->
  get_at (pl_parent pl) root = Some parent ->
  j < List.length (el_children parent) ->
  (forall k' pl', k' <> k -> nth_error pairs k' = Some pl' ->
                  disjoint_paths (pl_parent pl') (pl_parent pl)) ->
  option_map el_attrib (get_at (pl_parent pl ++ [j]) (fst (process tr lang root pairs)))
  = Some [].
Proof.
  intros Hk Ht Hp Hj Hdis.
  destruct (nth_error_split pairs k Hk) as [l1 [l2 [Heq Hlen]]].
  destruct (forall_other_pairs pairs k pl
              (fun pl' => disjoint_paths (pl_parent pl') (pl_parent pl)) l1 l2 Heq Hlen Hdis)
    as [F1 F2].
  rewrite fst_process.
  rewrite attrib_at_shape with (b := translate_accessibility_attrs tr
      (translate_all_notes tr (fst (process_loop tr lang (Nat.max (List.length pairs) 1) 1 pairs root)) lang) lang)
    by apply shape_fix_spacing.
  rewrite get_at_a11y.
  pose proof (attrib_at_shape (pl_parent pl ++ [j])
                (translate_all_notes tr (fst (process_loop tr lang (Nat.max (List.length pairs) 1) 1 pairs root)) lang)
                (fst (process_loop tr lang (Nat.max (List.length pairs) 1) 1 pairs root))
                (shape_notes_below tr lang _)) as En.
  destruct (get_at (pl_parent pl ++ [j])
              (translate_all_notes tr (fst (process_loop tr lang (Nat.max (List.length pairs) 1) 1 pairs root)) lang))
    as [T|] eqn:ET; simpl in *.
  2:{ rewrite Heq, process_loop_app, fst_process_loop_cons, process_loop_frame in En.
      2:{ eapply Forall_impl; [|exact F2]. intros x Hx. apply disjoint_paths_snoc, Hx. }
      unfold segment_at in En. rewrite get_at_app, get_at_upd_same, process_loop_frame in En
        by exact F1.
      rewrite Hp in En; simpl in En. rewrite Ht in En.
      pose proof (process_segment_existing_target tr lang
                    (nsmap_at (pl_parent pl) (fst (process_loop tr lang (Nat.max (List.length pairs) 1) 1 l1 root)))
                    parent (pl_src pl) j Hj) as Es.
      destruct (nth_error _ j); simpl in *; discriminate. }
  rewrite attrib_a11y.
  assert (HT : el_attrib T = []).
  { rewrite Heq, process_loop_app, fst_process_loop_cons, process_loop_frame in En.
    2:{ eapply Forall_impl; [|exact F2]. intros x Hx. apply disjoint_paths_snoc, Hx. }
    unfold segment_at in En. rewrite get_at_app, get_at_upd_same, process_loop_frame in En
      by exact F1.
    rewrite Hp in En; simpl in En. rewrite Ht in En.
    pose proof (process_segment_existing_target tr lang
                  (nsmap_at (pl_parent pl) (fst (process_loop tr lang (Nat.max (List.length pairs) 1) 1 l1 root)))
                  parent (pl_src pl) j Hj) as Es.
    destruct (nth_error _ j); simpl in *; congruence. }
  rewrite HT. reflexivity.
Qed.

Lemma process_clears_existing_target_attributes_witness :
  option_map el_attrib
    (get_at [1] (fst (process echo_tr (lit "pt") state_unit state_pairs)))
  = Some [].
Proof.
  apply (process_clears_existing_target_attributes echo_tr (lit "pt") state_unit
           state_pairs 0 (PairLoc [] 0 (Some 1)) state_unit 1).
  - reflexivity.
  - reflexivity.
  - reflexivity.
  - simpl. lia.
  - intros k' pl' Hk' E. destruct k' as [|[|k']]; [contradiction|discriminate|discriminate].
Defined.

Lemma kid_view_shape e : kid_view e = skel_kids (shape e).
Proof.
  destruct e as [t a n tx ch tl]; unfold kid_view; simpl.
  rewrite map_map. apply map_ext. intros [? ? ? ? ? ?]; reflexivity.
Qed.

Lemma kid_view_a11y tr lang e :
  kid_view (translate_accessibility_attrs tr e lang)
  = map (fun '(t, a) => (t, fold_left (a11y_one tr lang) A11Y_ATTRS a)) (kid_view e).
Proof.
  destruct e as [t a n tx ch tl]; rewrite a11y_eq; unfold kid_view; simpl.
  rewrite !map_map. apply map_ext. intro c. rewrite attrib_a11y. destruct c; reflexivity.
Qed.

Lemma kid_view_children_shape a b :
  map shape (el_children a) = map shape (el_children b) -> kid_view a = kid_view b.
Proof.
  intro H. rewrite (kid_view_shape a), (kid_view_shape b).
  destruct a as [ta aa na xa cha la], b as [tb ab nb xb chb lb]; simpl in *.
  rewrite H. reflexivity.
Qed.

Lemma fill_target_kids_shape tmp t :
  map shape (el_children (fill_target tmp t)) = map shape (el_children tmp).
Proof. destruct t as [tg a n tx ch tl]. reflexivity. Qed.

(** C1: translating an element as [process] does ([deepcopy] and
    [translate_node_texts]) leaves its structure unchanged: the children,
    their nesting, tags, attributes and namespace declarations are the
    same, only [.text] and [.tail] may differ.  And in the spec's
    scenario, whatever the translator returns, the target of the output
    holds the [g] child with its attribute [id="1"]. *)
Theorem translate_preserves_structure :
  (forall tr lang e, shape (translate_node_texts tr lang e) = shape e) /\
  (forall tr, exists T,
      get_at [1] (fst (process tr (lit "en") click_unit click_pairs)) = Some T /\
      kid_view T = [(xq "g", [(lit "id", lit "1")])]).
Proof.
  split; [exact shape_translate_node_texts|].
  intro tr. rewrite fst_process.
  set (R := fst (process_loop tr (lit "en") _ 1 click_pairs click_unit)).
  assert (HR : option_map kid_view (get_at [1] R)
               = Some [(xq "g", [(lit "id", lit "1")])]).
  { unfold R. reflexivity. }
  set (N := translate_all_notes tr R (lit "en")).
  assert (HN : option_map kid_view (get_at [1] N)
               = Some [(xq "g", [(lit "id", lit "1")])]).
  { rewrite <- HR. unfold N, translate_all_notes.
    pose proof (get_at_shape [1] _ _ (shape_notes_below tr (lit "en") R)) as E.
    destruct (get_at [1] (notes_below _ _ R)), (get_at [1] R); simpl in *;
      try discriminate; injection E as E; rewrite !kid_view_shape, E; reflexivity. }
  pose proof (get_at_shape [1] _ _ (shape_fix_spacing
                (translate_accessibility_attrs tr N (lit "en")))) as E.
  rewrite get_at_a11y in E.
  destruct (get_at [1] N) as [M|]; [|discriminate]. cbn [option_map] in HN, E.
  destruct (get_at [1] (fix_spacing_around_tags _)) as [T|]; [|discriminate].
  exists T; split; [reflexivity|].
  injection HN as HN. injection E as E.
  rewrite kid_view_shape, E, <- kid_view_shape, kid_view_a11y, HN. reflexivity.
Qed.

(** ** Blank texts *)

Ltac space_cases c H :=
  destruct c as [[] [] [] [] [] [] [] []]; try discriminate H; reflexivity.

Lemma matchers_fail_on_space m : In m NONTRANS_PATTERNS ->
  forall prev c r, is_space c = true -> m prev (c :: r) = None.
Proof.
  intro Hm; simpl in Hm; intuition subst; intros prev c r H.
  - unfold m_url; space_cases c H.
  - unfold m_www; space_cases c H.
  - unfold m_email; space_cases c H.
  - unfold m_pct; space_cases c H.
  - unfold m_ent; space_cases c H.
  - unfold m_num. destruct (negb (is_word_opt prev)); [|reflexivity].
    space_cases c H.
Qed.

Lemma sub_scan_blank m :
  (forall prev c r, is_space c = true -> m prev (c :: r) = None) ->
  forall fuel prev s idx, is_blank s = true -> sub_scan m fuel prev s idx = (s, []).
Proof.
  intros Hm fuel; induction fuel as [|f IH]; intros prev s idx Hs; [reflexivity|].
  destruct s as [|c r]; [reflexivity|].
  simpl in Hs. apply andb_prop in Hs as [Hc Hr].
  simpl. rewrite (Hm prev c r Hc), (IH (Some c) r idx Hr). reflexivity.
Qed.

Lemma passes_blank ms s : Forall (fun m => In m NONTRANS_PATTERNS) ms ->
  is_blank s = true -> fold_left sub_pass ms (s, []) = (s, []).
Proof.
  intros Hms Hs. induction Hms as [|m ms Hm Hms IH]; [reflexivity|].
  simpl. rewrite (sub_scan_blank m (matchers_fail_on_space m Hm)); [|exact Hs].
  exact IH.
Qed.

(** C6: an empty or whitespace-only text comes back unchanged from
    [translate_text_unit], whatever the translator does (so no result of
    a translation call is used), and [protect_nontranslatable] finds no
    token in it. *)
Theorem blank_text_unchanged text : is_blank text = true ->
  (forall tr lang, translate_text_unit tr text lang = text) /\
    protect_nontranslatable text = (text, []).
Proof.
  intro H. split.
  - intros tr lang. unfold translate_text_unit. rewrite H. reflexivity.
  - destruct text as [|c r]; [reflexivity|].
    apply passes_blank; [|exact H].
    repeat constructor; simpl; tauto.
Qed.

Lemma blank_text_unchanged_witness :
  (forall tr lang, translate_text_unit tr (lit " 	") lang = lit " 	") /\
    protect_nontranslatable (lit " 	") = (lit " 	", []).
Proof. apply blank_text_unchanged. reflexivity. Defined.

(** ** Progress reports *)

Lemma snd_process_loop tr lang total pairs : forall i root,
  snd (process_loop tr lang total i pairs root)
  = map (fun i => Reported i total) (filter (fun i => reports i total) (seq i (List.length pairs))).
Proof.
  induction pairs as [|pl ps IH]; intros i root; [reflexivity|].
  simpl. specialize (IH (S i) (segment_at tr lang root pl)).
  destruct (process_loop _ _ _ _ _ _) as [r evs]. simpl in *.
  destruct (reports i total); simpl; congruence.
Qed.

Lemma snd_process tr lang root pairs :
  snd (process tr lang root pairs)
  = Started :: map (fun i => Reported i (Nat.max (List.length pairs) 1))
                   (filter (fun i => reports i (Nat.max (List.length pairs) 1))
                      (seq 1 (List.length pairs))) ++ [Finished].
Proof.
  unfold process. rewrite <- (snd_process_loop tr lang _ pairs 1 root).
  destruct (process_loop _ _ _ _ _ _); reflexivity.
Qed.

(** C8: [process] reports progress only for the segments [i] with
    [i == 1 or i % 10 == 0 or i == total]: its events are [Started], the
    reports of those [i] in increasing order, then [Finished]; the report
    of segment [i] of [n] is there exactly when [1 <= i <= n] and [i] is
    the first, a multiple of ten, or the last. *)
Theorem process_progress_reports tr lang root pairs :
  snd (process tr lang root pairs)
  = Started :: map (fun i => Reported i (Nat.max (List.length pairs) 1))
                   (filter (fun i => reports i (Nat.max (List.length pairs) 1))
                      (seq 1 (List.length pairs))) ++ [Finished]
  /\ forall i t, In (Reported i t) (snd (process tr lang root pairs)) <->
       t = Nat.max (List.length pairs) 1 /\ 1 <= i <= List.length pairs /\
    (i = 1 \/ i mod 10 = 0 \/ i = List.length pairs).
Proof.
  split; [apply snd_process|].
  intros i t. rewrite snd_process. cbn [In].
  rewrite in_app_iff, in_map_iff. cbn [In].
  split.
  - intros [H|[[x [Ex Hx]]|[H|H]]]; try discriminate; try contradiction.
    injection Ex as -> ->. apply filter_In in Hx as [Hx Hr].
    apply in_seq in Hx. unfold reports in Hr.
    rewrite Nat.max_l in * by lia.
    repeat split; try lia.
    apply orb_true_iff in Hr as [Hr|Hr]; [apply orb_true_iff in Hr as [Hr|Hr]|];
      apply Nat.eqb_eq in Hr; [left|right; left|right; right]; exact Hr.
  - intros [-> [Hi Hr]]. rewrite Nat.max_l by lia.
    right. left. exists i. split; [reflexivity|].
    apply filter_In. split; [apply in_seq; lia|].
    unfold reports. apply orb_true_iff.
    destruct Hr as [Hr|[Hr|Hr]].
    + left. apply orb_true_iff. left. apply Nat.eqb_eq. exact Hr.
    + left. apply orb_true_iff. right. apply Nat.eqb_eq. exact Hr.
    + right. apply Nat.eqb_eq. lia.
Qed.

(** For three segments, segment 2 is not reported. *)
Lemma process_progress_three_segments :
  snd (process echo_tr (lit "pt") click_unit
         [PairLoc [] 0 None; PairLoc [] 0 None; PairLoc [] 0 None])
  = [Started; Reported 1 3; Reported 3 3; Finished].
Proof. rewrite snd_process. reflexivity. Qed.

(** ** Target creation *)

(** C3: for a source without a target, [ensure_target_for_source] adds
    exactly one new, empty [target] element as the LAST child of the
    source's parent (so right after the source only when the source is
    the parent's last child), in the parent's default namespace when it
    has a non-empty one and in the XLIFF 1.2 namespace otherwise; the
    namespace of the source plays no part.  The new target declares
    [xmlns:ns0] for that namespace unless the namespace is already bound
    in the parent's scope. *)
Theorem ensure_target_appends_last pmap parent k src :
  nth_error (el_children parent) k = Some src ->
  let uri := match ns_lookup None pmap with
             | Some ((_ :: _) as u) => u
             | _ => XLIFF12
             end in
  let '(p', j) := ensure_target_for_source pmap parent None in
  exists t,
    el_children p' = el_children parent ++ [t] /\
    p' = set_children (el_children parent ++ [t]) parent /\
    j = List.length (el_children parent) /\
    nth_error (el_children p') j = Some t /\
    (j = S k <-> S k = List.length (el_children parent)) /\
    el_tag t = QName (Some uri) (lit "target") /\
    el_attrib t = [] /\
    el_nsdecl t = (if href_in_scope uri pmap then [] else [(Some (lit "ns0"), uri)]) /\
    el_text t = None /\ el_children t = [] /\ el_tail t = None.
Proof.
  intro Hk. simpl.
  eexists. repeat split.
  - destruct parent; reflexivity.
  - destruct parent; simpl. rewrite nth_error_app2, Nat.sub_diag; reflexivity.
  - intro H. exact (eq_sym H).
  - intro H. exact (eq_sym H).
Qed.

(** A unit with no namespace in scope: the target is in the 1.2
    namespace, declared as [ns0], and follows the source. *)
Lemma ensure_target_appends_last_witness :
  let '(p', j) := ensure_target_for_source [] plain_unit None in
  exists t,
    el_children p' = el_children plain_unit ++ [t] /\
    p' = set_children (el_children plain_unit ++ [t]) plain_unit /\
    j = List.length (el_children plain_unit) /\
    nth_error (el_children p') j = Some t /\
    (j = S 0 <-> S 0 = List.length (el_children plain_unit)) /\
    el_tag t = QName (Some XLIFF12) (lit "target") /\
    el_attrib t = [] /\
    el_nsdecl t = [(Some (lit "ns0"), XLIFF12)] /\
    el_text t = None /\ el_children t = [] /\ el_tail t = None.
Proof.
  apply (ensure_target_appends_last [] plain_unit 0
           (Elem (QName None (lit "source")) [] [] (Some (lit "Hello")) [] None)).
  reflexivity.
Defined.

(** The target does not follow a source that has a later sibling, and a
    source in a namespace bound to a prefix gets a target in the 1.2
    namespace. *)
Lemma ensure_target_not_next_nor_same_ns :
  el_children (fst (ensure_target_for_source [(None, XLIFF12)] unit_with_note None))
  = el_children unit_with_note
    ++ [Elem (xq "target") [] [] None [] None] /\
    option_map el_tag
    (nth_error (el_children (fst (ensure_target_for_source nsmap20 segment20 None))) 1)
  = Some (QName (Some XLIFF12) (lit "target")) /\
    option_map el_tag (nth_error (el_children segment20) 0) = Some (q20 "source").
Proof. repeat split; reflexivity. Qed.

(** ** Where the matches of [NONTRANS_PATTERNS] end *)

Lemma chr_eqb_true a b : chr_eqb a b = true -> a = b.
Proof. unfold chr_eqb. apply Ascii.eqb_eq. Qed.

Lemma opt_chr_eqb_true c d : opt_chr_eqb c d = true -> c = Some d.
Proof. destruct c as [c|]; simpl; [intro H; f_equal; apply chr_eqb_true in H; congruence|discriminate]. Qed.

Lemma strip_prefix_Some p : forall s r, strip_prefix p s = Some r -> s = p ++ r.
Proof.
  induction p as [|a p IH]; intros s r H; simpl in H; [simpl; congruence|].
  destruct s as [|b s]; [discriminate|].
  destruct (chr_eqb a b) eqn:E; [|discriminate].
  apply chr_eqb_true in E. subst. simpl. f_equal. apply IH. exact H.
Qed.

Lemma run_le p s : run p s <= List.length s.
Proof. induction s as [|c s IH]; simpl; [lia|]. destruct (p c); simpl; lia. Qed.

Lemma run_stop p s c : char_at s (run p s) = Some c -> p c = false.
Proof.
  unfold char_at. induction s as [|d s IH]; simpl; [discriminate|].
  destruct (p d) eqn:E; simpl; [exact IH|congruence].
Qed.

Lemma run_app_all p u x : forallb p u = true -> run p (u ++ x) = List.length u + run p x.
Proof.
  induction u as [|c u IH]; simpl; [reflexivity|].
  intro H. apply andb_prop in H as [Hc Hu]. rewrite Hc, IH by exact Hu. reflexivity.
Qed.

Lemma char_at_Some_lt s n c : char_at s n = Some c -> n < List.length s.
Proof. unfold char_at. intro H. apply nth_error_Some. congruence. Qed.

Lemma space_not_word c : is_space c = true -> is_word c = false.
Proof. destruct c as [[] [] [] [] [] [] [] []]; first [discriminate | reflexivity]. Qed.

Lemma word_opt_stop s n :
  (forall c, char_at s n = Some c -> is_word c = false) -> is_word_opt (char_at s n) = false.
Proof. destruct (char_at s n) as [c|] eqn:E; simpl; auto. Qed.

Lemma nonempty_run_Some k n x : nonempty_run k n = Some x -> x = k + n.
Proof. unfold nonempty_run. destruct (n =? 0); congruence. Qed.

Lemma end_run_nonspace p s r k :
  strip_prefix p s = Some r -> S k = List.length p + run is_nonspace r ->
  S k <= List.length s /\ is_word_opt (char_at s (S k)) = false.
Proof.
  intros E H. apply strip_prefix_Some in E. subst s.
  pose proof (run_le is_nonspace r). rewrite length_app. split; [lia|].
  apply word_opt_stop. intros c Hc. unfold char_at in Hc.
  rewrite H, nth_error_app2, Nat.add_comm, Nat.add_sub in Hc by lia.
  apply run_stop in Hc. unfold is_nonspace in Hc. apply space_not_word.
  destruct (is_space c); [reflexivity|discriminate].
Qed.

Lemma m_url_ends_well : match_ends_well m_url.
Proof.
  intros prev s k H. unfold m_url in H.
  assert (G : forall p r, strip_prefix p s = Some r ->
             nonempty_run (List.length p) (run is_nonspace r) = Some (S k) ->
             S k <= List.length s /\
             (is_word_opt (char_at s k) && is_word_opt (char_at s (S k)))%bool = false).
  { intros p r E1 E2. apply nonempty_run_Some in E2.
    destruct (end_run_nonspace p s r k E1 E2) as [L W].
    rewrite W, andb_false_r. auto. }
  destruct (strip_prefix (lit "https://") s) as [r|] eqn:E1.
  - destruct (nonempty_run 8 (run is_nonspace r)) as [n|] eqn:E2.
    + injection H as ->. exact (G _ r E1 E2).
    + destruct (strip_prefix (lit "http://") s) as [r'|] eqn:E3; [|discriminate].
      exact (G _ r' E3 H).
  - destruct (strip_prefix (lit "http://") s) as [r'|] eqn:E3; [|discriminate].
    exact (G _ r' E3 H).
Qed.

Lemma m_www_ends_well : match_ends_well m_www.
Proof.
  intros prev s k H. unfold m_www in H.
  destruct (strip_prefix (lit "www.") s) as [r|] eqn:E1; [|discriminate].
  apply nonempty_run_Some in H.
  destruct (end_run_nonspace (lit "www.") s r k E1 H) as [L W].
  rewrite W, andb_false_r. auto.
Qed.

Lemma email_down_Some r k n : email_down r k = Some n ->
  exists j, n = S j + run is_word (skipn (S j) r) /\ is_word_opt (char_at r (S j)) = true.
Proof.
  induction k as [|k IH]; intro H; [discriminate|].
  change (email_down r (S k)) with
    (if opt_chr_eqb (char_at r (S k)) "."%char && is_word_opt (char_at r (S (S k)))
     then Some (S (S k) + run is_word (skipn (S (S k)) r)) else email_down r k) in H.
  destruct (opt_chr_eqb (char_at r (S k)) "."%char && is_word_opt (char_at r (S (S k)))) eqn:E.
  - injection H as <-. exists (S k). apply andb_prop in E as [_ E]. auto.
  - exact (IH H).
Qed.

Lemma m_email_ends_well : match_ends_well m_email.
Proof.
  intros prev s k H. unfold m_email in H.
  destruct (run is_mailc s =? 0) eqn:E0; [discriminate|].
  destruct (opt_chr_eqb (char_at s (run is_mailc s)) "@"%char) eqn:E1; [|discriminate].
  destruct (email_tail (skipn (S (run is_mailc s)) s)) as [n|] eqn:E2; [|discriminate].
  injection H as H. set (n1 := run is_mailc s) in *.
  unfold email_tail in E2. apply email_down_Some in E2 as [j [Hn Hj]].
  set (r := skipn (S n1) s) in *.
  apply opt_chr_eqb_true, char_at_Some_lt in E1.
  assert (Hj' : S j < List.length r).
  { destruct (char_at r (S j)) as [c|] eqn:Ec; [|discriminate].
    exact (char_at_Some_lt _ _ _ Ec). }
  pose proof (run_le is_word (skipn (S j) r)) as Hrun.
  rewrite length_skipn in Hrun.
  assert (Lr : List.length r = List.length s - S n1) by apply length_skipn.
  split; [lia|].
  assert (E : char_at s (S k) = char_at (skipn (S j) r) (run is_word (skipn (S j) r))).
  { assert (Hr : forall x, nth_error r x = nth_error s (S n1 + x))
      by (intro x; unfold r; apply nth_error_skipn).
    unfold char_at. rewrite nth_error_skipn, Hr. f_equal. lia. }
  rewrite E. rewrite (word_opt_stop _ _ (fun c Hc => run_stop _ _ _ Hc)).
  apply andb_false_r.
Qed.

Lemma m_pct_ends_well : match_ends_well m_pct.
Proof.
  intros prev s k H. unfold m_pct in H.
  destruct s as [|c r]; [discriminate|].
  destruct (chr_eqb c "%"%char); [|discriminate].
  destruct (run not_pct_nl r =? 0); [discriminate|].
  destruct (opt_chr_eqb (char_at r (run not_pct_nl r)) "%"%char) eqn:E; [|discriminate].
  injection H as <-. apply opt_chr_eqb_true in E.
  pose proof (char_at_Some_lt _ _ _ E). simpl. split; [lia|].
  change (char_at (c :: r) (S (run not_pct_nl r))) with (char_at r (run not_pct_nl r)).
  rewrite E. reflexivity.
Qed.

Lemma ent_ends_semi r x :
  (exists o, ent_hex r o = Some x) \/ ent_name r = Some x ->
  exists e, x = S (S e) /\ char_at r e = Some ";"%char.
Proof.
  intros [[o H]|H].
  - unfold ent_hex in H.
    destruct ((0 <? run is_hex (skipn o r)) && opt_chr_eqb (char_at r (o + run is_hex (skipn o r))) ";"%char) eqn:E; [|discriminate].
    injection H as <-. apply andb_prop in E as [_ E]. apply opt_chr_eqb_true in E.
    exists (o + run is_hex (skipn o r)). split; [lia|exact E].
  - unfold ent_name in H.
    destruct ((0 <? run is_az r) && opt_chr_eqb (char_at r (run is_az r)) ";"%char) eqn:E; [|discriminate].
    injection H as <-. apply andb_prop in E as [_ E]. apply opt_chr_eqb_true in E.
    exists (run is_az r). split; [lia|exact E].
Qed.

Lemma m_ent_ends_well : match_ends_well m_ent.
Proof.
  intros prev s k H. unfold m_ent in H.
  destruct s as [|c r]; [discriminate|].
  destruct (chr_eqb c "&"%char); [|discriminate].
  assert (Hx : exists e, S k = S (S e) /\ char_at r e = Some ";"%char).
  { apply ent_ends_semi.
    destruct r as [|d r'];
      [destruct (ent_hex [] 0) eqn:E; [left; exists 0; congruence|right; exact H]|].
    destruct (in_chars "#xX" d).
    - destruct (ent_hex (d :: r') 1) eqn:E1; [left; exists 1; congruence|].
      destruct (ent_hex (d :: r') 0) eqn:E0; [left; exists 0; congruence|right; exact H].
    - destruct (ent_hex (d :: r') 0) eqn:E0; [left; exists 0; congruence|right; exact H]. }
  destruct Hx as [e [He Ee]]. injection He as ->.
  pose proof (char_at_Some_lt _ _ _ Ee). simpl. split; [lia|].
  change (char_at (c :: r) (S e)) with (char_at r e). rewrite Ee. reflexivity.
Qed.

Lemma num_down_Some c r e n : num_down c r e = Some n ->
  exists e', n = S e' /\ e' <= e /\ num_boundary c r e' = true.
Proof.
  induction e as [|e IH]; simpl; destruct (num_boundary c r _) eqn:B; intro H.
  - injection H as <-. exists 0. auto.
  - discriminate.
  - injection H as <-. exists (S e). auto.
  - destruct (IH H) as [e' [? [? ?]]]. exists e'. repeat split; auto; lia.
Qed.

Lemma m_num_ends_well : match_ends_well m_num.
Proof.
  intros prev s k H. unfold m_num in H.
  destruct s as [|c r]; [discriminate|].
  destruct (negb (is_word_opt prev) && is_dec c); [|discriminate].
  apply num_down_Some in H as [e [He [Hle B]]]. injection He as ->.
  pose proof (run_le is_numc r). simpl. split; [lia|].
  unfold num_boundary in B.
  assert (E : char_at (c :: r) e = match e with 0 => Some c | S e' => char_at r e' end)
    by (destruct e; reflexivity).
  change (char_at (c :: r) (S e)) with (char_at r e). rewrite E.
  destruct (is_word_opt _), (is_word_opt (char_at r e)); first [reflexivity | discriminate].
Qed.

Lemma patterns_end_well m : In m NONTRANS_PATTERNS -> match_ends_well m.
Proof.
  simpl. intuition subst;
    auto using m_url_ends_well, m_www_ends_well, m_email_ends_well,
      m_pct_ends_well, m_ent_ends_well, m_num_ends_well.
Qed.

(** ** One pass of [re.sub] *)

Lemma sub_scan_weave m : match_ends_well m ->
  forall fuel prev s idx, List.length s <= fuel ->
  exists g0 ps,
    s = g0 ++ woven ps /\
    sub_scan m fuel prev s idx = (g0 ++ woven_ph idx ps, map fst ps) /\
    Forall (fun p => fst p <> []) ps.
Proof.
  intros Hm fuel. induction fuel as [|f IH]; intros prev s idx Hs.
  - destruct s; [|simpl in Hs; lia]. exists [], []. auto.
  - destruct s as [|c r]; [exists [], []; auto|]. simpl in Hs.
    simpl sub_scan.
    destruct (m prev (c :: r)) as [[|k]|] eqn:Em.
    2: { destruct (Hm _ _ _ Em) as [Hk _]. simpl in Hk.
         destruct (IH (char_at (c :: r) k) (skipn (S k) (c :: r)) (S idx)) as [g0 [ps [E1 [E2 E3]]]].
         { rewrite length_skipn. simpl. lia. }
         change (skipn (S k) (c :: r)) with (skipn k r) in E1, E2.
         rewrite E2. exists [], ((firstn (S k) (c :: r), g0) :: ps). simpl.
         repeat split.
         - f_equal. rewrite <- E1. symmetry. apply firstn_skipn.
         - constructor; [simpl; discriminate|exact E3]. }
    all: destruct (IH (Some c) r idx) as [g0 [ps [E1 [E2 E3]]]]; [lia|];
         rewrite E2; exists (c :: g0), ps; simpl; rewrite <- E1; auto.
Qed.

(** C7: [protect_nontranslatable] runs the six patterns of
    [NONTRANS_PATTERNS] one after the other, each over the text left by
    the previous ones ([fold_left sub_pass]).  Within one pass the
    matches are found left to right and replaced by placeholders with
    consecutive fresh indices, starting at the current number of tokens,
    and the matched substrings are appended to [tokens] in that order:
    the text is a leading gap followed by token/gap pairs, the new text
    has [placeholder (len(tokens) + n)] in place of the [n]-th token of
    the pass, and the new tokens are the tokens of the pass in order. *)
Theorem protect_pass_left_to_right m text tokens :
  In m NONTRANS_PATTERNS ->
  exists g0 ps,
    text = g0 ++ woven ps /\
    sub_pass (text, tokens) m
    = (g0 ++ woven_ph (List.length tokens) ps, tokens ++ map fst ps) /\
    Forall (fun p => fst p <> []) ps.
Proof.
  intro Hm. unfold sub_pass.
  destruct (sub_scan_weave m (patterns_end_well m Hm) (List.length text) None text
              (List.length tokens) (le_n _)) as [g0 [ps [E1 [E2 E3]]]].
  rewrite E2. exists g0, ps. auto.
Qed.

Lemma protect_pass_left_to_right_witness :
  exists g0 ps,
    lit "5 http://a.b" = g0 ++ woven ps /\
    sub_pass (lit "5 http://a.b", []) m_url
    = (g0 ++ woven_ph (List.length (@nil str)) ps, [] ++ map fst ps) /\
    Forall (fun p => fst p <> []) ps.
Proof. apply protect_pass_left_to_right. simpl. auto. Defined.

(** The tokens are ordered by pattern first: in ["5 http://a.b"] the
    URL, found by the first pass, is token 0 and the number before it is
    token 1. *)
Lemma protect_tokens_by_pattern :
  protect_nontranslatable (lit "5 http://a.b")
  = (lit "__TK1__ __TK0__", [lit "http://a.b"; lit "5"]).
Proof. reflexivity. Qed.

(** ** Protect then restore (C9) *)

Lemma chr_eqb_refl c : chr_eqb c c = true.
Proof. unfold chr_eqb. apply Ascii.eqb_refl. Qed.

Lemma dec_val_acc_app v a b : dec_val_acc v (a ++ b) = dec_val_acc (dec_val_acc v a) b.
Proof. revert v. induction a as [|c a IH]; intro v; simpl; auto. Qed.

Lemma dec_val_acc_shift v s : dec_val_acc v s = v * 10 ^ List.length s + dec_val_acc 0 s.
Proof.
  revert v. induction s as [|c s IH]; intro v; simpl; [lia|].
  rewrite IH, (IH (nat_of_ascii c - 48)). nia.
Qed.

Lemma dec_aux_spec f n acc : n < f ->
  dec_val (dec_aux f n acc) = n * 10 ^ List.length acc + dec_val acc /\
  (forallb is_dec acc = true -> forallb is_dec (dec_aux f n acc) = true).
Proof.
  revert n acc. induction f as [|f IH]; intros n acc Hn; [lia|].
  assert (Hd : nat_of_ascii (ascii_of_nat (48 + n mod 10)) = 48 + n mod 10).
  { apply nat_ascii_embedding. pose proof (Nat.mod_upper_bound n 10). lia. }
  assert (Hc : is_dec (ascii_of_nat (48 + n mod 10)) = true).
  { unfold is_dec, between, code. rewrite Hd.
    pose proof (Nat.mod_upper_bound n 10).
    apply andb_true_intro; split; apply Nat.leb_le; lia. }
  assert (Hv : dec_val (ascii_of_nat (48 + n mod 10) :: acc)
               = (n mod 10) * 10 ^ List.length acc + dec_val acc).
  { unfold dec_val. cbn [dec_val_acc]. rewrite Hd, dec_val_acc_shift. f_equal. lia. }
  cbn [dec_aux]. destruct (n <? 10) eqn:E.
  - apply Nat.ltb_lt in E. rewrite Nat.mod_small in * by lia. split; [exact Hv|].
    intro H. cbn [forallb]. rewrite Hc, H. reflexivity.
  - apply Nat.ltb_ge in E.
    destruct (IH (n / 10) (ascii_of_nat (48 + n mod 10) :: acc)) as [IH1 IH2].
    { assert (n / 10 < n) by (apply Nat.div_lt; lia). lia. }
    split.
    + rewrite IH1, Hv. cbn [List.length]. rewrite Nat.pow_succ_r'.
      pose proof (Nat.div_mod n 10). nia.
    + intro H. apply IH2. cbn [forallb]. rewrite Hc, H. reflexivity.
Qed.

Lemma dec_val_dec n : dec_val (dec n) = n.
Proof. unfold dec. destruct (dec_aux_spec (S n) n [] (Nat.lt_succ_diag_r n)) as [H _].
  rewrite H. cbn [List.length Nat.pow]. unfold dec_val. cbn [dec_val_acc]. lia. Qed.

Lemma dec_digits n : forallb is_dec (dec n) = true.
Proof. unfold dec. apply (dec_aux_spec (S n) n [] (Nat.lt_succ_diag_r n)). reflexivity. Qed.

Lemma dec_inj i j : dec i = dec j -> i = j.
Proof. intro H. rewrite <- (dec_val_dec i), <- (dec_val_dec j), H. reflexivity. Qed.

Lemma placeholder_eq i : placeholder i = "_"%char :: "_"%char :: "T"%char :: "K"%char :: dec i ++ lit "__".
Proof. reflexivity. Qed.

Lemma is_dec_phc c : is_dec c = true -> is_phc c = true.
Proof. unfold is_phc. intro H. rewrite H. apply orb_true_r. Qed.

Lemma placeholder_phc i : forallb is_phc (placeholder i) = true.
Proof.
  rewrite placeholder_eq. simpl. rewrite forallb_app. rewrite andb_true_iff. split.
  - pose proof (dec_digits i) as H. induction (dec i) as [|c s IH]; simpl in *; auto.
    apply andb_true_iff in H as [H1 H2]. rewrite (is_dec_phc _ H1). auto.
  - reflexivity.
Qed.

Lemma phc_word c : is_phc c = true -> is_word c = true.
Proof. destruct c as [[] [] [] [] [] [] [] []]; first [discriminate | reflexivity]. Qed.

Lemma word_mailc c : is_word c = true -> is_mailc c = true.
Proof. unfold is_mailc. intro H. rewrite H. reflexivity. Qed.

Lemma forallb_impl (p q : ascii -> bool) s :
  (forall c, p c = true -> q c = true) -> forallb p s = true -> forallb q s = true.
Proof.
  intro H. induction s as [|c s IH]; simpl; auto.
  rewrite !andb_true_iff. intros [H1 H2]. auto.
Qed.

Lemma placeholder_word i : forallb is_word (placeholder i) = true.
Proof. exact (forallb_impl _ _ _ phc_word (placeholder_phc i)). Qed.

Lemma phc_not c d : is_phc c = true -> is_phc d = false -> chr_eqb c d = false /\ chr_eqb d c = false.
Proof.
  intros Hc Hd. destruct (chr_eqb c d) eqn:E.
  - apply chr_eqb_true in E. subst. congruence.
  - split; [reflexivity|]. unfold chr_eqb in *. rewrite Ascii.eqb_sym. exact E.
Qed.

Lemma strip_prefix_app p q s :
  strip_prefix (p ++ q) (p ++ s) = strip_prefix q s.
Proof. induction p as [|a p IH]; simpl; [reflexivity|]. rewrite chr_eqb_refl. exact IH. Qed.

Lemma strip_prefix_app_inv p q s r :
  strip_prefix (p ++ q) s = Some r -> exists r', strip_prefix p s = Some r'.
Proof.
  revert s. induction p as [|a p IH]; intros s H; simpl; [eauto|].
  destruct s as [|b s]; simpl in H; [discriminate|].
  destruct (chr_eqb a b); [exact (IH _ H)|discriminate].
Qed.

Lemma digits_strip a b Y r :
  forallb is_dec a = true -> forallb is_dec b = true ->
  strip_prefix (a ++ lit "__") (b ++ lit "__" ++ Y) = Some r -> a = b.
Proof.
  change (lit "__") with ["_"%char; "_"%char].
  revert b. induction a as [|c a IH]; intros [|d b] Ha Hb H; auto.
  - cbn [strip_prefix app forallb] in Hb, H. apply andb_true_iff in Hb as [Hd _].
    destruct (chr_eqb "_"%char d) eqn:E; [|discriminate].
    apply chr_eqb_true in E. subst. vm_compute in Hd; discriminate.
  - cbn [strip_prefix app forallb] in Ha, H. apply andb_true_iff in Ha as [Hc _].
    destruct (chr_eqb c "_"%char) eqn:E; [|discriminate].
    apply chr_eqb_true in E. subst. vm_compute in Hc; discriminate.
  - cbn [strip_prefix app forallb] in Ha, Hb, H.
    apply andb_true_iff in Ha as [_ Ha]. apply andb_true_iff in Hb as [_ Hb].
    destruct (chr_eqb c d) eqn:E; [|discriminate].
    apply chr_eqb_true in E. subst. f_equal. exact (IH b Ha Hb H).
Qed.

Lemma strip_placeholder_other i j Y : i <> j ->
  strip_prefix (placeholder j) (placeholder i ++ Y) = None.
Proof.
  intro Hij. destruct (strip_prefix (placeholder j) (placeholder i ++ Y)) as [r|] eqn:E; [|reflexivity].
  exfalso. apply Hij. apply dec_inj. symmetry.
  unfold placeholder in E. rewrite <- app_assoc in E. rewrite strip_prefix_app in E.
  rewrite <- app_assoc in E.
  exact (digits_strip _ _ _ _ (dec_digits j) (dec_digits i) E).
Qed.

(** ** Items *)

Lemma flat_app a b : flat (a ++ b) = flat a ++ flat b.
Proof. apply flat_map_app. Qed.

Lemma flat_cons x xs : flat (x :: xs) = item_str x ++ flat xs.
Proof. reflexivity. Qed.

Lemma good_app_l a b : good (a ++ b) -> good a.
Proof. intros H l r E. apply (H l (r ++ b)). subst. rewrite <- app_assoc. reflexivity. Qed.

Lemma good_app_r a b : good (a ++ b) -> good b.
Proof. intros H l r E. apply (H (a ++ l) r). subst. rewrite <- app_assoc. reflexivity. Qed.

Lemma good_cons x xs : good (x :: xs) -> good xs.
Proof. exact (good_app_r [x] xs). Qed.

Lemma good_sep a i b : good a -> good b -> good (a ++ Ph i :: b).
Proof.
  intros Ha Hb l r E. apply app_eq_app in E as [m [[E1 E2]|[E1 E2]]].
  - destruct m as [|x [|y m]]; simpl in E2; try discriminate.
    injection E2 as E3 E4 E5. subst. apply (Ha l m). reflexivity.
  - destruct m as [|x m]; simpl in E2; [discriminate|].
    injection E2 as E3 E4. subst. apply (Hb m r). reflexivity.
Qed.

Lemma good_map_Ch s : has_TK s = false -> good (map Ch s).
Proof.
  intros H l r E. revert s H E. induction l as [|x l IH]; intros s H E.
  - destruct s as [|c [|d s]]; simpl in E; try discriminate.
    injection E as E1 E2 _. subst. simpl in H. discriminate H.
  - destruct s as [|c s]; simpl in E; [discriminate|].
    injection E as _ E. simpl in H. apply orb_false_iff in H as [_ H]. exact (IH s H E).
Qed.

Lemma flat_no_TK xs : good xs -> strip_prefix (lit "TK") (flat xs) = None.
Proof.
  intro G. destruct xs as [|[c|i] xs]; [reflexivity| |reflexivity].
  rewrite flat_cons. cbn [item_str app lit list_ascii_of_string strip_prefix].
  destruct (chr_eqb "T"%char c) eqn:E; [|reflexivity].
  apply chr_eqb_true in E. subst.
  destruct xs as [|[d|j] xs]; [reflexivity| |reflexivity].
  rewrite flat_cons. cbn [item_str app strip_prefix].
  destruct (chr_eqb "K"%char d) eqn:E; [|reflexivity].
  apply chr_eqb_true in E. subst. exfalso. exact (G [] xs eq_refl).
Qed.

Lemma flat_no_uTK xs : good xs -> strip_prefix (lit "_TK") (flat xs) = None.
Proof.
  intro G. destruct xs as [|[c|i] xs]; [reflexivity| |reflexivity].
  rewrite flat_cons. cbn [item_str app lit list_ascii_of_string strip_prefix].
  destruct (chr_eqb "_"%char c) eqn:E; [|reflexivity].
  exact (flat_no_TK xs (good_cons _ _ G)).
Qed.

Lemma strip_placeholder_none j Y : strip_prefix (lit "__TK") Y = None ->
  strip_prefix (placeholder j) Y = None.
Proof.
  intro H. destruct (strip_prefix (placeholder j) Y) eqn:E; [|reflexivity].
  unfold placeholder in E. apply strip_prefix_app_inv in E as [r' E]. congruence.
Qed.

Lemma strip_placeholder_Ch c xs j : good (Ch c :: xs) ->
  strip_prefix (placeholder j) (c :: flat xs) = None.
Proof.
  intro G. apply strip_placeholder_none. cbn [lit list_ascii_of_string strip_prefix].
  destruct (chr_eqb "_"%char c); [|reflexivity].
  exact (flat_no_uTK xs (good_cons _ _ G)).
Qed.

Lemma replace_go_nil f old new : replace_go f old new [] = [].
Proof. destruct f; reflexivity. Qed.

Lemma replace_go_skip old new u Y f :
  (forall k, k < List.length u -> strip_prefix old (skipn k u ++ Y) = None) ->
  replace_go (List.length u + f) old new (u ++ Y) = u ++ replace_go f old new Y.
Proof.
  induction u as [|c u IH]; intro H; [reflexivity|].
  cbn [List.length Nat.add app replace_go].
  pose proof (H 0 ltac:(simpl; lia)) as H0. cbn [skipn app] in H0. rewrite H0.
  cbn [app]. f_equal.
  apply IH. intros k Hk. apply (H (S k)). simpl. lia.
Qed.

(** Inside a placeholder, no other placeholder starts. *)
Lemma placeholder_inside_none i j xs k : good xs -> 1 <= k < List.length (placeholder i) ->
  strip_prefix (placeholder j) (skipn k (placeholder i) ++ flat xs) = None.
Proof.
  intros G Hk. apply strip_placeholder_none.
  rewrite placeholder_eq in *. cbn [List.length] in Hk.
  rewrite length_app in Hk. change (List.length (lit "__")) with 2 in Hk.
  destruct k as [|[|[|[|k]]]]; [lia| reflexivity | reflexivity | reflexivity |].
  cbn [skipn]. pose proof (dec_digits i) as Hd.
  revert k Hk. induction (dec i) as [|d D IH]; intros k Hk.
  - destruct k as [|[|k]]; simpl in Hk; [| |lia].
    + change (strip_prefix (lit "__TK") (lit "__" ++ flat xs) = None).
      change (lit "__TK") with (lit "__" ++ lit "TK"). rewrite strip_prefix_app.
      exact (flat_no_TK xs G).
    + cbn [skipn app lit list_ascii_of_string strip_prefix]. rewrite chr_eqb_refl.
      exact (flat_no_uTK xs G).
  - cbn [forallb] in Hd. apply andb_true_iff in Hd as [Hd1 Hd2].
    destruct k as [|k].
    + cbn [skipn app lit list_ascii_of_string strip_prefix].
      destruct (chr_eqb "_"%char d) eqn:E; [|reflexivity].
      apply chr_eqb_true in E. subst. vm_compute in Hd1. discriminate.
    + cbn [skipn]. apply IH; [exact Hd2|]. simpl in Hk. lia.
Qed.

Lemma strip_prefix_self p s : strip_prefix p (p ++ s) = Some s.
Proof. induction p as [|a p IH]; simpl; [reflexivity|]. rewrite chr_eqb_refl. exact IH. Qed.

Lemma replace_go_match f old new c r rest : strip_prefix old (c :: r) = Some rest ->
  replace_go (S f) old new (c :: r) = new ++ replace_go f old new rest.
Proof. intro H. cbn [replace_go]. rewrite H. reflexivity. Qed.

Lemma replace_go_nomatch f old new c r : strip_prefix old (c :: r) = None ->
  replace_go (S f) old new (c :: r) = c :: replace_go f old new r.
Proof. intro H. cbn [replace_go]. rewrite H. reflexivity. Qed.

Lemma placeholder_cons i Y : placeholder i ++ Y = "_"%char :: (skipn 1 (placeholder i) ++ Y).
Proof. reflexivity. Qed.

Lemma placeholder_length i : 4 <= List.length (placeholder i).
Proof. rewrite placeholder_eq. simpl. lia. Qed.

Lemma replace_flat j t : forall xs f, good xs -> List.length (flat xs) <= f ->
  replace_go f (placeholder j) t (flat xs) = flat_sub j t xs.
Proof.
  induction xs as [|[c|i] xs IH]; intros f G Hf.
  - apply replace_go_nil.
  - destruct f as [|f]; [simpl in Hf; lia|].
    rewrite flat_cons. cbn [item_str app].
    rewrite (replace_go_nomatch _ _ _ _ _ (strip_placeholder_Ch c xs j G)).
    unfold flat_sub. cbn [flat_map app]. f_equal.
    apply IH; [exact (good_cons _ _ G)|simpl in Hf; lia].
  - rewrite flat_cons in *. cbn [item_str] in *. rewrite length_app in Hf.
    pose proof (placeholder_length i) as Lp.
    pose proof (good_cons _ _ G) as G'.
    unfold flat_sub. cbn [flat_map]. fold (flat_sub j t xs).
    destruct f as [|f]; [lia|].
    destruct (i =? j) eqn:E.
    + apply Nat.eqb_eq in E. subst.
      pose proof (strip_prefix_self (placeholder j) (flat xs)) as S1.
      rewrite placeholder_cons in *. rewrite (replace_go_match _ _ _ _ _ _ S1).
      f_equal. apply IH; [exact G'|lia].
    + apply Nat.eqb_neq in E.
      pose proof (strip_placeholder_other i j (flat xs) E) as S1.
      rewrite placeholder_cons in *. rewrite (replace_go_nomatch _ _ _ _ _ S1).
      cbn [app]. f_equal.
      set (u := skipn 1 (placeholder i)).
      assert (Lu : List.length u = List.length (placeholder i) - 1)
        by (unfold u; rewrite length_skipn; reflexivity).
      replace f with (List.length u + (f - List.length u)) by lia.
      rewrite replace_go_skip.
      * rewrite (placeholder_cons i (flat_sub j t xs)). fold u. do 2 f_equal.
        apply IH; [exact G'|lia].
      * intros k Hk. unfold u. rewrite skipn_skipn.
        apply placeholder_inside_none; [exact G'|lia].
Qed.

(** ** Matches start and end at item boundaries *)

Lemma char_at_cons c Y n : char_at (c :: Y) (S n) = char_at Y n.
Proof. reflexivity. Qed.

Lemma char_at_app_r u Y q : char_at (u ++ Y) (List.length u + q) = char_at Y q.
Proof. unfold char_at. rewrite nth_error_app2 by lia. f_equal. lia. Qed.

Lemma word_at_prefix u Y j : forallb is_word u = true -> j < List.length u ->
  is_word_opt (char_at (u ++ Y) j) = true.
Proof.
  intros Hu Hj. unfold char_at. rewrite nth_error_app1 by exact Hj.
  destruct (nth_error u j) as [c|] eqn:E; [|apply nth_error_None in E; lia].
  simpl. apply nth_error_In in E. rewrite forallb_forall in Hu. exact (Hu c E).
Qed.

Lemma cut_items xs : forall q, S q <= List.length (flat xs) ->
  (is_word_opt (char_at (flat xs) q) && is_word_opt (char_at (flat xs) (S q)))%bool = false ->
  exists A B, xs = A ++ B /\ List.length (flat A) = S q.
Proof.
  induction xs as [|[c|i] xs IH]; intros q Hq Hw.
  - simpl in Hq. lia.
  - destruct q as [|q]; [exists [Ch c], xs; auto|].
    rewrite flat_cons in *. cbn [item_str app] in *. rewrite !char_at_cons in Hw.
    simpl in Hq. destruct (IH q ltac:(lia) Hw) as [A [B [E L]]].
    exists (Ch c :: A), B. subst. split; [reflexivity|]. simpl. lia.
  - rewrite flat_cons in *. cbn [item_str] in *. rewrite length_app in Hq.
    pose proof (placeholder_word i) as Wi.
    destruct (Nat.lt_trichotomy (S q) (List.length (placeholder i))) as [Lt|[Eq|Gt]].
    + rewrite (word_at_prefix _ _ q Wi ltac:(lia)), (word_at_prefix _ _ (S q) Wi Lt) in Hw.
      discriminate.
    + exists [Ph i], xs. split; [reflexivity|]. rewrite flat_cons. cbn [item_str flat flat_map].
      rewrite app_nil_r. lia.
    + destruct (IH (q - List.length (placeholder i))) as [A [B [E L]]].
      * lia.
      * replace q with (List.length (placeholder i) + (q - List.length (placeholder i))) in Hw by lia.
        rewrite char_at_app_r, <- Nat.add_succ_r, char_at_app_r in Hw. exact Hw.
      * exists (Ph i :: A), B. subst. split; [reflexivity|]. rewrite flat_cons, length_app.
        cbn [item_str]. lia.
Qed.

Lemma scan_nil m f prev idx : sub_scan m f prev [] idx = ([], []).
Proof. destruct f; reflexivity. Qed.

Lemma scan_nomatch m f prev c r idx : (forall n, m prev (c :: r) <> Some (S n)) ->
  sub_scan m (S f) prev (c :: r) idx =
  (c :: fst (sub_scan m f (Some c) r idx), snd (sub_scan m f (Some c) r idx)).
Proof.
  intro H. cbn [sub_scan].
  destruct (m prev (c :: r)) as [[|k]|] eqn:E; [| exfalso; exact (H k eq_refl) |];
    destruct (sub_scan m f (Some c) r idx); reflexivity.
Qed.

Lemma scan_match m f prev s idx k : s <> [] -> m prev s = Some (S k) ->
  sub_scan m (S f) prev s idx =
  (placeholder idx ++ fst (sub_scan m f (char_at s k) (skipn (S k) s) (S idx)),
   firstn (S k) s :: snd (sub_scan m f (char_at s k) (skipn (S k) s) (S idx))).
Proof.
  intros Hs H. destruct s as [|c r]; [congruence|]. cbn [sub_scan]. rewrite H.
  destruct (sub_scan m f _ _ _); reflexivity.
Qed.

Lemma scan_skip m u : forall Y f prev idx,
  forallb is_word u = true ->
  (forall j, j < List.length u -> forall p, is_word_opt p = true ->
     forall n, m p (skipn j u ++ Y) <> Some (S n)) ->
  is_word_opt prev = true ->
  exists p', sub_scan m (List.length u + f) prev (u ++ Y) idx =
    (u ++ fst (sub_scan m f p' Y idx), snd (sub_scan m f p' Y idx)).
Proof.
  induction u as [|c u IH]; intros Y f prev idx Wu Hm Hp.
  - exists prev. simpl. destruct (sub_scan m f prev Y idx); reflexivity.
  - cbn [forallb] in Wu. apply andb_true_iff in Wu as [Wc Wu].
    cbn [List.length Nat.add app]. rewrite scan_nomatch.
    2: { exact (Hm 0 ltac:(simpl; lia) prev Hp). }
    destruct (IH Y f (Some c) idx Wu) as [p' E].
    + intros j Hj p Hp' n. exact (Hm (S j) ltac:(simpl; lia) p Hp' n).
    + exact Wc.
    + exists p'. rewrite E. reflexivity.
Qed.

Lemma forallb_skipn (p : ascii -> bool) k s : forallb p s = true -> forallb p (skipn k s) = true.
Proof.
  intro H. rewrite <- (firstn_skipn k s) in H. rewrite forallb_app in H.
  apply andb_true_iff in H as [_ H]. exact H.
Qed.

Lemma skipn_app_r (u Y : str) q : skipn (List.length u + q) (u ++ Y) = skipn q Y.
Proof. induction u as [|c u IH]; simpl; auto. Qed.

Lemma firstn_app_l (a b : str) : firstn (List.length a) (a ++ b) = a.
Proof. induction a as [|c a IH]; simpl; [reflexivity|]. f_equal. exact IH. Qed.

Lemma skipn_app_l (a b : str) : skipn (List.length a) (a ++ b) = b.
Proof. induction a as [|c a IH]; simpl; auto. Qed.

Lemma skipn_placeholder i k : k < List.length (placeholder i) ->
  exists c u, skipn k (placeholder i) = c :: u /\ is_phc c = true /\
    forallb is_word (c :: u) = true.
Proof.
  intro Hk. pose proof (forallb_skipn _ k _ (placeholder_phc i)) as P.
  pose proof (forallb_skipn _ k _ (placeholder_word i)) as W.
  destruct (skipn k (placeholder i)) as [|c u] eqn:E.
  - pose proof (length_skipn k (placeholder i)) as L. rewrite E in L. cbn [List.length] in L. lia.
  - exists c, u. split; [reflexivity|]. split; [|exact W].
    cbn [forallb] in P. apply andb_true_iff in P as [P _]. exact P.
Qed.

Lemma email_app p u Y : forallb is_mailc u = true -> u <> [] ->
  m_email p (u ++ Y) =
  if opt_chr_eqb (char_at Y (run is_mailc Y)) "@"%char then
    match email_tail (skipn (S (run is_mailc Y)) Y) with
    | Some k => Some (S (List.length u + run is_mailc Y) + k)
    | None => None
    end
  else None.
Proof.
  intros Hu Hne. unfold m_email. rewrite (run_app_all _ _ _ Hu).
  destruct (List.length u + run is_mailc Y =? 0) eqn:E.
  - apply Nat.eqb_eq in E. destruct u; [congruence|simpl in E; lia].
  - rewrite char_at_app_r, <- Nat.add_succ_r, skipn_app_r. reflexivity.
Qed.

Lemma phc_start_nomatch (m : matcher) :
  (forall prev c Z, is_phc c = true -> m prev (c :: Z) = None) -> no_match_inside m.
Proof.
  intros H i Y prev0 prev k _ Hk _ n.
  destruct (skipn_placeholder i k ltac:(lia)) as [c [u [E [Pc _]]]].
  rewrite E. cbn [app]. rewrite (H prev c (u ++ Y) Pc). discriminate.
Qed.

Lemma url_inside : no_match_inside m_url.
Proof.
  apply phc_start_nomatch. intros prev c Z Pc.
  destruct (phc_not c "h"%char Pc eq_refl) as [_ Hh].
  unfold m_url. cbn [lit list_ascii_of_string strip_prefix]. rewrite Hh. reflexivity.
Qed.

Lemma www_inside : no_match_inside m_www.
Proof.
  apply phc_start_nomatch. intros prev c Z Pc.
  destruct (phc_not c "w"%char Pc eq_refl) as [_ Hw].
  unfold m_www. cbn [lit list_ascii_of_string strip_prefix]. rewrite Hw. reflexivity.
Qed.

Lemma pct_inside : no_match_inside m_pct.
Proof.
  apply phc_start_nomatch. intros prev c Z Pc.
  destruct (phc_not c "%"%char Pc eq_refl) as [Hp _].
  unfold m_pct. rewrite Hp. reflexivity.
Qed.

Lemma ent_inside : no_match_inside m_ent.
Proof.
  apply phc_start_nomatch. intros prev c Z Pc.
  destruct (phc_not c "&"%char Pc eq_refl) as [Ha _].
  unfold m_ent. rewrite Ha. reflexivity.
Qed.

Lemma num_inside : no_match_inside m_num.
Proof.
  intros i Y prev0 prev k _ Hk Hp n.
  destruct (skipn_placeholder i k ltac:(lia)) as [c [u [E _]]].
  rewrite E. cbn [app]. unfold m_num. rewrite Hp. discriminate.
Qed.

Lemma email_inside : no_match_inside m_email.
Proof.
  intros i Y prev0 prev k H0 Hk Hp n.
  destruct (skipn_placeholder i k ltac:(lia)) as [c [u [E [_ W]]]].
  rewrite <- E in W.
  assert (Ne : skipn k (placeholder i) <> []) by (rewrite E; discriminate).
  rewrite (email_app _ _ _ (forallb_impl _ _ _ word_mailc W) Ne).
  assert (Ne0 : placeholder i <> []) by (rewrite placeholder_eq; discriminate).
  pose proof (H0) as H1.
  rewrite (email_app _ _ _ (forallb_impl _ _ _ word_mailc (placeholder_word i)) Ne0) in H1.
  destruct (opt_chr_eqb _ _); [|discriminate].
  destruct (email_tail _) as [k0|]; [|discriminate].
  exfalso. apply (H1 (List.length (placeholder i) + run is_mailc Y + k0)). reflexivity.
Qed.

Lemma patterns_inside m : In m NONTRANS_PATTERNS -> no_match_inside m.
Proof.
  simpl. intuition subst;
    auto using url_inside, www_inside, email_inside, pct_inside, ent_inside, num_inside.
Qed.

(** One pass of [re.sub] seen on items: the matches are unions of whole
    items. *)
Lemma scan_items m : match_ends_well m -> no_match_inside m ->
  forall fuel xs prev idx, List.length (flat xs) <= fuel ->
  exists g0 ps, xs = g0 ++ iwoven ps /\
    sub_scan m fuel prev (flat xs) idx
    = (flat (g0 ++ iwoven_ph idx ps), map (fun p => flat (fst p)) ps).
Proof.
  intros Hend Hin fuel. induction fuel as [fuel IH] using (well_founded_induction lt_wf).
  intros xs prev idx Hf.
  destruct xs as [|x xs'].
  - exists [], []. split; [reflexivity|]. apply scan_nil.
  - assert (Hx : exists c r, flat (x :: xs') = c :: r).
    { destruct x as [c|i]; [eexists _, _; reflexivity|].
      rewrite flat_cons. cbn [item_str]. rewrite placeholder_cons. eexists _, _; reflexivity. }
    destruct Hx as [c0 [r0 Hx]].
    destruct fuel as [|f]; [rewrite Hx in Hf; simpl in Hf; lia|].
    destruct (m prev (flat (x :: xs'))) as [[|k]|] eqn:Em.
    2: {
      destruct (Hend _ _ _ Em) as [Lk Wk].
      destruct (cut_items (x :: xs') k Lk Wk) as [A [B [EAB LA]]].
      rewrite (scan_match m f prev _ idx k) by first [exact Em | rewrite Hx; discriminate].
      assert (Fs : firstn (S k) (flat (x :: xs')) = flat A /\ skipn (S k) (flat (x :: xs')) = flat B).
      { rewrite <- LA, EAB, flat_app. split; [apply firstn_app_l|apply skipn_app_l]. }
      destruct Fs as [F1 F2]. rewrite F1, F2.
      assert (LB : List.length (flat B) <= f).
      { rewrite EAB, flat_app, length_app in Hf. lia. }
      destruct (IH f (Nat.lt_succ_diag_r f) B (char_at (flat (x :: xs')) k) (S idx) LB)
        as [g0 [ps [EB Es]]].
      rewrite Es. exists [], ((A, g0) :: ps). split.
      - rewrite EAB, EB. reflexivity.
      - cbn [app iwoven_ph map fst snd]. rewrite flat_cons. reflexivity. }
    all: assert (Hno : forall n, m prev (flat (x :: xs')) <> Some (S n)) by (rewrite Em; discriminate).
    all: clear Em.
    all: destruct x as [c|i].
    1,3: (
      change (flat (Ch c :: xs')) with (c :: flat xs') in *;
      rewrite (scan_nomatch _ _ _ _ _ _ Hno);
      destruct (IH f (Nat.lt_succ_diag_r f) xs' (Some c) idx ltac:(simpl in Hf; lia))
        as [g0 [ps [E Es]]];
      rewrite Es; exists (Ch c :: g0), ps; split; [rewrite E; reflexivity|reflexivity]).
    all: (
      pose proof Hno as Hno0;
      rewrite flat_cons in Hno, Hf |- *; cbn [item_str] in Hno, Hf |- *;
      rewrite placeholder_cons in Hno |- *;
      rewrite (scan_nomatch _ _ _ _ _ _ Hno);
      pose proof (placeholder_length i) as Lp;
      rewrite length_app in Hf;
      assert (Lu : List.length (skipn 1 (placeholder i)) = List.length (placeholder i) - 1)
        by (rewrite length_skipn; reflexivity);
      replace f with (List.length (skipn 1 (placeholder i)) + (f - List.length (skipn 1 (placeholder i)))) by lia;
      destruct (scan_skip m (skipn 1 (placeholder i)) (flat xs') (f - List.length (skipn 1 (placeholder i)))
                  (Some "_"%char) idx) as [p' Ep];
      [ exact (forallb_skipn _ 1 _ (placeholder_word i))
      | intros j Hj p Hp n; rewrite skipn_skipn;
        rewrite flat_cons in Hno0; cbn [item_str] in Hno0;
        exact (Hin i (flat xs') prev p (j + 1) Hno0 ltac:(lia) Hp n)
      | reflexivity
      | ];
      rewrite Ep;
      destruct (IH (f - List.length (skipn 1 (placeholder i))) ltac:(lia) xs' p' idx ltac:(lia))
        as [g0 [ps [E Es]]];
      rewrite Es; exists (Ph i :: g0), ps; split; [rewrite E; reflexivity|];
      cbn [fst snd app]; rewrite flat_cons; cbn [item_str]; rewrite placeholder_cons; reflexivity).
Qed.

(** ** The steps of [restore_nontranslatable] undo one pass *)

Lemma restore_from_split a b tokens text :
  restore_from (a + b) tokens text = restore_from a tokens (rdown a b tokens text).
Proof.
  revert text. induction b as [|b IH]; intro text; [rewrite Nat.add_0_r; reflexivity|].
  rewrite Nat.add_succ_r. cbn [restore_from rdown]. apply IH.
Qed.

Lemma restore_from_app i tokens e text : i <= List.length tokens ->
  restore_from i (tokens ++ e) text = restore_from i tokens text.
Proof.
  revert text. induction i as [|i IH]; intros text Hi; [reflexivity|].
  cbn [restore_from]. rewrite app_nth1 by lia. apply IH. lia.
Qed.

Lemma restore_nt_from text tokens :
  restore_nontranslatable text tokens = restore_from (List.length tokens) tokens text.
Proof. destruct tokens; reflexivity. Qed.

Lemma iwoven_app ps c g : iwoven (ps ++ [(c, g)]) = iwoven ps ++ c ++ g.
Proof.
  induction ps as [|[c' g'] ps IH]; simpl; [rewrite !app_nil_r; reflexivity|].
  rewrite IH, !app_assoc. reflexivity.
Qed.

Lemma iwoven_ph_app ps : forall n c g,
  iwoven_ph n (ps ++ [(c, g)]) = iwoven_ph n ps ++ Ph (n + List.length ps) :: g.
Proof.
  induction ps as [|[c' g'] ps IH]; intros n c g; simpl.
  - rewrite Nat.add_0_r, app_nil_r. reflexivity.
  - rewrite IH, <- app_assoc, Nat.add_succ_r. reflexivity.
Qed.

Lemma ph_below_app n a b : ph_below n (a ++ b) <-> ph_below n a /\ ph_below n b.
Proof.
  unfold ph_below. split.
  - intro H. split; intros i Hi; apply H; apply in_or_app; auto.
  - intros [Ha Hb] i Hi. apply in_app_or in Hi as [Hi|Hi]; auto.
Qed.

Lemma ph_below_weaken n n' xs : n <= n' -> ph_below n xs -> ph_below n' xs.
Proof. intros Le H i Hi. specialize (H i Hi). lia. Qed.

Lemma good_collapse ps : forall g0 X n,
  good (g0 ++ iwoven ps ++ X) -> good (g0 ++ iwoven_ph n ps).
Proof.
  induction ps as [|[c g] ps IH]; intros g0 X n H; simpl in *.
  - rewrite app_nil_r. exact (good_app_l _ _ H).
  - apply good_sep; [exact (good_app_l _ _ H)|].
    apply (IH g X (S n)). rewrite <- !app_assoc in H.
    exact (good_app_r _ _ (good_app_r _ _ H)).
Qed.

Lemma below_collapse ps : forall g0 X n,
  ph_below n (g0 ++ iwoven ps ++ X) -> ph_below (n + List.length ps) (g0 ++ iwoven_ph n ps).
Proof.
  induction ps as [|[c g] ps IH]; intros g0 X n H; simpl in *.
  - rewrite app_nil_r, Nat.add_0_r. apply ph_below_app in H. exact (proj1 H).
  - rewrite <- !app_assoc in H. apply ph_below_app in H as [H0 H].
    apply ph_below_app in H as [_ H].
    apply ph_below_app. split; [apply (ph_below_weaken n); [lia|exact H0]|].
    intros i [Hi|Hi]; [injection Hi as <-; lia|].
    rewrite <- Nat.add_succ_comm.
    apply (IH g X (S n)); [|exact Hi].
    apply (ph_below_weaken n); [lia|]. exact H.
Qed.

Lemma flat_sub_app j t a b : flat_sub j t (a ++ b) = flat_sub j t a ++ flat_sub j t b.
Proof. apply flat_map_app. Qed.

Lemma flat_sub_none j t a : (forall i, In (Ph i) a -> i <> j) -> flat_sub j t a = flat a.
Proof.
  induction a as [|[c|i] a IH]; intro H; [reflexivity| |].
  - unfold flat_sub, flat in *. cbn [flat_map]. f_equal. apply IH. intros i Hi. apply H. right. exact Hi.
  - unfold flat_sub in *. cbn [flat_map]. rewrite flat_cons.
    assert (E : (i =? j) = false) by (apply Nat.eqb_neq; apply H; left; reflexivity).
    rewrite E. f_equal. apply IH. intros i' Hi. apply H. right. exact Hi.
Qed.

Lemma replace_one j t A B : good A -> good B ->
  (forall i, In (Ph i) A -> i <> j) -> (forall i, In (Ph i) B -> i <> j) ->
  str_replace (placeholder j) t (flat (A ++ Ph j :: B)) = flat A ++ t ++ flat B.
Proof.
  intros GA GB HA HB. unfold str_replace.
  rewrite (replace_flat j t _ _ (good_sep _ _ _ GA GB) (le_n _)).
  rewrite flat_sub_app. unfold flat_sub at 2. cbn [flat_map]. rewrite Nat.eqb_refl.
  fold (flat_sub j t B). rewrite !flat_sub_none by assumption. reflexivity.
Qed.

Lemma restore_pass n toks0 : List.length toks0 = n ->
  forall ps g0 R E,
  good (g0 ++ iwoven ps ++ R) -> ph_below n (g0 ++ iwoven ps ++ R) ->
  rdown n (List.length ps) (toks0 ++ map (fun p => flat (fst p)) ps ++ E)
    (flat (g0 ++ iwoven_ph n ps ++ R))
  = flat (g0 ++ iwoven ps ++ R).
Proof.
  intros Ln ps. induction ps as [|[c g] ps IH] using rev_ind; intros g0 R E G B; [reflexivity|].
  rewrite length_app, Nat.add_1_r. cbn [rdown].
  rewrite iwoven_app in G, B |- *. rewrite iwoven_ph_app.
  rewrite map_app. cbn [map fst]. rewrite <- app_assoc. cbn [app].
  assert (Nth : nth (n + List.length ps)
                  (toks0 ++ map (fun p => flat (fst p)) ps ++ flat c :: E) [] = flat c).
  { rewrite app_nth2 by lia. rewrite app_nth2 by (rewrite length_map; lia).
    rewrite length_map. replace (n + List.length ps - List.length toks0 - List.length ps) with 0 by lia.
    reflexivity. }
  rewrite Nth.
  rewrite <- !app_assoc in G, B. rewrite <- !app_assoc.
  pose proof G as G2. pose proof B as B2.
  rewrite app_assoc in G2, B2.
  assert (GB : good (g ++ R)) by exact (good_app_r _ _ (good_app_r _ _ G2)).
  assert (BB : ph_below n (g ++ R)).
  { apply ph_below_app in B2 as [_ B2]. apply ph_below_app in B2 as [_ B2]. exact B2. }
  rewrite <- app_assoc in G2, B2.
  rewrite (app_assoc g0 (iwoven_ph n ps)).
  rewrite <- app_comm_cons.
  rewrite replace_one.
  - rewrite <- !flat_app. rewrite <- !app_assoc. apply IH.
    + rewrite app_assoc. pose proof G as G'. rewrite !app_assoc in G' |- *.
      rewrite <- !app_assoc. rewrite <- !app_assoc in G'. exact G'.
    + exact B.
  - apply (good_collapse ps g0 (c ++ g ++ R) n). exact G.
  - exact GB.
  - intros i Hi. pose proof (below_collapse ps g0 (c ++ g ++ R) n B i Hi). lia.
  - intros i Hi. pose proof (BB i Hi). lia.
Qed.

Lemma pass_inv text0 m acc : In m NONTRANS_PATTERNS ->
  restore_inv text0 acc -> restore_inv text0 (sub_pass acc m).
Proof.
  intros Hm H. destruct acc as [t toks]. destruct H as [xs [-> [G [B R]]]].
  unfold sub_pass.
  destruct (scan_items m (patterns_end_well m Hm) (patterns_inside m Hm)
              (List.length (flat xs)) xs None (List.length toks) (le_n _)) as [g0 [ps [Exs Es]]].
  rewrite Es. simpl. exists (g0 ++ iwoven_ph (List.length toks) ps).
  rewrite length_app, length_map.
  assert (Gx : good (g0 ++ iwoven ps ++ [])) by (rewrite app_nil_r, <- Exs; exact G).
  assert (Bx : ph_below (List.length toks) (g0 ++ iwoven ps ++ [])) by (rewrite app_nil_r, <- Exs; exact B).
  split; [reflexivity|]. split; [exact (good_collapse _ _ _ _ Gx)|].
  split; [exact (below_collapse _ _ _ _ Bx)|].
  rewrite restore_from_split.
  pose proof (restore_pass (List.length toks) toks eq_refl ps g0 [] [] Gx Bx) as RP.
  rewrite !app_nil_r in RP. rewrite RP, <- Exs.
  rewrite restore_from_app by lia. exact R.
Qed.

Lemma fold_inv text0 pats : forall acc,
  (forall m, In m pats -> In m NONTRANS_PATTERNS) ->
  restore_inv text0 acc -> restore_inv text0 (fold_left sub_pass pats acc).
Proof.
  induction pats as [|m pats IH]; intros acc Hp H; [exact H|].
  simpl. apply IH; [intros m' Hm'; apply Hp; right; exact Hm'|].
  apply pass_inv; [apply Hp; left; reflexivity|exact H].
Qed.

Lemma flat_map_Ch s : flat (map Ch s) = s.
Proof. induction s as [|c s IH]; [reflexivity|]. simpl. rewrite IH. reflexivity. Qed.

(** The round trip is the identity on texts without ["TK"]. *)
Lemma round_trip_no_TK text : has_TK text = false -> round_trip text = text.
Proof.
  intro H. unfold round_trip, protect_nontranslatable.
  destruct text as [|c r]; [reflexivity|].
  assert (I0 : restore_inv (c :: r) (c :: r, [])).
  { exists (map Ch (c :: r)). split; [symmetry; apply flat_map_Ch|].
    split; [exact (good_map_Ch _ H)|]. split; [|reflexivity].
    intros i Hi. apply in_map_iff in Hi as [x [Hx _]]. discriminate. }
  pose proof (fold_inv (c :: r) NONTRANS_PATTERNS (c :: r, []) (fun m H => H) I0) as I1.
  destruct (fold_left sub_pass NONTRANS_PATTERNS (c :: r, [])) as [t toks].
  destruct I1 as [xs [_ [_ [_ R]]]]. rewrite restore_nt_from. exact R.
Qed.

(** C9: the round trip, [restore_nontranslatable] after [protect_nontranslatable],
    is the identity on every text that does not contain the two
    characters ["TK"] next to each other (so in particular no literal
    [__TK<digits>__]); and a text with such a literal whose index is below
    the number of tokens is corrupted: ["__TK0__ 5"] comes back as
    ["5 5"]. *)
Theorem protect_restore_round_trip :
  (forall text, has_TK text = false -> round_trip text = text) /\
  round_trip (lit "__TK0__ 5") = lit "5 5".
Proof. split; [exact round_trip_no_TK | reflexivity]. Qed.

Lemma protect_restore_round_trip_witness :
  has_TK (lit "a@b.http://x 5 %v% &amp; www.q") = false /\
  round_trip (lit "a@b.http://x 5 %v% &amp; www.q") = lit "a@b.http://x 5 %v% &amp; www.q".
Proof.
  split; [reflexivity|].
  apply (proj1 protect_restore_round_trip). reflexivity.
Defined.

(** Without ["TK"] placeholders of the spec's form the round trip still
    fails: ["%a%TK1%b%"] has no literal [__TK<digits>__], but the two
    percent variables become [__TK0__TK1__TK1__], in which the first
    occurrence of [__TK1__] straddles the two placeholders, and the text
    comes back as ["__TK0%b%TK1__"]. *)
Lemma round_trip_breaks_without_literal :
  has_ph_literal (lit "%a%TK1%b%") = false /\
  round_trip (lit "%a%TK1%b%") = lit "__TK0%b%TK1__".
Proof. split; reflexivity. Qed.

(** ** Idempotence of the spacing fix (C5) *)

Lemma space_not_alnum c : is_space c = true -> is_alnum c = false.
Proof. destruct c as [[] [] [] [] [] [] [] []]; first [discriminate | reflexivity]. Qed.

Lemma space_not_punct c : is_space c = true -> in_chars ",.;:!?" c = false.
Proof. destruct c as [[] [] [] [] [] [] [] []]; first [discriminate | reflexivity]. Qed.

Lemma flush_ws_shape pend : forallb is_space pend = true ->
  flush_ws pend = [] /\ pend = [] \/ (exists w, flush_ws pend = [w] /\ is_space w = true).
Proof.
  intro H. destruct pend as [|c [|d p]]; [left; auto| |].
  - right. exists c. simpl in H. rewrite andb_true_r in H. auto.
  - right. exists " "%char. split; reflexivity.
Qed.

Lemma nrm_cons_nonspace c y : is_space c = false -> nrm (c :: y) = nrm y.
Proof. intro H. destruct y as [|d y]; [reflexivity|]. simpl nrm at 1. rewrite H. reflexivity. Qed.

Lemma collapse_go_nrm s : forall pend, forallb is_space pend = true -> nrm (collapse_go pend s) = true.
Proof.
  induction s as [|d r IH]; intros pend Hp; simpl.
  - destruct (flush_ws_shape pend Hp) as [[-> _]|[w [-> _]]]; reflexivity.
  - destruct (is_space d) eqn:Ed.
    + apply IH. rewrite forallb_app, Hp. simpl. rewrite Ed. reflexivity.
    + assert (N : nrm (d :: collapse_go [] r) = true) by (rewrite nrm_cons_nonspace by exact Ed; apply IH; reflexivity).
      destruct (flush_ws_shape pend Hp) as [[-> _]|[w [-> _]]]; [exact N|].
      simpl app. change (nrm (w :: d :: collapse_go [] r)) with
        (negb (is_space w && is_space d) && nrm (d :: collapse_go [] r)).
      rewrite Ed, N. rewrite andb_false_r. reflexivity.
Qed.

Lemma collapse_go_fixed s :
  (nrm s = true -> collapse_go [] s = s) /\
  (forall c, is_space c = true -> nrm (c :: s) = true -> collapse_go [c] s = c :: s).
Proof.
  induction s as [|d r [IH1 IH2]].
  - split; reflexivity.
  - split.
    + intro N. simpl. destruct (is_space d) eqn:Ed.
      * apply IH2; assumption.
      * rewrite nrm_cons_nonspace in N by exact Ed. rewrite IH1 by exact N. reflexivity.
    + intros c Hc N. change (nrm (c :: d :: r)) with (negb (is_space c && is_space d) && nrm (d :: r)) in N.
      apply andb_true_iff in N as [N1 N]. rewrite Hc in N1.
      destruct (is_space d) eqn:Ed; [discriminate N1|].
      cbn [collapse_go]. rewrite Ed. rewrite nrm_cons_nonspace in N by exact Ed. rewrite IH1 by exact N. reflexivity.
Qed.

Lemma collapse_idem s : collapse_ws (collapse_ws s) = collapse_ws s.
Proof. apply (proj1 (collapse_go_fixed _)). apply collapse_go_nrm. reflexivity. Qed.

Lemma collapse_go_nonempty s : forall pend, (pend <> [] \/ s <> []) -> collapse_go pend s <> [].
Proof.
  induction s as [|d r IH]; intros pend H; simpl.
  - destruct pend as [|c [|e p]]; [destruct H; congruence|discriminate|discriminate].
  - destruct (is_space d).
    + apply IH. left. destruct pend; discriminate.
    + destruct (flush_ws pend); discriminate.
Qed.

Lemma collapse_nonempty s : s <> [] -> collapse_ws s <> [].
Proof. intro H. apply collapse_go_nonempty. right. exact H. Qed.

Lemma collapse_go_head r : forall pend c, hd_error pend = Some c -> forallb is_space pend = true ->
  exists y, collapse_go pend r = c :: y \/ collapse_go pend r = " "%char :: y.
Proof.
  induction r as [|d r IH]; intros pend c Hc Hp; simpl.
  - destruct pend as [|c' [|e p]]; simpl in Hc; [discriminate| |]; injection Hc as ->;
      exists []; [left|right]; reflexivity.
  - destruct (is_space d) eqn:Ed.
    + apply IH; [destruct pend; simpl in *; congruence|].
      rewrite forallb_app, Hp. simpl. rewrite Ed. reflexivity.
    + destruct pend as [|c' [|e p]]; simpl in Hc; [discriminate| |]; injection Hc as ->;
        eexists; [left|right]; reflexivity.
Qed.

Lemma starts_ws_space c : is_chr 32 c || is_chr 10 c || is_chr 9 c = true -> is_space c = true.
Proof. destruct c as [[] [] [] [] [] [] [] []]; first [discriminate | reflexivity]. Qed.

Lemma starts_ws_collapse s : starts_ws s = true -> starts_ws (collapse_ws s) = true.
Proof.
  destruct s as [|c r]; [discriminate|]. intro H. unfold collapse_ws. simpl.
  simpl in H. rewrite (starts_ws_space _ H).
  destruct (collapse_go_head r [c] c eq_refl) as [y [E|E]].
  - simpl. rewrite (starts_ws_space _ H). reflexivity.
  - rewrite E. exact H.
  - rewrite E. reflexivity.
Qed.

Lemma last_app_ne (l m : str) d : m <> [] -> List.last (l ++ m) d = List.last m d.
Proof.
  intro Hm. induction l as [|x l IH]; [reflexivity|].
  rewrite <- app_comm_cons. rewrite <- IH. destruct (l ++ m) eqn:E; [|reflexivity].
  destruct l; simpl in E; [congruence|discriminate].
Qed.

Lemma last_cons_ne (x : ascii) m d : m <> [] -> List.last (x :: m) d = List.last m d.
Proof. intro Hm. exact (last_app_ne [x] m d Hm). Qed.

Lemma last_forallb (p : ascii -> bool) l d : forallb p l = true -> p d = true -> p (List.last l d) = true.
Proof.
  intros H Hd. induction l as [|x l IH]; [exact Hd|].
  cbn [forallb] in H. apply andb_true_iff in H as [H1 H2].
  destruct l as [|y l]; [exact H1|]. exact (IH H2).
Qed.

Lemma collapse_go_last s : forall pend, forallb is_space pend = true ->
  is_space (last_chr (collapse_go pend s)) = is_space (last_chr (pend ++ s)) /\
  (is_space (last_chr (pend ++ s)) = false -> last_chr (collapse_go pend s) = last_chr (pend ++ s)).
Proof.
  unfold last_chr. induction s as [|d r IH]; intros pend Hp; simpl.
  - rewrite app_nil_r. destruct pend as [|c [|e p]]; [auto|auto|].
    assert (Hl : is_space (List.last (c :: e :: p) " "%char) = true)
      by (apply last_forallb; [exact Hp|reflexivity]).
    rewrite Hl. split; [reflexivity|discriminate].
  - destruct (is_space d) eqn:Ed.
    + replace (pend ++ d :: r) with ((pend ++ [d]) ++ r) by (rewrite <- app_assoc; reflexivity).
      apply IH. rewrite forallb_app, Hp. simpl. rewrite Ed. reflexivity.
    + destruct r as [|d' r].
      * simpl. rewrite !last_app_ne by discriminate. simpl. rewrite Ed. auto.
      * assert (Ne : collapse_go [] (d' :: r) <> []) by (apply collapse_go_nonempty; right; discriminate).
        rewrite !last_app_ne by (try exact Ne; discriminate).
        rewrite !last_cons_ne by (try exact Ne; discriminate).
        exact (IH [] eq_refl).
Qed.

Lemma collapse_last s :
  is_space (last_chr (collapse_ws s)) = is_space (last_chr s) /\
  (is_space (last_chr s) = false -> last_chr (collapse_ws s) = last_chr s).
Proof. exact (collapse_go_last s [] eq_refl). Qed.

Lemma needs_space_eq a b : a <> [] -> b <> [] ->
  needs_space a b = (is_alnum (last_chr a) && is_alnum (hd " "%char b))
                    || (in_chars ",.;:!?" (last_chr a) && is_alnum (hd " "%char b)).
Proof. destruct a; [congruence|]. destruct b; [congruence|]. reflexivity. Qed.

Lemma needs_space_nil_l b : needs_space [] b = false.
Proof. reflexivity. Qed.

Lemma needs_space_nil_r a : needs_space a [] = false.
Proof. destruct a; reflexivity. Qed.

Lemma needs_space_last_space a b : is_space (last_chr a) = true -> needs_space a b = false.
Proof.
  intro H. destruct a as [|x a]; [reflexivity|]. destruct b as [|y b]; [reflexivity|].
  rewrite needs_space_eq by discriminate.
  rewrite (space_not_alnum _ H), (space_not_punct _ H). reflexivity.
Qed.

Lemma needs_space_nonspace a b : needs_space a b = true ->
  a <> [] /\ is_space (last_chr a) = false.
Proof.
  intro H. destruct a as [|x a]; [discriminate|]. split; [discriminate|].
  destruct (is_space (last_chr (x :: a))) eqn:E; [|reflexivity].
  rewrite (needs_space_last_space _ b E) in H. discriminate.
Qed.

Lemma needs_space_collapse a b : needs_space (collapse_ws a) b = needs_space a b.
Proof.
  destruct a as [|x a]; [reflexivity|].
  assert (Ne : collapse_ws (x :: a) <> []) by (apply collapse_nonempty; discriminate).
  destruct b as [|y b]; [rewrite !needs_space_nil_r; reflexivity|].
  destruct (collapse_last (x :: a)) as [L1 L2].
  destruct (is_space (last_chr (x :: a))) eqn:E.
  - rewrite !needs_space_last_space; auto.
  - rewrite !needs_space_eq by (try exact Ne; discriminate). rewrite (L2 eq_refl). reflexivity.
Qed.

Lemma needs_space_snoc a b : needs_space (a ++ [" "%char]) b = false.
Proof.
  apply needs_space_last_space. unfold last_chr. rewrite last_last. reflexivity.
Qed.

Lemma collapse_go_snoc s : forall pend, s <> [] -> is_space (last_chr s) = false ->
  collapse_go pend (s ++ [" "%char]) = collapse_go pend s ++ [" "%char].
Proof.
  unfold last_chr. induction s as [|d r IH]; intros pend Hs Hl; [congruence|].
  destruct r as [|d' r].
  - simpl in Hl. simpl. rewrite Hl. rewrite <- app_assoc. reflexivity.
  - rewrite last_cons_ne in Hl by discriminate.
    rewrite <- app_comm_cons. cbn [collapse_go]. destruct (is_space d).
    + apply IH; [discriminate|exact Hl].
    + rewrite IH by (try discriminate; exact Hl). rewrite <- app_assoc. reflexivity.
Qed.

Lemma collapse_snoc s b : needs_space s b = true ->
  collapse_ws (s ++ [" "%char]) = collapse_ws s ++ [" "%char].
Proof.
  intro H. destruct (needs_space_nonspace _ _ H) as [Ne Hl].
  apply collapse_go_snoc; assumption.
Qed.

(** The tail written by the [prev] step is a fixed point of the step. *)
Lemma prev_step_fixed t b :
  let pad s := if needs_space s b then s ++ [" "%char] else s in
  let d := collapse_ws (pad t) in
  collapse_ws d = d /\ collapse_ws (pad d) = d.
Proof.
  cbv beta zeta. destruct (needs_space t b) eqn:E.
  - rewrite (collapse_snoc _ _ E).
    assert (E' : needs_space (collapse_ws t) b = true) by (rewrite needs_space_collapse; exact E).
    rewrite needs_space_snoc. rewrite (collapse_snoc _ _ E'), collapse_idem. auto.
  - rewrite needs_space_collapse, E, collapse_idem. auto.
Qed.

Lemma prev_tail_some s b : s <> [] ->
  prev_tail (Some s) b =
  Some (collapse_ws (if truthy b then (if needs_space s (safe_str b) then s ++ [" "%char] else s) else s)).
Proof. intro H. destruct s; [congruence|]. unfold prev_tail. cbn [truthy]. destruct (truthy b); reflexivity. Qed.

Lemma pad_nonempty s b : s <> [] -> (if needs_space s b then s ++ [" "%char] else s) <> [].
Proof. intro H. destruct (needs_space s b); [destruct s; [congruence|discriminate]|exact H]. Qed.

Lemma starts_ws_app s x : s <> [] -> starts_ws (s ++ x) = starts_ws s.
Proof. destruct s; [congruence|reflexivity]. Qed.

Lemma prev_tail_fp c b : c <> [] ->
  exists d, prev_tail (Some c) b = Some d /\ d <> [] /\ collapse_ws d = d /\
    prev_tail (Some d) b = Some d /\ (starts_ws c = true -> starts_ws d = true).
Proof.
  intro Hc. rewrite (prev_tail_some _ _ Hc). eexists. split; [reflexivity|].
  destruct (truthy b) eqn:Tb.
  - destruct (prev_step_fixed c (safe_str b)) as [F1 F2]. cbv beta zeta in F1, F2.
    assert (Ne : collapse_ws (if needs_space c (safe_str b) then c ++ [" "%char] else c) <> [])
      by (apply collapse_nonempty, pad_nonempty, Hc).
    split; [exact Ne|]. split; [exact F1|]. split.
    + rewrite (prev_tail_some _ _ Ne), Tb, F2. reflexivity.
    + intro Hs. apply starts_ws_collapse. destruct (needs_space c (safe_str b));
        [rewrite starts_ws_app by exact Hc|]; exact Hs.
  - assert (Ne : collapse_ws c <> []) by (apply collapse_nonempty, Hc).
    split; [exact Ne|]. split; [apply collapse_idem|]. split.
    + rewrite (prev_tail_some _ _ Ne), Tb, collapse_idem. reflexivity.
    + apply starts_ws_collapse.
Qed.

Lemma prev_tail_falsy u b : truthy u = false -> prev_tail u b = u.
Proof. intro H. unfold prev_tail. rewrite H. reflexivity. Qed.

Lemma needs_space_not_both a b : truthy a && truthy b = false ->
  needs_space (safe_str a) (safe_str b) = false.
Proof.
  destruct a as [[|x a]|], b as [[|y b]|]; cbn; intro H; try reflexivity; discriminate.
Qed.

Lemma next_tail_fixed a b d : d <> [] -> collapse_ws d = d ->
  (truthy a && truthy b && needs_space (safe_str a) (safe_str b) = true -> starts_ws d = true) ->
  next_tail a b (Some d) = Some d.
Proof.
  intros Hd Cd Hs. unfold next_tail.
  destruct (truthy a && truthy b) eqn:Eab.
  - destruct (needs_space (safe_str a) (safe_str b)) eqn:En; [|reflexivity].
    cbn [safe_str]. destruct d as [|x d]; [congruence|].
    rewrite (Hs eq_refl). exact (f_equal Some Cd).
  - rewrite (needs_space_not_both _ _ Eab). cbn [safe_str]. destruct d as [|x d]; [congruence|].
    exact (f_equal Some Cd).
Qed.

(** The row step on one tail is idempotent. *)
Lemma tail_step_idem a b t :
  prev_tail (next_tail a b (prev_tail (next_tail a b t) b)) b = prev_tail (next_tail a b t) b.
Proof.
  destruct (truthy a && truthy b) eqn:Eab;
    [destruct (needs_space (safe_str a) (safe_str b)) eqn:En|].
  - set (c := collapse_ws (match safe_str t with
                           | [] => [" "%char]
                           | t' => if starts_ws t' then t' else " "%char :: t'
                           end)).
    assert (Nt : next_tail a b t = Some c) by (unfold next_tail; rewrite Eab, En; reflexivity).
    assert (Sc : starts_ws c = true /\ c <> []).
    { unfold c. destruct (safe_str t) as [|x t'].
      - split; [reflexivity|apply collapse_nonempty; discriminate].
      - destruct (starts_ws (x :: t')) eqn:Es.
        + split; [exact (starts_ws_collapse _ Es)|apply collapse_nonempty; discriminate].
        + split; [apply starts_ws_collapse; reflexivity|apply collapse_nonempty; discriminate]. }
    destruct Sc as [Sc Nc].
    destruct (prev_tail_fp c b Nc) as [d [E1 [Nd [Cd [Pd Sd]]]]].
    rewrite Nt, E1, next_tail_fixed; auto.
  - assert (Nt : forall t, next_tail a b t = t) by (intro; unfold next_tail; rewrite Eab, En; reflexivity).
    rewrite !Nt. destruct t as [[|x t]|]; try (rewrite !prev_tail_falsy; reflexivity).
    destruct (prev_tail_fp (x :: t) b ltac:(discriminate)) as [d [E1 [_ [_ [Pd _]]]]].
    rewrite E1, Pd. reflexivity.
  - assert (Nt : forall t, next_tail a b t =
               match safe_str t with [] => Some [] | t' => Some (collapse_ws t') end).
    { intro t'. unfold next_tail. rewrite Eab, (needs_space_not_both _ _ Eab).
      destruct (safe_str t'); reflexivity. }
    rewrite (Nt t). destruct (safe_str t) as [|x t'] eqn:Es.
    + rewrite (prev_tail_falsy (Some [])) by reflexivity. rewrite Nt. cbn [safe_str].
      apply prev_tail_falsy. reflexivity.
    + destruct (prev_tail_fp (collapse_ws (x :: t')) b ltac:(apply collapse_nonempty; discriminate))
        as [d [E1 [Nd [Cd [Pd _]]]]].
      rewrite E1, Nt. cbn [safe_str]. destruct d as [|y d]; [congruence|].
      rewrite Cd, Pd. reflexivity.
Qed.

Lemma el_tail_set_tail x e : el_tail (set_tail x e) = x.
Proof. destruct e; reflexivity. Qed.

Lemma el_text_set_tail x e : el_text (set_tail x e) = el_text e.
Proof. destruct e; reflexivity. Qed.

Lemma set_tail_set_tail x y e : set_tail x (set_tail y e) = set_tail x e.
Proof. destruct e; reflexivity. Qed.

Lemma set_tail_same e : set_tail (el_tail e) e = e.
Proof. destruct e; reflexivity. Qed.

Lemma spacing_next_eq k n :
  spacing_next k n = set_tail (next_tail (el_text k) (el_text n) (el_tail k)) k.
Proof.
  unfold spacing_next, next_tail.
  destruct (truthy (el_text k) && truthy (el_text n)).
  - destruct (needs_space (safe_str (el_text k)) (safe_str (el_text n)));
      [destruct (safe_str (el_tail k)); reflexivity|symmetry; apply set_tail_same].
  - destruct (safe_str (el_tail k)); reflexivity.
Qed.

Lemma spacing_prev_fst p c :
  fst (spacing_prev p c) = set_tail (prev_tail (el_tail p) (el_text c)) p.
Proof.
  unfold spacing_prev, prev_tail.
  destruct (truthy (el_tail p)), (truthy (el_text c)); cbn [andb negb fst];
    try reflexivity; try (symmetry; apply set_tail_same).
  destruct (needs_space _ _); symmetry; apply set_tail_same.
Qed.

(** After [spacing_next p0 c], the [spacing_prev] block never rewrites
    the text of [c]. *)
Lemma spacing_prev_snd p0 c : snd (spacing_prev (spacing_next p0 c) c) = c.
Proof.
  rewrite spacing_next_eq. unfold spacing_prev.
  rewrite el_tail_set_tail, el_text_set_tail.
  destruct (truthy (next_tail (el_text p0) (el_text c) (el_tail p0))) eqn:Tn;
    destruct (truthy (el_text c)) eqn:Tc; cbn [andb negb snd]; try reflexivity.
  destruct (needs_space (safe_str (el_text p0)) (safe_str (el_text c))) eqn:En; [|reflexivity].
  exfalso. unfold next_tail in Tn.
  destruct (truthy (el_text p0)) eqn:Tp.
  - rewrite Tc, En in Tn. cbn [andb] in Tn.
    destruct (match safe_str (el_tail p0) with
              | [] => [" "%char]
              | t' => if starts_ws t' then t' else " "%char :: t'
              end) as [|x l] eqn:Ep.
    + destruct (safe_str (el_tail p0)); [discriminate|].
      cbv zeta in Ep. destruct (starts_ws _); discriminate.
    + pose proof (collapse_nonempty (x :: l) ltac:(discriminate)) as Ne.
      destruct (collapse_ws (x :: l)); [congruence|discriminate].
  - rewrite (needs_space_not_both (el_text p0) (el_text c)) in En by (rewrite Tp; reflexivity).
    discriminate.
Qed.

Lemma row_fix_eq k n :
  row_fix k n = set_tail (prev_tail (next_tail (el_text k) (el_text n) (el_tail k)) (el_text n)) k.
Proof.
  unfold row_fix. rewrite spacing_prev_fst, spacing_next_eq, el_tail_set_tail, set_tail_set_tail.
  reflexivity.
Qed.

Lemma el_text_row_fix k n : el_text (row_fix k n) = el_text k.
Proof. rewrite row_fix_eq. apply el_text_set_tail. Qed.

Lemma row_fix_text k n m : el_text n = el_text m -> row_fix k n = row_fix k m.
Proof. intro H. rewrite !row_fix_eq, H. reflexivity. Qed.

Lemma row_fix_idem k n : row_fix (row_fix k n) n = row_fix k n.
Proof.
  rewrite (row_fix_eq (row_fix k n)), el_text_row_fix.
  rewrite !(row_fix_eq k n), el_tail_set_tail, set_tail_set_tail, tail_step_idem.
  reflexivity.
Qed.

Lemma spacing_kids_cons p cur rest :
  spacing_kids (Some p) (cur :: rest)
  = fst (spacing_prev p cur)
    :: spacing_kids (Some (match rest with
                           | n :: _ => spacing_next (snd (spacing_prev p cur)) n
                           | [] => snd (spacing_prev p cur)
                           end)) rest.
Proof. cbn [spacing_kids]. destruct (spacing_prev p cur); reflexivity. Qed.

Lemma spacing_kids_some rest : forall p0 cur,
  spacing_kids (Some (spacing_next p0 cur)) (cur :: rest) = row_fix p0 cur :: fixup (cur :: rest).
Proof.
  induction rest as [|n rest IH]; intros p0 cur;
    rewrite spacing_kids_cons, spacing_prev_snd; fold (row_fix p0 cur).
  - reflexivity.
  - rewrite IH. reflexivity.
Qed.

Lemma spacing_kids_fixup ks : spacing_kids None ks = fixup ks.
Proof.
  destruct ks as [|k [|n r]]; try reflexivity.
  cbn [spacing_kids app]. apply spacing_kids_some.
Qed.

Lemma fixup_head n r : exists m rest, fixup (n :: r) = m :: rest /\ el_text m = el_text n.
Proof.
  destruct r as [|n' r]; cbn [fixup]; do 2 eexists; split; try reflexivity.
  apply el_text_row_fix.
Qed.

Lemma fixup_idem ks : fixup (fixup ks) = fixup ks.
Proof.
  induction ks as [|k [|n r] IH]; try reflexivity.
  change (fixup (k :: n :: r)) with (row_fix k n :: fixup (n :: r)).
  destruct (fixup_head n r) as [m [rest [E Hm]]].
  rewrite E in *. change (fixup (row_fix k n :: m :: rest))
    with (row_fix (row_fix k n) m :: fixup (m :: rest)).
  rewrite IH, (row_fix_text _ m n Hm), row_fix_idem. reflexivity.
Qed.

Lemma map_fixup f : (forall k n, f (row_fix k n) = row_fix (f k) (f n)) ->
  forall ks, map f (fixup ks) = fixup (map f ks).
Proof.
  intros Hf ks. induction ks as [|k [|n r] IH]; try reflexivity.
  change (fixup (k :: n :: r)) with (row_fix k n :: fixup (n :: r)).
  cbn [map]. rewrite Hf. cbn [map] in IH. rewrite IH. reflexivity.
Qed.

Lemma el_text_fix e : el_text (fix_spacing_around_tags e) = el_text e.
Proof. destruct e. rewrite fix_spacing_eq. reflexivity. Qed.

Lemma el_tail_fix e : el_tail (fix_spacing_around_tags e) = el_tail e.
Proof. destruct e. rewrite fix_spacing_eq. reflexivity. Qed.

Lemma fix_set_tail x e :
  fix_spacing_around_tags (set_tail x e) = set_tail x (fix_spacing_around_tags e).
Proof. destruct e. cbn [set_tail]. rewrite !fix_spacing_eq. reflexivity. Qed.

Lemma fix_row_fix k n :
  fix_spacing_around_tags (row_fix k n)
  = row_fix (fix_spacing_around_tags k) (fix_spacing_around_tags n).
Proof. rewrite !row_fix_eq, fix_set_tail, !el_text_fix, el_tail_fix. reflexivity. Qed.

(** C5: for every tree, running [fix_spacing_around_tags] twice gives the
    same tree as running it once. *)
Theorem fix_spacing_idempotent e :
  fix_spacing_around_tags (fix_spacing_around_tags e) = fix_spacing_around_tags e.
Proof.
  induction e as [t a n tx ch tl IH] using element_ind'.
  rewrite !fix_spacing_eq, !spacing_kids_fixup, (map_fixup _ fix_row_fix), map_map.
  assert (M : map (fun x => fix_spacing_around_tags (fix_spacing_around_tags x)) ch
              = map fix_spacing_around_tags ch).
  { induction IH as [|c ch Hc _ IHch]; [reflexivity|].
    cbn [map]. rewrite Hc, IHch. reflexivity. }
  rewrite M, fixup_idem. reflexivity.
Qed.

(** ** Placeholders and failing translation calls (C2 example, C4) *)

(** The brace variable of the example is not kept: the stub keeps the
    placeholder of the protected text, yet ["{name}"] is missing from the
    output. *)
Lemma brace_variable_not_preserved :
  contains (lit "{name}") hello_example = true /\
  contains (lit "__TK0__") (map upper_chr (fst (protect_nontranslatable hello_example))) = true /\
  contains (lit "{name}") (translate_text_unit upper_stub hello_example (lit "pt")) = false.
Proof. split; [|split]; vm_compute; reflexivity. Qed.

(** When the translation call raises, the text that comes back is the
    round trip of the protected text, which is not the original one:
    ["__TK0%a%"] becomes ["%a%TK0__"]. *)
Lemma raising_translator_changes_text :
  translate_text_unit raising (lit "__TK0%a%") (lit "pt") = lit "%a%TK0__".
Proof. vm_compute. reflexivity. Qed.

(** When the translation call raises, [translate_text_unit] returns its text
    unchanged whenever the text does not contain ["TK"]. *)
Theorem raising_translator_keeps_text tr lang text :
  (forall t, tr lang t = None) -> has_TK text = false ->
  translate_text_unit tr text lang = text.
Proof.
  intros Hr H. unfold translate_text_unit.
  destruct (is_blank text); [reflexivity|].
  pose proof (round_trip_no_TK text H) as R. unfold round_trip in R.
  destruct (protect_nontranslatable text) as [t toks].
  rewrite Hr. exact R.
Qed.

Lemma raising_translator_keeps_text_witness :
  has_TK (lit "x 5 %v% www.a") = false /\
  translate_text_unit raising (lit "x 5 %v% www.a") (lit "pt") = lit "x 5 %v% www.a".
Proof.
  split; [reflexivity|].
  apply (raising_translator_keeps_text raising (lit "pt") (lit "x 5 %v% www.a"));
    [intro t; reflexivity | reflexivity].
Defined.

(** ** What the spacing fix does to texts and tails *)

Lemma all_texts_set_tail x e : all_texts (set_tail x e) = all_texts e.
Proof. destruct e; reflexivity. Qed.

Lemma tails_ok_set_tail x e : tails_ok (set_tail x e) = tails_ok e.
Proof. destruct e; reflexivity. Qed.

Lemma map_row_fix_inv (f : element -> bool) :
  (forall x e, f (set_tail x e) = f e) ->
  forall ks, forallb f (fixup ks) = forallb f ks.
Proof.
  intros Hf ks. induction ks as [|k [|n r] IH]; try reflexivity.
  change (fixup (k :: n :: r)) with (row_fix k n :: fixup (n :: r)).
  cbn [forallb]. rewrite row_fix_eq, Hf. cbn [forallb] in IH. rewrite IH. reflexivity.
Qed.

Lemma flat_map_fixup_texts ks : flat_map all_texts (fixup ks) = flat_map all_texts ks.
Proof.
  induction ks as [|k [|n r] IH]; try reflexivity.
  change (fixup (k :: n :: r)) with (row_fix k n :: fixup (n :: r)).
  cbn [flat_map]. rewrite row_fix_eq, all_texts_set_tail.
  cbn [flat_map] in IH. rewrite IH. reflexivity.
Qed.

(** Spacing fix: every element keeps its [.text]. *)
Theorem fix_spacing_keeps_texts e :
  shape (fix_spacing_around_tags e) = shape e /\
  all_texts (fix_spacing_around_tags e) = all_texts e.
Proof.
  split; [apply shape_fix_spacing|].
  induction e as [t a n tx ch tl IH] using element_ind'.
  rewrite fix_spacing_eq, spacing_kids_fixup. cbn [all_texts el_text el_children].
  rewrite flat_map_fixup_texts. f_equal.
  induction IH as [|c ch Hc _ IHch]; [reflexivity|].
  cbn [map flat_map]. rewrite Hc, IHch. reflexivity.
Qed.

Lemma tail_ok_prev_tail u b : tail_ok (prev_tail u b) = true.
Proof.
  unfold prev_tail.
  destruct (truthy u) eqn:Tu; cbn [andb negb].
  - destruct (truthy b); cbn [tail_ok]; apply collapse_go_nrm; reflexivity.
  - destruct u as [[|x u]|]; try reflexivity. discriminate.
Qed.

Lemma row_ok_fixup ks : row_ok (fixup ks) = true.
Proof.
  induction ks as [|k [|n r] IH]; try reflexivity.
  change (fixup (k :: n :: r)) with (row_fix k n :: fixup (n :: r)).
  destruct (fixup_head n r) as [m [rest [E _]]].
  rewrite E in *.
  change (row_ok (row_fix k n :: m :: rest)) with (tail_ok (el_tail (row_fix k n)) && row_ok (m :: rest)).
  rewrite IH, row_fix_eq, el_tail_set_tail, tail_ok_prev_tail.
  reflexivity.
Qed.

(** Spacing fix: in the output, the tail of every child but the last is
    [None], or has no two adjacent whitespace characters. *)
Theorem fix_spacing_tails_collapsed e : tails_ok (fix_spacing_around_tags e) = true.
Proof.
  induction e as [t a n tx ch tl IH] using element_ind'.
  rewrite fix_spacing_eq, spacing_kids_fixup. cbn [tails_ok el_children].
  rewrite row_ok_fixup, (map_row_fix_inv tails_ok tails_ok_set_tail). cbn [andb].
  induction IH as [|c ch Hc _ IHch]; [reflexivity|].
  cbn [map forallb]. rewrite Hc, IHch. reflexivity.
Qed.

Lemma nth_fixup ks : forall i k n,
  nth_error ks i = Some k -> nth_error ks (S i) = Some n ->
  nth_error (fixup ks) i = Some (row_fix k n).
Proof.
  induction ks as [|k0 ks IH]; intros i k n H1 H2; [destruct i; discriminate|].
  destruct ks as [|n0 r]; [destruct i; discriminate|].
  change (fixup (k0 :: n0 :: r)) with (row_fix k0 n0 :: fixup (n0 :: r)).
  destruct i as [|i].
  - cbn in H1, H2. injection H1 as <-. injection H2 as <-. reflexivity.
  - cbn [nth_error] in *. apply IH; assumption.
Qed.

Lemma tail_step_starts_ws a b t :
  truthy a = true -> truthy b = true -> needs_space (safe_str a) (safe_str b) = true ->
  starts_ws (safe_str (prev_tail (next_tail a b t) b)) = true.
Proof.
  intros Ta Tb En.
  set (c := collapse_ws (match safe_str t with
                         | [] => [" "%char]
                         | t' => if starts_ws t' then t' else " "%char :: t'
                         end)).
  assert (Nt : next_tail a b t = Some c) by (unfold next_tail; rewrite Ta, Tb, En; reflexivity).
  assert (Sc : starts_ws c = true /\ c <> []).
  { unfold c. destruct (safe_str t) as [|x t'].
    - split; [reflexivity|apply collapse_nonempty; discriminate].
    - destruct (starts_ws (x :: t')) eqn:Es.
      + split; [exact (starts_ws_collapse _ Es)|apply collapse_nonempty; discriminate].
      + split; [apply starts_ws_collapse; reflexivity|apply collapse_nonempty; discriminate]. }
  destruct Sc as [Sc Nc].
  destruct (prev_tail_fp c b Nc) as [d [E1 [_ [_ [_ Sd]]]]].
  rewrite Nt, E1. exact (Sd Sc).
Qed.

(** Spacing fix: when two adjacent children both have a text and the
    first text ends with a letter, digit or one of [,.;:!?] and the second
    starts with a letter or digit, the tail between them starts with a
    whitespace character in the output. *)
Theorem fix_spacing_separates_words e i k n :
  nth_error (el_children e) i = Some k ->
  nth_error (el_children e) (S i) = Some n ->
  truthy (el_text k) = true -> truthy (el_text n) = true ->
  needs_space (safe_str (el_text k)) (safe_str (el_text n)) = true ->
  exists k', nth_error (el_children (fix_spacing_around_tags e)) i = Some k' /\
             starts_ws (safe_str (el_tail k')) = true.
Proof.
  intros H1 H2 Tk Tn En. destruct e as [t a ns tx ch tl].
  rewrite fix_spacing_eq, spacing_kids_fixup. cbn [el_children] in *.
  exists (row_fix (fix_spacing_around_tags k) (fix_spacing_around_tags n)). split.
  - apply nth_fixup; rewrite nth_error_map; [rewrite H1|rewrite H2]; reflexivity.
  - rewrite row_fix_eq, el_tail_set_tail, !el_text_fix, el_tail_fix.
    apply tail_step_starts_ws; assumption.
Qed.

Lemma fix_spacing_separates_words_witness :
  exists k', nth_error (el_children (fix_spacing_around_tags words_example)) 0 = Some k' /\
             starts_ws (safe_str (el_tail k')) = true.
Proof.
  apply (fix_spacing_separates_words words_example 0
           (Elem (QName None (lit "b")) [] [] (Some (lit "Hello")) [] None)
           (Elem (QName None (lit "i")) [] [] (Some (lit "world")) [] None));
    vm_compute; reflexivity.
Defined.

(** ** Storyline utilities: target states and the target language *)

Lemma str_eqb_refl s : str_eqb s s = true.
Proof. unfold str_eqb. destruct (list_eq_dec ascii_dec s s); congruence. Qed.

Lemma str_eqb_eq a b : str_eqb a b = true <-> a = b.
Proof. unfold str_eqb. destruct (list_eq_dec ascii_dec a b); split; congruence. Qed.

Lemma attr_get_set_same k v a : attr_get k (attr_set k v a) = Some v.
Proof.
  induction a as [|[k' v'] a IH]; cbn [attr_set attr_get].
  - destruct (list_eq_dec ascii_dec k k); congruence.
  - destruct (list_eq_dec ascii_dec k k') as [->|Hne]; cbn [attr_get].
    + destruct (list_eq_dec ascii_dec k' k'); congruence.
    + destruct (list_eq_dec ascii_dec k k'); [congruence|exact IH].
Qed.

Lemma attr_get_set_other k k2 v a : k2 <> k -> attr_get k2 (attr_set k v a) = attr_get k2 a.
Proof.
  intro Hk. induction a as [|[k' v'] a IH]; cbn [attr_set attr_get].
  - destruct (list_eq_dec ascii_dec k2 k); [congruence|reflexivity].
  - destruct (list_eq_dec ascii_dec k k') as [->|Hne]; cbn [attr_get].
    + destruct (list_eq_dec ascii_dec k2 k'); [congruence|reflexivity].
    + destruct (list_eq_dec ascii_dec k2 k'); [reflexivity|exact IH].
Qed.

Lemma attr_set_set k v w a : attr_set k v (attr_set k w a) = attr_set k v a.
Proof.
  induction a as [|[k' v'] a IH]; cbn [attr_set].
  - destruct (list_eq_dec ascii_dec k k); congruence.
  - destruct (list_eq_dec ascii_dec k k') as [->|Hne]; cbn [attr_set].
    + destruct (list_eq_dec ascii_dec k' k'); congruence.
    + destruct (list_eq_dec ascii_dec k k'); [congruence|]. rewrite IH. reflexivity.
Qed.

Lemma el_attrib_set_attrib a e : el_attrib (set_attrib a e) = a.
Proof. destruct e; reflexivity. Qed.

Lemma el_tag_set_attrib a e : el_tag (set_attrib a e) = el_tag e.
Proof. destruct e; reflexivity. Qed.

Lemma el_children_set_attrib a e : el_children (set_attrib a e) = el_children e.
Proof. destruct e; reflexivity. Qed.

Lemma set_attrib_set_attrib a b e : set_attrib a (set_attrib b e) = set_attrib a e.
Proof. destruct e; reflexivity. Qed.

(** *** Paths into an updated tree *)

Lemma get_at_same_children f p : forall e,
  el_children (f e) = el_children e -> p <> [] -> get_at p (f e) = get_at p e.
Proof. intros e H Hp. destruct p as [|k p]; [congruence|]. cbn [get_at]. rewrite H. reflexivity. Qed.

(** Updating the node at [p] with a function that keeps the children
    changes no attribute at another path. *)
Lemma attrib_upd_other p f : (forall x, el_children (f x) = el_children x) ->
  forall q e, q <> p ->
  option_map el_attrib (get_at q (upd_at p f e)) = option_map el_attrib (get_at q e).
Proof.
  intro Hf. induction p as [|k p IH]; intros q e Hq.
  - cbn [upd_at]. rewrite get_at_same_children; auto.
  - cbn [upd_at]. destruct (nth_error (el_children e) k) as [c|] eqn:E; [|reflexivity].
    destruct q as [|k2 q].
    + cbn [get_at option_map]. destruct e; reflexivity.
    + cbn [get_at]. rewrite children_set_children.
      destruct (Nat.eq_dec k2 k) as [->|Hne].
      * rewrite nth_error_list_set_same by (apply nth_error_Some; congruence).
        rewrite E. apply IH. congruence.
      * rewrite nth_error_list_set_other by exact Hne. reflexivity.
Qed.

Lemma el_tag_upd p f : (forall x, el_tag (f x) = el_tag x) ->
  forall e, el_tag (upd_at p f e) = el_tag e.
Proof.
  intro Hf. destruct p as [|k p]; intro e; cbn [upd_at]; [apply Hf|].
  destruct (nth_error (el_children e) k); [destruct e; reflexivity|reflexivity].
Qed.

Lemma el_attrib_upd_cons k p f e : el_attrib (upd_at (k :: p) f e) = el_attrib e.
Proof. cbn [upd_at]. destruct (nth_error (el_children e) k); [destruct e|]; reflexivity. Qed.

Lemma el_nsdecl_upd_cons k p f e : el_nsdecl (upd_at (k :: p) f e) = el_nsdecl e.
Proof. cbn [upd_at]. destruct (nth_error (el_children e) k); [destruct e|]; reflexivity. Qed.

Lemma upd_at_twice p f g : forall e,
  (forall x, el_children (g x) = el_children x) ->
  upd_at p f (upd_at p g e) = upd_at p (fun x => f (g x)) e.
Proof.
  induction p as [|k p IH]; intros e Hg; cbn [upd_at]; [reflexivity|].
  destruct (nth_error (el_children e) k) as [c|] eqn:E; cbn [upd_at].
  - rewrite children_set_children, nth_error_list_set_same by (apply nth_error_Some; congruence).
    rewrite IH by exact Hg.
    destruct e as [t a n x ch tl]. cbn [set_children el_children] in *.
    f_equal. clear -E. revert k E. induction ch as [|y ch IHc]; intros [|k] E; cbn in *;
      try discriminate; [reflexivity|]. rewrite IHc; auto.
  - rewrite E. reflexivity.
Qed.

(** *** Descendants *)

Lemma descendants_eq e : descendants e = desc_go descendants 0 (el_children e).
Proof. destruct e; reflexivity. Qed.

Lemma tag_view_shift i l :
  tag_view (map (fun qx => (i :: fst qx, snd qx)) l)
  = map (fun qt => (i :: fst qt, snd qt)) (tag_view l).
Proof. unfold tag_view. rewrite !map_map. reflexivity. Qed.

Lemma tag_view_app l m : tag_view (l ++ m) = tag_view l ++ tag_view m.
Proof. apply map_app. Qed.

Lemma desc_go_list_set d k c' : forall l i c,
  nth_error l k = Some c -> el_tag c' = el_tag c -> tag_view (d c') = tag_view (d c) ->
  tag_view (desc_go d i (list_set k c' l)) = tag_view (desc_go d i l).
Proof.
  induction k as [|k IH]; intros [|y l] i c E Ht Hd; try discriminate.
  - cbn in E. injection E as <-. cbn [list_set desc_go].
    rewrite !tag_view_app. cbn [app].
    change (tag_view (([i], c') :: ?l)) with (([i], el_tag c') :: tag_view l).
    change (tag_view (([i], y) :: ?l)) with (([i], el_tag y) :: tag_view l).
    rewrite !tag_view_shift, Ht, Hd. reflexivity.
  - cbn [list_set desc_go]. rewrite !tag_view_app.
    f_equal. apply (IH l (S i) c); assumption.
Qed.

Lemma tag_view_upd p f : (forall x, el_tag (f x) = el_tag x) ->
  (forall x, el_children (f x) = el_children x) ->
  forall e, tag_view (descendants (upd_at p f e)) = tag_view (descendants e).
Proof.
  intros Ht Hc. induction p as [|k p IH]; intro e; cbn [upd_at].
  - rewrite !descendants_eq, Hc. reflexivity.
  - destruct (nth_error (el_children e) k) as [c|] eqn:E; [|reflexivity].
    rewrite !(descendants_eq (set_children _ _)), children_set_children, (descendants_eq e).
    apply (desc_go_list_set descendants k _ _ 0 c E); [apply el_tag_upd, Ht|apply IH].
Qed.

Lemma find_tag_view (P : qname -> bool) l l' :
  tag_view l = tag_view l' ->
  option_map fst (List.find (fun qx => P (el_tag (snd qx))) l)
  = option_map fst (List.find (fun qx => P (el_tag (snd qx))) l').
Proof.
  revert l'. induction l as [|[q x] l IH]; intros [|[q' x'] l'] H; try discriminate; [reflexivity|].
  cbn in H. injection H as Hq Hx Hl. subst q'. cbn [List.find fst snd].
  rewrite Hx. destruct (P (el_tag x')); [reflexivity|]. apply IH. exact Hl.
Qed.

Lemma file_lang_path_upd p f : (forall x, el_tag (f x) = el_tag x) ->
  (forall x, el_children (f x) = el_children x) ->
  forall e, file_lang_path (upd_at p f e) = file_lang_path e.
Proof.
  intros Ht Hc e. unfold file_lang_path, find_desc, is_named.
  apply (find_tag_view (fun t => str_eqb (q_local t) (lit "file"))).
  apply tag_view_upd; assumption.
Qed.

Lemma desc_go_paths d : forall l i q x, In (q, x) (desc_go d i l) -> q <> [].
Proof.
  induction l as [|c l IH]; intros i q x H; cbn [desc_go] in H; [contradiction|].
  apply in_app_or in H as [[H|H]|H].
  - injection H as <- _. discriminate.
  - apply in_map_iff in H as [[q' x'] [E _]]. cbn in E. injection E as <- _. discriminate.
  - exact (IH _ _ _ H).
Qed.

Lemma find_desc_nonempty P e p : find_desc P e = Some p -> p <> [].
Proof.
  unfold find_desc. destruct (List.find _ _) as [[q x]|] eqn:E; [|discriminate].
  cbn. intro H. injection H as <-. apply find_some in E as [E _].
  rewrite descendants_eq in E. exact (desc_go_paths _ _ _ _ _ E).
Qed.

(** *** [set_storyline_target_state] *)

Lemma states_below_eq v t a n tx ch tl :
  states_below v (Elem t a n tx ch tl)
  = Elem t a n tx (map (fun c => mark_state v (states_below v c)) ch) tl.
Proof. simpl; f_equal; try (induction ch as [|c ch IH]; simpl; congruence). Qed.

Lemma mark_state_children v e : el_children (mark_state v e) = el_children e.
Proof.
  unfold mark_state. destruct (is_named _ e); [|reflexivity].
  destruct (attr_get _ _); [reflexivity|apply el_children_set_attrib].
Qed.

Lemma states_below_attrib v e : el_attrib (states_below v e) = el_attrib e.
Proof. destruct e. rewrite states_below_eq. reflexivity. Qed.

Lemma states_below_tag v e : el_tag (states_below v e) = el_tag e.
Proof. destruct e. rewrite states_below_eq. reflexivity. Qed.

Lemma get_at_states v p : forall e, p <> [] ->
  get_at p (states_below v e) = option_map (fun x => mark_state v (states_below v x)) (get_at p e).
Proof.
  induction p as [|k p IH]; intros e Hp; [congruence|].
  destruct e as [t a n tx ch tl]. rewrite states_below_eq. cbn [get_at el_children].
  rewrite nth_error_map. destruct (nth_error ch k) as [c|]; [|reflexivity]. cbn [option_map].
  destruct p as [|k2 p]; [reflexivity|].
  rewrite get_at_same_children by (apply mark_state_children || discriminate).
  apply IH. discriminate.
Qed.

(** [set_storyline_target_state] gives every [target] below the root a
    [state]: an existing one is kept, a missing one becomes
    [state_value]. *)
Theorem storyline_state_kept_or_set root v p x :
  p <> [] -> get_at p root = Some x -> is_named (lit "target") x = true ->
  exists y, get_at p (set_storyline_target_state root v) = Some y /\
    attr_get (lit "state") (el_attrib y)
    = Some (match attr_get (lit "state") (el_attrib x) with Some s => s | None => v end).
Proof.
  intros Hp Hx Ht. unfold set_storyline_target_state. rewrite get_at_states, Hx by exact Hp.
  eexists. split; [reflexivity|].
  unfold mark_state. unfold is_named in *. rewrite states_below_tag, Ht, states_below_attrib.
  destruct (attr_get (lit "state") (el_attrib x)) as [s|] eqn:E.
  - rewrite states_below_attrib. exact E.
  - rewrite el_attrib_set_attrib. apply attr_get_set_same.
Qed.

(** *** [set_target_language] *)

Lemma LANG_MAP_dash lang m : attr_get lang LANG_MAP = Some m -> contains (lit "-") m = true.
Proof.
  unfold LANG_MAP. cbn [attr_get].
  repeat (destruct (list_eq_dec ascii_dec _ _); [intro H; injection H as <-; reflexivity|]).
  discriminate.
Qed.

Lemma upd_at_ext p f g : (forall x, f x = g x) -> forall e, upd_at p f e = upd_at p g e.
Proof.
  intro H. induction p as [|k p IH]; intro e; cbn [upd_at]; [apply H|].
  destruct (nth_error (el_children e) k); [rewrite IH|]; reflexivity.
Qed.

(** For an XLIFF 1.2 document, [set_target_language] changes only the
    first [file] element: its [target-language] becomes the regional code
    of [MAP] for a mapped language, and otherwise [lang-REGION] when the
    file's [source-language] has a region and [lang] has none, or [lang]
    itself; its other attributes and the attributes of every other
    element are unchanged. *)
Theorem set_target_language_first_file root lang p f :
  detect_version root = lit "1.2" ->
  file_lang_path root = Some p -> get_at p root = Some f ->
  exists f', get_at p (set_target_language root lang) = Some f' /\
    attr_get (lit "target-language") (el_attrib f')
    = Some (match attr_get lang LANG_MAP with
            | Some m => m
            | None =>
                match attr_get (lit "source-language") (el_attrib f) with
                | Some s => if contains (lit "-") s && negb (contains (lit "-") lang)
                            then lang ++ lit "-" ++ after_dash s else lang
                | None => lang
                end
            end) /\
    (forall k, k <> lit "target-language" -> attr_get k (el_attrib f') = attr_get k (el_attrib f)) /\
    (forall q, q <> p -> option_map el_attrib (get_at q (set_target_language root lang))
                         = option_map el_attrib (get_at q root)).
Proof.
  intros Hv Hp Hf. unfold set_target_language. rewrite Hv, str_eqb_refl, Hp, Hf.
  rewrite get_at_upd_same, Hf. cbn [option_map]. eexists. split; [reflexivity|].
  rewrite el_attrib_set_attrib. split; [|split].
  - rewrite attr_get_set_same. f_equal.
    destruct (attr_get lang LANG_MAP) as [m|] eqn:Em.
    + rewrite (LANG_MAP_dash _ _ Em), andb_false_r. reflexivity.
    + destruct (attr_get (lit "source-language") (el_attrib f)) as [[|c s]|]; reflexivity.
  - intros k Hk. apply attr_get_set_other. exact Hk.
  - intros q Hq. apply attrib_upd_other; [intro; apply el_children_set_attrib|exact Hq].
Qed.

Lemma descendants_set_attrib a e : descendants (set_attrib a e) = descendants e.
Proof. destruct e; reflexivity. Qed.

Lemma stl_detect root lang :
  detect_version (set_target_language root lang) = detect_version root.
Proof.
  unfold set_target_language at 1.
  destruct (str_eqb (detect_version root) (lit "1.2")).
  - destruct (file_lang_path root) as [p|] eqn:Hp; [|reflexivity].
    destruct p as [|k p]; [exfalso; exact (find_desc_nonempty _ _ _ Hp eq_refl)|].
    unfold detect_version. rewrite el_attrib_upd_cons, el_nsdecl_upd_cons. reflexivity.
  - unfold detect_version at 1. rewrite el_attrib_set_attrib, attr_get_set_other by discriminate.
    destruct root; reflexivity.
Qed.

Lemma stl_file root lang :
  file_lang_path (set_target_language root lang) = file_lang_path root.
Proof.
  unfold set_target_language at 1.
  destruct (str_eqb (detect_version root) (lit "1.2")).
  - destruct (file_lang_path root) as [p|] eqn:Hp; [|exact Hp].
    rewrite file_lang_path_upd; [exact Hp| |]; intro x;
      [apply el_tag_set_attrib|apply el_children_set_attrib].
  - unfold file_lang_path, find_desc. rewrite descendants_set_attrib. reflexivity.
Qed.

Lemma stl_source root lang p :
  match get_at p (set_target_language root lang) with
  | Some f => attr_get (lit "source-language") (el_attrib f) | None => None end
  = match get_at p root with
    | Some f => attr_get (lit "source-language") (el_attrib f) | None => None end.
Proof.
  unfold set_target_language.
  destruct (str_eqb (detect_version root) (lit "1.2")).
  - destruct (file_lang_path root) as [q|] eqn:Hq; [|reflexivity].
    destruct (list_eq_dec Nat.eq_dec p q) as [->|Hne].
    + rewrite get_at_upd_same. destruct (get_at q root); [|reflexivity].
      cbn [option_map]. rewrite el_attrib_set_attrib, attr_get_set_other by discriminate.
      reflexivity.
    + pose proof (attrib_upd_other q (fun f => set_attrib (attr_set (lit "target-language")
         (if truthy match get_at q root with
                    | Some f => attr_get (lit "source-language") (el_attrib f)
                    | None => None end &&
             contains (lit "-") (safe_str match get_at q root with
                    | Some f => attr_get (lit "source-language") (el_attrib f)
                    | None => None end) &&
             negb (contains (lit "-") match attr_get lang LANG_MAP with
                    | Some t => t | None => lang end)
          then lang ++ lit "-" ++ after_dash (safe_str match get_at q root with
                    | Some f => attr_get (lit "source-language") (el_attrib f)
                    | None => None end)
          else match attr_get lang LANG_MAP with Some t => t | None => lang end)
         (el_attrib f)) f) (fun x => el_children_set_attrib _ x) p root Hne) as E.
      destruct (get_at p (upd_at _ _ root)), (get_at p root); cbn in E; try discriminate;
        [injection E as ->|]; reflexivity.
  - destruct p as [|k p].
    + cbn [get_at]. rewrite el_attrib_set_attrib, attr_get_set_other by discriminate. reflexivity.
    + rewrite get_at_same_children by (apply el_children_set_attrib || discriminate). reflexivity.
Qed.

Lemma stl_src_lang root lang :
  attr_get (lit "srcLang") (el_attrib (set_target_language root lang))
  = attr_get (lit "srcLang") (el_attrib root).
Proof.
  unfold set_target_language at 1.
  destruct (str_eqb (detect_version root) (lit "1.2")).
  - destruct (file_lang_path root) as [p|] eqn:Hp; [|reflexivity].
    destruct p as [|k p]; [exfalso; exact (find_desc_nonempty _ _ _ Hp eq_refl)|].
    rewrite el_attrib_upd_cons. reflexivity.
  - rewrite el_attrib_set_attrib, attr_get_set_other by discriminate. reflexivity.
Qed.

(** Setting the target language twice is the same as setting it once. *)
Theorem set_target_language_idem root lang :
  set_target_language (set_target_language root lang) lang = set_target_language root lang.
Proof.
  unfold set_target_language at 1.
  rewrite stl_detect, stl_file, stl_src_lang.
  destruct (file_lang_path root) as [p|] eqn:Hp;
    [rewrite (stl_source root lang p)|].
  - unfold set_target_language.
    destruct (str_eqb (detect_version root) (lit "1.2")); rewrite ?Hp.
    + rewrite upd_at_twice by (intro; apply el_children_set_attrib).
      apply upd_at_ext. intro x. rewrite el_attrib_set_attrib, attr_set_set, set_attrib_set_attrib.
      reflexivity.
    + rewrite el_attrib_set_attrib, attr_set_set, set_attrib_set_attrib. reflexivity.
  - unfold set_target_language.
    destruct (str_eqb (detect_version root) (lit "1.2")); rewrite ?Hp; [reflexivity|].
    rewrite el_attrib_set_attrib, attr_set_set, set_attrib_set_attrib. reflexivity.
Qed.

Lemma storyline_state_kept_or_set_witness :
  exists y, get_at [0; 1] (set_storyline_target_state state_example (lit "translated")) = Some y /\
    attr_get (lit "state") (el_attrib y) = Some (lit "translated").
Proof.
  apply (storyline_state_kept_or_set state_example (lit "translated") [0; 1] state_target).
  - discriminate.
  - vm_compute; reflexivity.
  - vm_compute; reflexivity.
Defined.

Lemma set_target_language_first_file_witness :
  exists f', get_at [0] (set_target_language lang_example (lit "ja")) = Some f' /\
    attr_get (lit "target-language") (el_attrib f') = Some (lit "ja-GB") /\
    (forall k, k <> lit "target-language" -> attr_get k (el_attrib f') = attr_get k (el_attrib lang_file)) /\
    (forall q, q <> [0] -> option_map el_attrib (get_at q (set_target_language lang_example (lit "ja")))
                           = option_map el_attrib (get_at q lang_example)).
Proof.
  apply (set_target_language_first_file lang_example (lit "ja") [0] lang_file).
  - vm_compute; reflexivity.
  - vm_compute; reflexivity.
  - vm_compute; reflexivity.
Defined.

(** ** The Storyline text functions *)

Lemma storyline_patterns_eq : storyline_patterns = NONTRANS_PATTERNS.
Proof. reflexivity. Qed.

Lemma storyline_tu_eq tr text lang :
  translate_text_unit_storyline tr text lang = translate_text_unit tr text lang.
Proof.
  unfold translate_text_unit_storyline, translate_text_unit.
  destruct (is_blank text); [reflexivity|].
  change protect_nontranslatable_storyline with protect_nontranslatable.
  destruct (protect_nontranslatable text) as [t [|tok toks]]; reflexivity.
Qed.

(** [translate_text_unit_storyline] gives the same result as
    [translate_text_unit], for every text and language and every
    translation call that returns a string or raises. *)
Theorem storyline_text_unit_same tr text lang :
  translate_text_unit_storyline tr text lang = translate_text_unit tr text lang.
Proof. apply storyline_tu_eq. Qed.

Lemma translate_node_texts_storyline_eq tr lang t a n tx ch tl :
  translate_node_texts_storyline tr lang (Elem t a n tx ch tl)
  = Elem t a n (story_opt tr lang tx)
      (map (fun c => let c' := translate_node_texts_storyline tr lang c in
                     set_tail (story_opt tr lang (el_tail c')) c') ch) tl.
Proof. simpl; f_equal; try (induction ch as [|c ch IH]; simpl; congruence). Qed.

(** [translate_node_texts_storyline] keeps the structure of the element:
    children, nesting, tags, attributes and namespace declarations. *)
Theorem storyline_texts_keep_structure tr lang e :
  shape (translate_node_texts_storyline tr lang e) = shape e.
Proof.
  induction e as [t a n tx ch tl IH] using element_ind'.
  rewrite translate_node_texts_storyline_eq; simpl; f_equal.
  rewrite map_map. apply map_ext_Forall.
  eapply Forall_impl; [|exact IH]. intros c Hc; simpl.
  rewrite shape_set_tail; exact Hc.
Qed.

Lemma el_tail_tnts tr lang e : el_tail (translate_node_texts_storyline tr lang e) = el_tail e.
Proof. destruct e. rewrite translate_node_texts_storyline_eq. reflexivity. Qed.

Lemma el_tail_tnt tr lang e : el_tail (translate_node_texts tr lang e) = el_tail e.
Proof. destruct e. rewrite translate_node_texts_eq. reflexivity. Qed.

Lemma story_opt_plain tr lang x : plain_opt x = true -> story_opt tr lang x = translate_opt tr lang x.
Proof.
  destruct x as [t|]; [|reflexivity]. cbn [plain_opt story_opt translate_opt]. intro H.
  destruct (is_blank t); [reflexivity|].
  apply negb_true_iff in H. rewrite H, storyline_tu_eq. reflexivity.
Qed.

(** On a tree where no text or tail looks like pseudo-XML, the Storyline
    walk gives the same tree as [translate_node_texts], for every
    translation call that returns a string or raises. *)
Theorem storyline_texts_plain_same tr lang e :
  no_pseudo e = true ->
  translate_node_texts_storyline tr lang e = translate_node_texts tr lang e.
Proof.
  induction e as [t a n tx ch tl IH] using element_ind'. intro H.
  cbn [no_pseudo el_text el_children] in H. apply andb_true_iff in H as [Ht Hc].
  rewrite translate_node_texts_storyline_eq, translate_node_texts_eq, story_opt_plain by exact Ht.
  f_equal. apply map_ext_Forall. rewrite forallb_forall in Hc.
  rewrite Forall_forall in IH |- *. intros c Hin.
  specialize (Hc c Hin). apply andb_true_iff in Hc as [Hn Hl].
  cbv zeta. rewrite (IH c Hin Hn).
  rewrite story_opt_plain by (rewrite el_tail_tnt; exact Hl). reflexivity.
Qed.

(** *** The attribute pass *)

Lemma run_split p s : s = firstn (run p s) s ++ skipn (run p s) s /\
                      forallb p (firstn (run p s) s) = true.
Proof.
  induction s as [|c s IH]; [split; reflexivity|]. cbn [run].
  destruct (p c) eqn:E; [|split; reflexivity].
  cbn [firstn skipn app forallb]. rewrite E. destruct IH as [IH1 IH2].
  split; [congruence|exact IH2].
Qed.

Lemma run_stop_head p s c r : skipn (run p s) s = c :: r -> p c = false.
Proof.
  induction s as [|d s IH]; cbn [run]; [discriminate|].
  destruct (p d) eqn:E; [exact IH|]. cbn [skipn]. intro H. injection H as <- _. exact E.
Qed.

Lemma chr_eqb_eq a b : chr_eqb a b = true -> a = b.
Proof. unfold chr_eqb. apply Ascii.eqb_eq. Qed.

(** The shape of a match of [attr_value_at]. *)
Lemma attr_value_at_shape attr q s len v :
  attr_value_at attr q s = Some (len, v) ->
  exists w1 w2 rest,
    s = attr ++ w1 ++ "="%char :: w2 ++ q :: v ++ q :: rest /\
    forallb is_space w1 = true /\ forallb is_space w2 = true /\
    len = List.length (attr ++ w1 ++ "="%char :: w2 ++ q :: v ++ [q]).
Proof.
  unfold attr_value_at. destruct (strip_prefix attr s) as [r1|] eqn:E1; [|discriminate].
  apply strip_prefix_Some in E1.
  destruct (run_split is_space r1) as [S1 F1].
  destruct (skipn (run is_space r1) r1) as [|e r2] eqn:E2; [discriminate|].
  destruct (chr_eqb e "="%char) eqn:Ee; [|discriminate]. apply chr_eqb_eq in Ee. subst e.
  destruct (run_split is_space r2) as [S2 F2].
  destruct (skipn (run is_space r2) r2) as [|o r3] eqn:E3; [discriminate|].
  destruct (chr_eqb o q) eqn:Eo; [|discriminate]. apply chr_eqb_eq in Eo. subst o.
  destruct (run_split (fun x => negb (chr_eqb x q)) r3) as [S3 _].
  destruct (skipn (run (fun x => negb (chr_eqb x q)) r3) r3) as [|c rest] eqn:E4; [discriminate|].
  destruct (chr_eqb c q) eqn:Ec; [|discriminate]. apply chr_eqb_eq in Ec. subst c.
  intro H. injection H as <- <-.
  exists (firstn (run is_space r1) r1), (firstn (run is_space r2) r2), rest.
  split; [|split; [exact F1|split; [exact F2|]]].
  - rewrite E1. apply (f_equal (app _)).
    rewrite S1 at 1. apply (f_equal (app _)), (f_equal (cons _)).
    rewrite S2 at 1. apply (f_equal (app _)), (f_equal (cons _)).
    rewrite S3 at 1. reflexivity.
  - rewrite !length_app. cbn [List.length]. rewrite !length_app. cbn [List.length].
    rewrite length_app, !length_firstn. cbn [List.length].
    pose proof (run_le is_space r1). pose proof (run_le is_space r2).
    pose proof (run_le (fun x => negb (chr_eqb x q)) r3). lia.
Qed.

Lemma ws_eq_free_app_r l r : ws_eq_free (l ++ r) = true -> ws_eq_free r = true.
Proof.
  induction l as [|c l IH]; [exact (fun H => H)|]. intro H. apply IH.
  destruct l as [|d l].
  - destruct r as [|d r]; [reflexivity|]. cbn [app ws_eq_free] in H.
    apply andb_true_iff in H as [_ H]. exact H.
  - cbn [app ws_eq_free] in H. apply andb_true_iff in H as [_ H]. exact H.
Qed.

Lemma ws_eq_free_pair c d r :
  ws_eq_free (c :: d :: r) = true ->
  negb ((is_space c && chr_eqb d "="%char) || (chr_eqb c "="%char && is_space d)) = true.
Proof. cbn [ws_eq_free]. intro H. apply andb_true_iff in H as [H _]. exact H. Qed.

Lemma ws_eq_free_tail c r : ws_eq_free (c :: r) = true -> ws_eq_free r = true.
Proof. exact (ws_eq_free_app_r [c] r). Qed.

Lemma has_TK_tail c r : has_TK (c :: r) = false -> has_TK r = false.
Proof. cbn [has_TK]. intro H. apply orb_false_iff in H as [_ H]. exact H. Qed.

Lemma has_TK_app_r l r : has_TK (l ++ r) = false -> has_TK r = false.
Proof. induction l as [|c l IH]; [exact (fun H => H)|]. intro H. apply IH, (has_TK_tail c), H. Qed.

Lemma has_TK_app_l l r : has_TK (l ++ r) = false -> has_TK l = false.
Proof.
  induction l as [|c l IH]; [reflexivity|]. cbn [app has_TK]. intro H.
  apply orb_false_iff in H as [H1 H2]. rewrite (IH H2), orb_false_r.
  destruct l as [|d l]; [apply andb_false_r|exact H1].
Qed.

Lemma spaces_last w : forallb is_space w = true -> w <> [] ->
  exists l c, w = l ++ [c] /\ is_space c = true.
Proof.
  intros H Hw. destruct w as [|x w] using rev_ind; [congruence|].
  exists w, x. split; [reflexivity|].
  rewrite forallb_app in H. apply andb_true_iff in H as [_ H]. cbn in H.
  rewrite andb_true_r in H. exact H.
Qed.

Lemma space_ne_eq c : is_space c = true -> chr_eqb c "="%char = false.
Proof. destruct c as [[] [] [] [] [] [] [] []]; first [discriminate | reflexivity]. Qed.

(** Under [ws_eq_free], a match is [attr="v"] exactly. *)
Lemma attr_value_at_tight attr q s len v :
  attr_value_at attr q s = Some (len, v) -> ws_eq_free s = true ->
  exists rest, s = attr ++ "="%char :: q :: v ++ q :: rest /\
               len = List.length (attr ++ "="%char :: q :: v ++ [q]).
Proof.
  intros H Hw. destruct (attr_value_at_shape _ _ _ _ _ H) as [w1 [w2 [rest [Es [F1 [F2 El]]]]]].
  assert (W1 : w1 = []).
  { destruct w1 as [|x w1]; [reflexivity|exfalso].
    destruct (spaces_last (x :: w1) F1 ltac:(discriminate)) as [l [c [El' Hc]]].
    rewrite Es, El', <- !app_assoc in Hw. cbn [app] in Hw.
    apply ws_eq_free_app_r, ws_eq_free_app_r, ws_eq_free_pair in Hw.
    rewrite Hc in Hw. discriminate. }
  assert (W2 : w2 = []).
  { destruct w2 as [|x w2]; [reflexivity|exfalso]. cbn [forallb] in F2.
    apply andb_true_iff in F2 as [Hx _].
    rewrite Es, W1 in Hw. cbn [app] in Hw.
    apply ws_eq_free_app_r, ws_eq_free_pair in Hw.
    rewrite Hx in Hw. discriminate. }
  subst w1 w2. exists rest. split; [exact Es|exact El].
Qed.

Lemma resub_id m rep (P : str -> Prop) :
  (forall c r, P (c :: r) -> P r) ->
  (forall s k v, P s -> m s = Some (S k, v) -> rep v = firstn (S k) s) ->
  forall fuel s, P s -> resub m rep fuel s = s.
Proof.
  intros Ht Hm. assert (Hs : forall n s, P s -> P (skipn n s)).
  { induction n as [|n IH]; intros [|c s] H; cbn [skipn]; auto. apply IH, (Ht c), H. }
  induction fuel as [|f IH]; intros s H; [reflexivity|].
  destruct s as [|c r]; [reflexivity|]. cbn [resub].
  destruct (m (c :: r)) as [[[|k] v]|] eqn:E; try (rewrite IH by exact (Ht c r H); reflexivity).
  rewrite (Hm _ _ _ H E), IH by exact (Hs _ _ H). apply firstn_skipn.
Qed.

Lemma raising_tu_id tr lang v :
  (forall t, tr lang t = None) -> has_TK v = false -> translate_text_unit_storyline tr v lang = v.
Proof.
  intros Hr H. rewrite storyline_tu_eq. unfold translate_text_unit.
  destruct (is_blank v); [reflexivity|].
  pose proof (round_trip_no_TK v H) as R. unfold round_trip in R.
  destruct (protect_nontranslatable v) as [t toks]. rewrite Hr. exact R.
Qed.

Lemma attr_sub_id tr lang attr q s :
  (forall t, tr lang t = None) -> has_TK s = false -> ws_eq_free s = true ->
  attr_sub (fun t => translate_text_unit_storyline tr t lang) attr q s = s.
Proof.
  intros Hr Ht Hw. unfold attr_sub.
  apply (resub_id _ _ (fun s => has_TK s = false /\ ws_eq_free s = true)); [| |split; assumption].
  - intros c r [H1 H2]. split; [exact (has_TK_tail _ _ H1)|exact (ws_eq_free_tail _ _ H2)].
  - intros s' k v [H1 H2] E.
    destruct (attr_value_at_tight _ _ _ _ _ E H2) as [rest [Es El]].
    assert (Hv : has_TK v = false).
    { rewrite Es in H1. apply has_TK_app_r in H1. cbn [app] in H1.
      apply has_TK_tail, has_TK_tail, has_TK_app_l in H1. exact H1. }
    rewrite (raising_tu_id _ _ _ Hr Hv), El, Es.
    replace (attr ++ "="%char :: q :: v ++ q :: rest)
      with ((attr ++ "="%char :: q :: v ++ [q]) ++ rest)
      by (rewrite <- app_assoc; cbn [app]; rewrite <- app_assoc; reflexivity).
    rewrite firstn_app, Nat.sub_diag, firstn_O, app_nil_r, firstn_all. reflexivity.
Qed.

(** When the translation call raises, [_translate_attr_values_in_pseudo_xml]
    returns its string unchanged, provided the string does not contain
    ["TK"] and has no whitespace right before or after an ["="]. *)
Theorem pseudo_attrs_raising_unchanged tr s lang :
  (forall t, tr lang t = None) -> has_TK s = false -> ws_eq_free s = true ->
  translate_attr_values_in_pseudo_xml tr s lang = s.
Proof.
  intros Hr Ht Hw. unfold translate_attr_values_in_pseudo_xml.
  destruct s as [|c r]; [reflexivity|].
  generalize PSEUDO_ATTRS. intro attrs. induction attrs as [|attr attrs IH]; [reflexivity|].
  cbn [fold_left]. cbv zeta.
  rewrite (attr_sub_id tr lang attr dquote (c :: r)) by assumption.
  rewrite (attr_sub_id tr lang attr "'"%char (c :: r)) by assumption. exact IH.
Qed.

Lemma contains_tail p c r : contains p (c :: r) = false -> contains p r = false.
Proof. cbn [contains]. intro H. apply orb_false_iff in H as [_ H]. exact H. Qed.

Lemma attr_value_at_contains attr q s x :
  attr_value_at attr q s = Some x -> contains attr s = true.
Proof.
  unfold attr_value_at. destruct s as [|c r]; cbn [contains];
    unfold starts_with; destruct (strip_prefix attr _); try discriminate; reflexivity.
Qed.

Lemma attr_sub_absent tx attr q s :
  contains attr s = false -> attr_sub tx attr q s = s.
Proof.
  intro H. unfold attr_sub.
  apply (resub_id _ _ (fun s => contains attr s = false)); [exact (contains_tail attr) | | exact H].
  intros s' k v H' E. apply attr_value_at_contains in E. congruence.
Qed.

(** [_translate_attr_values_in_pseudo_xml] leaves a string in which none
    of the names [Text], [Label], [Alt], [Title], [Tooltip], [Value]
    occurs unchanged, whatever the translator does. *)
Theorem pseudo_attrs_untouched_without_names tr s lang :
  (forall attr, In attr PSEUDO_ATTRS -> contains attr s = false) ->
  translate_attr_values_in_pseudo_xml tr s lang = s.
Proof.
  intro H. unfold translate_attr_values_in_pseudo_xml.
  destruct s as [|c r]; [reflexivity|].
  generalize PSEUDO_ATTRS H. intros attrs Ha. clear H.
  induction attrs as [|attr attrs IH]; [reflexivity|].
  cbn [fold_left]. cbv zeta.
  rewrite (attr_sub_absent _ attr dquote (c :: r)) by (apply Ha; left; reflexivity).
  rewrite (attr_sub_absent _ attr "'"%char (c :: r)) by (apply Ha; left; reflexivity).
  apply IH. intros a Hin. apply Ha. right. exact Hin.
Qed.

Lemma storyline_texts_plain_same_witness :
  no_pseudo plain_example = true /\
  translate_node_texts_storyline upper_stub (lit "pt") plain_example
  = translate_node_texts upper_stub (lit "pt") plain_example.
Proof.
  split; [vm_compute; reflexivity|].
  apply (storyline_texts_plain_same upper_stub (lit "pt") plain_example).
  vm_compute; reflexivity.
Defined.

Lemma pseudo_attrs_raising_unchanged_witness :
  has_TK pseudo_example = false /\ ws_eq_free pseudo_example = true /\
  translate_attr_values_in_pseudo_xml raising pseudo_example (lit "pt") = pseudo_example.
Proof.
  split; [vm_compute; reflexivity|]. split; [vm_compute; reflexivity|].
  apply (pseudo_attrs_raising_unchanged raising pseudo_example (lit "pt")).
  - intro t; reflexivity.
  - vm_compute; reflexivity.
  - vm_compute; reflexivity.
Defined.

Lemma pseudo_attrs_untouched_without_names_witness :
  translate_attr_values_in_pseudo_xml upper_stub (lit "<Image Src='a.png'>") (lit "pt")
  = lit "<Image Src='a.png'>".
Proof.
  apply (pseudo_attrs_untouched_without_names upper_stub (lit "<Image Src='a.png'>") (lit "pt")).
  intros attr Hin. repeat (destruct Hin as [<-|Hin]; [vm_compute; reflexivity|]). destruct Hin.
Defined.

(** ** [process_storyline] *)

Lemma fst_process_loop_storyline_cons tr lang total i pl ps root :
  fst (process_loop_storyline tr lang total i (pl :: ps) root)
  = fst (process_loop_storyline tr lang total (S i) ps (segment_at_storyline tr lang root pl)).
Proof. simpl. destruct (process_loop_storyline _ _ _ _ _ _); reflexivity. Qed.

Lemma process_loop_storyline_app tr lang total l1 : forall i l2 root,
  fst (process_loop_storyline tr lang total i (l1 ++ l2) root)
  = fst (process_loop_storyline tr lang total (i + List.length l1) l2
           (fst (process_loop_storyline tr lang total i l1 root))).
Proof.
  induction l1 as [|pl l1 IH]; intros i l2 root.
  - simpl. rewrite Nat.add_0_r. reflexivity.
  - rewrite <- app_comm_cons, !fst_process_loop_storyline_cons, IH. simpl.
    rewrite Nat.add_succ_r. reflexivity.
Qed.

Lemma process_loop_storyline_frame tr lang total q pairs : forall i root,
  Forall (fun pl => disjoint_paths (pl_parent pl) q) pairs ->
  get_at q (fst (process_loop_storyline tr lang total i pairs root)) = get_at q root.
Proof.
  induction pairs as [|pl ps IH]; intros i root H; [reflexivity|].
  inversion H as [|? ? Hpl Hps]; subst.
  rewrite fst_process_loop_storyline_cons, IH by exact Hps.
  unfold segment_at_storyline. apply get_at_upd_disjoint. exact Hpl.
Qed.

Lemma fst_process_storyline tr lang root pairs :
  fst (process_storyline tr lang root pairs)
  = fix_spacing_around_tags
      (set_target_language
        (translate_accessibility_attrs tr
           (translate_all_notes tr
              (fst (process_loop_storyline tr lang (Nat.max (List.length pairs) 1) 1 pairs root)) lang)
           lang) lang).
Proof. unfold process_storyline. destruct (process_loop_storyline _ _ _ _ _ _); reflexivity. Qed.

Lemma attrib_mark_fill tmp t :
  el_attrib (mark_translated (fill_target tmp t)) = [(lit "state", lit "translated")].
Proof. unfold mark_translated. rewrite attrib_fill_target. destruct t; reflexivity. Qed.

Lemma process_segment_storyline_existing tr lang pmap parent k j :
  j < List.length (el_children parent) ->
  option_map el_attrib
    (nth_error (el_children (process_segment_storyline tr lang pmap parent k (Some j))) j)
  = Some [(lit "state", lit "translated")].
Proof.
  intro Hj. unfold process_segment_storyline; simpl.
  rewrite children_set_children, nth_error_list_set_same by exact Hj.
  simpl. rewrite attrib_mark_fill. reflexivity.
Qed.

Lemma state_at_attrib q a b :
  option_map el_attrib (get_at q a) = option_map el_attrib (get_at q b) ->
  state_at q a = state_at q b.
Proof.
  unfold state_at. destruct (get_at q a), (get_at q b); cbn; congruence.
Qed.

Lemma a11y_keeps_state tr lang : forall names a,
  Forall (fun n => n <> lit "state") names ->
  attr_get (lit "state") (fold_left (a11y_one tr lang) names a) = attr_get (lit "state") a.
Proof.
  intros names. induction names as [|nm names IH]; intros a H; [reflexivity|].
  inversion H as [|? ? Hn Hs]; subst. cbn [fold_left]. rewrite IH by exact Hs.
  unfold a11y_one. destruct (attr_get nm a) as [s|]; [|reflexivity].
  destruct (negb (is_blank s)); [|reflexivity].
  apply attr_get_set_other. intro E. apply Hn. symmetry. exact E.
Qed.

Lemma state_at_a11y tr lang q r :
  state_at q (translate_accessibility_attrs tr r lang) = state_at q r.
Proof.
  unfold state_at. rewrite get_at_a11y. destruct (get_at q r); [|reflexivity]. cbn.
  rewrite attrib_a11y. apply a11y_keeps_state.
  repeat constructor; discriminate.
Qed.

Lemma state_at_set_target_language q r lang :
  q <> [] -> state_at q (set_target_language r lang) = state_at q r.
Proof.
  intro Hq. unfold set_target_language.
  destruct (str_eqb (detect_version r) (lit "1.2")).
  - destruct (file_lang_path r) as [p|]; [|reflexivity].
    destruct (list_eq_dec Nat.eq_dec q p) as [->|Hne].
    + unfold state_at. rewrite get_at_upd_same. destruct (get_at p r); [|reflexivity].
      cbn. rewrite el_attrib_set_attrib. apply attr_get_set_other. discriminate.
    + apply state_at_attrib, attrib_upd_other; [|exact Hne].
      intro x. apply el_children_set_attrib.
  - destruct q as [|k q]; [congruence|]. destruct r. reflexivity.
Qed.

(** For a segment whose target exists at index [j] of its parent,
    [process_storyline] leaves that target with [state="translated"],
    whatever [state] it had before: [tgt.clear()] removes the old
    attributes, so the [if "state" not in tgt.attrib] test always
    succeeds.  The other segments are in other units. *)
Theorem process_storyline_marks_existing_target tr lang root pairs k pl parent j :
  nth_error pairs k = Some pl ->
  pl_tgt pl = Some j ->
  get_at (pl_parent pl) root = Some parent ->
  j < List.length (el_children parent) ->
  (forall k' pl', k' <> k -> nth_error pairs k' = Some pl' ->
                  disjoint_paths (pl_parent pl') (pl_parent pl)) ->
  state_at (pl_parent pl ++ [j]) (fst (process_storyline tr lang root pairs))
  = Some (lit "translated").
Proof.
  intros Hk Ht Hp Hj Hdis.
  destruct (nth_error_split pairs k Hk) as [l1 [l2 [Heq Hlen]]].
  destruct (forall_other_pairs pairs k pl
              (fun pl' => disjoint_paths (pl_parent pl') (pl_parent pl)) l1 l2 Heq Hlen Hdis)
    as [F1 F2].
  rewrite fst_process_storyline.
  set (L := fst (process_loop_storyline tr lang (Nat.max (List.length pairs) 1) 1 pairs root)).
  rewrite (state_at_attrib _ _ _ (attrib_at_shape _ _ _ (shape_fix_spacing _))).
  rewrite state_at_set_target_language by (destruct (pl_parent pl); discriminate).
  rewrite state_at_a11y.
  rewrite (state_at_attrib _ _ _ (attrib_at_shape _ _ _ (shape_notes_below tr lang L))).
  assert (En : option_map el_attrib (get_at (pl_parent pl ++ [j]) L)
               = Some [(lit "state", lit "translated")]).
  { subst L. rewrite Heq, process_loop_storyline_app, fst_process_loop_storyline_cons,
      process_loop_storyline_frame.
    2:{ eapply Forall_impl; [|exact F2]. intros x Hx. apply disjoint_paths_snoc, Hx. }
    unfold segment_at_storyline. rewrite get_at_app, get_at_upd_same, process_loop_storyline_frame
      by exact F1.
    rewrite Hp; cbn [option_map]. rewrite Ht.
    pose proof (process_segment_storyline_existing tr lang
                  (nsmap_at (pl_parent pl)
                     (fst (process_loop_storyline tr lang (Nat.max (List.length pairs) 1) 1 l1 root)))
                  parent (pl_src pl) j Hj) as Es.
    cbn [get_at]. destruct (nth_error _ j); cbn in *; congruence. }
  unfold state_at. destruct (get_at (pl_parent pl ++ [j]) L); cbn in En; [|discriminate].
  injection En as ->. reflexivity.
Qed.

Lemma process_storyline_marks_existing_target_witness :
  attr_get (lit "state") (el_attrib (nth 1 (el_children final_unit) default_elem)) = Some (lit "final") /\
  state_at [1] (fst (process_storyline echo_tr (lit "pt") final_unit [PairLoc [] 0 (Some 1)]))
  = Some (lit "translated").
Proof.
  split; [reflexivity|].
  apply (process_storyline_marks_existing_target echo_tr (lit "pt") final_unit
           [PairLoc [] 0 (Some 1)] 0 (PairLoc [] 0 (Some 1)) final_unit 1).
  - reflexivity.
  - reflexivity.
  - reflexivity.
  - simpl. lia.
  - intros k' pl' Hk' E. destruct k' as [|[|k']]; [contradiction|discriminate|discriminate].
Defined.

(** ** Shielding and restoring the pattern matches (C2) *)

Lemma expand_app toks a b : expand toks (a ++ b) = expand toks a ++ expand toks b.
Proof. apply flat_map_app. Qed.

Lemma expand_cons toks y ys : expand toks (y :: ys) =
  match y with Ch c => [c] | Ph i => orig toks i end ++ expand toks ys.
Proof. reflexivity. Qed.

Lemma has_TK_TK r : has_TK ("T"%char :: "K"%char :: r) = true.
Proof. reflexivity. Qed.

Lemma good_of_expand toks ys : has_TK (expand toks ys) = false -> good ys.
Proof.
  intros H l r E. subst ys. rewrite expand_app in H. apply has_TK_app_r in H.
  rewrite expand_cons, expand_cons in H. cbn [app] in H. rewrite has_TK_TK in H. discriminate.
Qed.

Lemma ph_below_0_flat toks ys : ph_below 0 ys -> flat ys = expand toks ys.
Proof.
  induction ys as [|[c|i] ys IH]; intro H; [reflexivity| |].
  - rewrite flat_cons, expand_cons. cbn [item_str app]. f_equal. apply IH.
    intros i Hi. apply H. right. exact Hi.
  - exfalso. specialize (H i (or_introl eq_refl)). lia.
Qed.

Lemma flat_sub_subst j T ys : flat_sub j (flat T) ys = flat (subst_ph j T ys).
Proof.
  induction ys as [|y ys IH]; [reflexivity|].
  unfold flat_sub, subst_ph, flat in *. cbn [flat_map]. rewrite flat_map_app, IH.
  destruct y as [c|i]; [reflexivity|].
  destruct (i =? j); [reflexivity|]. cbn [flat_map item_str]. rewrite app_nil_r. reflexivity.
Qed.

Lemma expand_subst toks j T ys : expand toks T = orig toks j ->
  expand toks (subst_ph j T ys) = expand toks ys.
Proof.
  intro HT. induction ys as [|[c|i] ys IH]; [reflexivity| |].
  - change (subst_ph j T (Ch c :: ys)) with (Ch c :: subst_ph j T ys).
    rewrite !expand_cons. f_equal. exact IH.
  - change (subst_ph j T (Ph i :: ys))
      with ((if i =? j then T else [Ph i]) ++ subst_ph j T ys).
    rewrite expand_app, IH, expand_cons. f_equal.
    destruct (Nat.eqb_spec i j) as [->|_]; [exact HT|].
    cbn. apply app_nil_r.
Qed.

Lemma ph_below_subst n j T ys : ph_below (S n) ys -> ph_below n T -> j = n ->
  ph_below n (subst_ph j T ys).
Proof.
  intros Hy HT ->. intros i Hi. unfold subst_ph in Hi. apply in_flat_map in Hi as [y [Hy' Hi]].
  destruct y as [c|k].
  - destruct Hi as [E|[]]; discriminate.
  - destruct (Nat.eqb_spec k n) as [->|Hne].
    + exact (HT i Hi).
    + destruct Hi as [E|[]]. injection E as <-. specialize (Hy k Hy'). lia.
Qed.

(** [restore_from n] turns a text made of items into its expansion, as
    long as the expansion has no ["TK"]. *)
Lemma restore_expand toks : forall n, toks_ok toks n ->
  forall ys, ph_below n ys -> has_TK (expand toks ys) = false ->
  restore_from n toks (flat ys) = expand toks ys.
Proof.
  induction n as [|n IH]; intros Hok ys Hb Ht.
  - apply ph_below_0_flat, Hb.
  - assert (Hok' : toks_ok toks n) by (intros i Hi; apply Hok; lia).
    destruct (Hok n (Nat.lt_succ_diag_r n)) as [T [ET [BT HT]]].
    assert (OT : orig toks n = expand toks T).
    { unfold orig. rewrite ET. apply IH; assumption. }
    cbn [restore_from]. unfold str_replace.
    rewrite (replace_flat n _ ys _ (good_of_expand _ _ Ht) (le_n _)).
    rewrite ET, flat_sub_subst.
    rewrite <- (expand_subst toks n T ys (eq_sym OT)).
    apply IH; [exact Hok'| |].
    + apply ph_below_subst; auto.
    + rewrite expand_subst by (symmetry; exact OT). exact Ht.
Qed.

Lemma orig_app toks E i : i < List.length toks -> orig (toks ++ E) i = orig toks i.
Proof.
  intro Hi. unfold orig. rewrite app_nth1 by exact Hi.
  apply restore_from_app. lia.
Qed.

Lemma expand_app_toks toks E ys : ph_below (List.length toks) ys ->
  expand (toks ++ E) ys = expand toks ys.
Proof.
  induction ys as [|[c|i] ys IH]; intro H; [reflexivity| |].
  - rewrite !expand_cons. f_equal. apply IH. intros i Hi. apply H. right. exact Hi.
  - rewrite !expand_cons. rewrite orig_app by (apply H; left; reflexivity).
    f_equal. apply IH. intros k Hk. apply H. right. exact Hk.
Qed.

Lemma iwoven_split ps k T g : nth_error ps k = Some (T, g) ->
  exists A B, iwoven ps = A ++ T ++ B.
Proof.
  revert k. induction ps as [|[T' g'] ps IH]; intros [|k] H; try discriminate.
  - injection H as -> ->. exists [], (g ++ iwoven ps). reflexivity.
  - destruct (IH k H) as [A [B E]]. exists (T' ++ g' ++ A), B. cbn [iwoven]. rewrite E.
    rewrite <- !app_assoc. reflexivity.
Qed.

Lemma ph_below_iwoven_tok n ps k T g : ph_below n (iwoven ps) -> nth_error ps k = Some (T, g) ->
  ph_below n T.
Proof.
  intros H E. destruct (iwoven_split ps k T g E) as [A [B EA]]. rewrite EA in H.
  apply ph_below_app in H as [_ H]. apply ph_below_app in H as [H _]. exact H.
Qed.

Lemma expand_iwoven_ph toks ps : forall n,
  (forall k T g, nth_error ps k = Some (T, g) -> orig toks (n + k) = expand toks T) ->
  expand toks (iwoven_ph n ps) = expand toks (iwoven ps).
Proof.
  induction ps as [|[T g] ps IH]; intros n H; [reflexivity|].
  cbn [iwoven_ph iwoven]. rewrite expand_cons, !expand_app.
  pose proof (H 0 T g eq_refl) as H0. rewrite Nat.add_0_r in H0. rewrite H0, IH; [reflexivity|].
  intros k T' g' E. rewrite Nat.add_succ_l, <- Nat.add_succ_r. exact (H (S k) T' g' E).
Qed.

Lemma ph_below_map_Ch n s : ph_below n (map Ch s).
Proof. intros i Hi. apply in_map_iff in Hi as [x [Hx _]]. discriminate. Qed.

Lemma expand_map_Ch toks s : expand toks (map Ch s) = s.
Proof. induction s as [|c s IH]; [reflexivity|]. cbn [map]. rewrite expand_cons, IH. reflexivity. Qed.

Lemma shield_pass text0 m acc : has_TK text0 = false -> In m NONTRANS_PATTERNS ->
  shield_inv text0 acc -> shield_inv text0 (sub_pass acc m).
Proof.
  intros H0 Hm H. destruct acc as [t toks]. destruct H as [xs [-> [B [X Ok]]]].
  set (n := List.length toks) in *.
  assert (G : good xs) by (apply (good_of_expand toks); rewrite X; exact H0).
  unfold sub_pass.
  destruct (scan_items m (patterns_end_well m Hm) (patterns_inside m Hm)
              (List.length (flat xs)) xs None n (le_n _)) as [g0 [ps [Exs Es]]].
  fold n. rewrite Es. cbn zeta.
  set (toks' := toks ++ map (fun p => flat (fst p)) ps).
  assert (L' : List.length toks' = n + List.length ps) by (subst toks'; rewrite length_app, length_map; reflexivity).
  assert (Bx : ph_below n (g0 ++ iwoven ps ++ [])) by (rewrite app_nil_r, <- Exs; exact B).
  assert (Bi : ph_below n (iwoven ps)).
  { rewrite app_nil_r in Bx. apply ph_below_app in Bx as [_ Bx]. exact Bx. }
  (* the tokens of this pass *)
  assert (Tk : forall k T g, nth_error ps k = Some (T, g) ->
             nth (n + k) toks' [] = flat T /\ ph_below (n + k) T /\
             has_TK (expand toks' T) = false).
  { intros k T g E. split; [|split].
    - subst toks'. rewrite app_nth2 by lia. replace (n + k - List.length toks) with k by (subst n; lia).
      apply nth_error_nth. rewrite nth_error_map, E.
      reflexivity.
    - apply (ph_below_weaken n); [lia|]. exact (ph_below_iwoven_tok n ps k T g Bi E).
    - subst toks'. rewrite expand_app_toks by exact (ph_below_iwoven_tok n ps k T g Bi E).
      destruct (iwoven_split ps k T g E) as [A [C EA]].
      rewrite <- X, Exs, EA, !expand_app in H0.
      apply has_TK_app_r, has_TK_app_r, has_TK_app_l in H0. exact H0. }
  assert (Ok' : toks_ok toks' (n + List.length ps)).
  { intros i Hi. destruct (Nat.lt_ge_cases i n) as [Hin|Hin].
    - destruct (Ok i Hin) as [T [ET [BT HT]]]. exists T.
      split; [subst toks'; rewrite app_nth1 by exact Hin; exact ET|].
      split; [exact BT|]. subst toks'. rewrite expand_app_toks by (apply (ph_below_weaken i); [lia|exact BT]).
      exact HT.
    - destruct (nth_error ps (i - n)) as [[T g]|] eqn:E.
      + exists T. replace i with (n + (i - n)) by lia. exact (Tk _ _ _ E).
      + apply nth_error_None in E. lia. }
  exists (g0 ++ iwoven_ph n ps). split; [reflexivity|]. rewrite L'.
  split; [exact (below_collapse ps g0 [] n Bx)|]. split; [|exact Ok'].
  rewrite expand_app, expand_iwoven_ph.
  - rewrite <- expand_app, <- Exs. subst toks'. rewrite expand_app_toks by exact B. exact X.
  - intros k T g E. destruct (Tk k T g E) as [ET [BT HT]].
    assert (Hk : k < List.length ps) by (apply nth_error_Some; congruence).
    unfold orig. rewrite ET. apply restore_expand; [|exact BT|exact HT].
    intros i Hi. apply Ok'. lia.
Qed.

Lemma shield_fold text0 pats : has_TK text0 = false -> forall acc,
  (forall m, In m pats -> In m NONTRANS_PATTERNS) ->
  shield_inv text0 acc -> shield_inv text0 (fold_left sub_pass pats acc).
Proof.
  intro H0. induction pats as [|m pats IH]; intros acc Hp H; [exact H|].
  cbn [fold_left]. apply IH; [intros m' Hm'; apply Hp; right; exact Hm'|].
  apply shield_pass; [exact H0|apply Hp; left; reflexivity|exact H].
Qed.

Lemma sub_scan_tokens m : match_ends_well m -> forall fuel prev s idx tok,
  In tok (snd (sub_scan m fuel prev s idx)) ->
  exists prev' rest, m prev' (tok ++ rest) = Some (List.length tok).
Proof.
  intros Hend fuel. induction fuel as [|f IH]; intros prev s idx tok H; [destruct H|].
  destruct s as [|c r]; [destruct H|]. cbn [sub_scan] in H.
  destruct (m prev (c :: r)) as [[|k]|] eqn:E.
  - destruct (sub_scan m f (Some c) r idx) as [o ts] eqn:Er. cbn [snd] in H.
    apply (IH (Some c) r idx). rewrite Er. exact H.
  - destruct (sub_scan m f (char_at (c :: r) k) (skipn (S k) (c :: r)) (S idx)) as [o ts] eqn:Er.
    cbn [snd] in H. destruct H as [<-|H].
    + exists prev, (skipn (S k) (c :: r)). rewrite firstn_skipn, E.
      destruct (Hend _ _ _ E) as [Hl _]. rewrite length_firstn. f_equal. lia.
    + apply (IH (char_at (c :: r) k) (skipn (S k) (c :: r)) (S idx)). rewrite Er. exact H.
  - destruct (sub_scan m f (Some c) r idx) as [o ts] eqn:Er. cbn [snd] in H.
    apply (IH (Some c) r idx). rewrite Er. exact H.
Qed.

Lemma fold_tokens pats : (forall m, In m pats -> In m NONTRANS_PATTERNS) -> forall acc tok,
  In tok (snd (fold_left sub_pass pats acc)) ->
  In tok (snd acc) \/
  exists m prev rest, In m NONTRANS_PATTERNS /\ m prev (tok ++ rest) = Some (List.length tok).
Proof.
  induction pats as [|m pats IH]; intros Hp acc tok H; [left; exact H|].
  cbn [fold_left] in H. destruct (IH (fun m' H' => Hp m' (or_intror H')) _ _ H) as [H1|H1];
    [|right; exact H1].
  destruct acc as [t toks]. unfold sub_pass in H1.
  destruct (sub_scan m (List.length t) None t (List.length toks)) as [t' fresh] eqn:E.
  cbn [snd] in H1. apply in_app_or in H1 as [H1|H1]; [left; exact H1|].
  right. exists m. assert (Hm : In m NONTRANS_PATTERNS) by (apply Hp; left; reflexivity).
  destruct (sub_scan_tokens m (patterns_end_well m Hm) (List.length t) None t (List.length toks) tok)
    as [prev [rest Hr]].
  - rewrite E. exact H1.
  - exists prev, rest. split; [exact Hm|exact Hr].
Qed.

(** C2: only substrings matched by the six [NONTRANS_PATTERNS] are
    shielded.  For every text without ["TK"], every token is a whole
    match of one of the patterns (in the text of its pass); the protected
    text is made of the text's other characters, kept as they are, and of
    placeholders [__TK{i}__], each standing for the original substring
    [orig toks i], in the order of the text.  And for every output of a
    translation stub that keeps placeholders of the protected text (the
    items [ys]: its own characters [Ch] and placeholders [Ph]), if the
    expected result ([expand]: each placeholder replaced by its original
    substring) has no ["TK"], [restore_nontranslatable] gives exactly that
    result. *)
Theorem protect_shields_pattern_matches text :
  has_TK text = false ->
  let '(t, toks) := protect_nontranslatable text in
  (forall tok, In tok toks -> exists m prev rest,
     In m NONTRANS_PATTERNS /\ m prev (tok ++ rest) = Some (List.length tok)) /\
  exists xs, t = flat xs /\ ph_below (List.length toks) xs /\ expand toks xs = text /\
  (forall ys, ph_below (List.length toks) ys -> has_TK (expand toks ys) = false ->
     restore_nontranslatable (flat ys) toks = expand toks ys).
Proof.
  intro H0. unfold protect_nontranslatable.
  destruct text as [|c r].
  - split; [intros tok []|]. exists []. split; [reflexivity|]. split; [intros i []|].
    split; [reflexivity|]. intros ys Hb _. apply ph_below_0_flat, Hb.
  - assert (I0 : shield_inv (c :: r) (c :: r, [])).
    { exists (map Ch (c :: r)). split; [symmetry; apply flat_map_Ch|].
      split; [apply ph_below_map_Ch|]. split; [apply expand_map_Ch|].
      intros i Hi. cbn in Hi. lia. }
    pose proof (shield_fold (c :: r) NONTRANS_PATTERNS H0 _ (fun m H => H) I0) as I1.
    pose proof (fold_tokens NONTRANS_PATTERNS (fun m H => H) (c :: r, [])) as Tk.
    destruct (fold_left sub_pass NONTRANS_PATTERNS (c :: r, [])) as [t toks].
    split.
    + intros tok Ht. destruct (Tk tok Ht) as [[]|Hm]. exact Hm.
    + destruct I1 as [xs [Et [B [X Ok]]]]. exists xs.
      split; [exact Et|]. split; [exact B|]. split; [exact X|].
      intros ys Hb Hy. rewrite restore_nt_from. apply restore_expand; assumption.
Qed.

Lemma protect_shields_pattern_matches_witness :
  has_TK hello_example = false /\
  protect_nontranslatable hello_example
    = (lit "Hello {name}, you scored __TK0__%", [lit "%d%"]) /\
  translate_text_unit upper_stub hello_example (lit "pt")
    = lit "HELLO {NAME}, YOU SCORED %d%%" /\
  restore_nontranslatable
    (flat (map Ch (lit "Bonjour {nom}, score ") ++ [Ph 0] ++ map Ch (lit "%")))
    [lit "%d%"]
  = lit "Bonjour {nom}, score %d%%".
Proof.
  split; [vm_compute; reflexivity|]. split; [vm_compute; reflexivity|].
  split; [vm_compute; reflexivity|].
  assert (Ep : protect_nontranslatable hello_example
                = (lit "Hello {name}, you scored __TK0__%", [lit "%d%"]))
    by (vm_compute; reflexivity).
  pose proof (protect_shields_pattern_matches hello_example eq_refl) as P.
  rewrite Ep in P. destruct P as [_ [xs [_ [_ [_ R]]]]].
  refine (eq_trans (R _ _ _) _).
  - intros i Hi. apply in_app_or in Hi as [Hi|Hi]; [apply in_map_iff in Hi as [x [Hx _]]; discriminate|].
    destruct Hi as [E|Hi]; [injection E as <-; cbn; lia|].
    apply in_map_iff in Hi as [x [Hx _]]; discriminate.
  - vm_compute. reflexivity.
  - vm_compute. reflexivity.
Defined.
